(** * pray-calc-ml: solar ephemeris, predictor, scorer and angle calibrator

    A shallow embedding of [solar.ts], [predict.ts], [score.ts] and
    [calibrate.ts], the properties of the specification proved on it, and
    further properties of the code: of the Julian Day Number, the ephemeris,
    the predictor, the solver, the calibrator and the scorer.

    JavaScript numbers are modelled as exact real numbers extended with the
    three IEEE special values ([Infinity], [-Infinity], [NaN]).  The special
    values propagate through the operators as they do in JavaScript; on finite
    operands the operators are the exact real ones: rounding, overflow and the
    sign of zero are not part of the model (a zero is [+0]).

    The statements about numbers are equalities between expressions of the
    code, or bounds that leave room for rounding on inputs of bounded
    magnitude.  What rounding alone decides is shown on IEEE doubles, in the
    module [Double].

    A [Date] is read through its calendar fields.  The loop of the solver
    need not end (its budget [maxIter] may be [Infinity]): it is followed
    for a number of steps given as fuel. *)

From Stdlib Require Import Floats Reals Lra Lia ZArith List Bool.
Import ListNotations.

Local Open Scope R_scope.

(* ------------------------------------------------------------------ *)
(** ** The number model *)

Module Num.

Inductive num : Type :=
| Fin (r : R)
| PInf
| NInf
| NaN.

Definition Rltb (x y : R) : bool := if Rlt_dec x y then true else false.
Definition Rleb (x y : R) : bool := if Rle_dec x y then true else false.
Definition Reqb (x y : R) : bool := if Req_dec_T x y then true else false.

(** The infinity of the sign of [r]; [NaN] when [r] is zero. *)
Definition signed_inf (r : R) : num :=
  if Rltb 0 r then PInf else if Rltb r 0 then NInf else NaN.

Definition neg (x : num) : num :=
  match x with
  | Fin a => Fin (- a)
  | PInf => NInf
  | NInf => PInf
  | NaN => NaN
  end.

Definition add (x y : num) : num :=
  match x, y with
  | NaN, _ | _, NaN => NaN
  | Fin a, Fin b => Fin (a + b)
  | PInf, NInf | NInf, PInf => NaN
  | PInf, _ | _, PInf => PInf
  | NInf, _ | _, NInf => NInf
  end.

Definition sub (x y : num) : num := add x (neg y).

Definition mul (x y : num) : num :=
  match x, y with
  | NaN, _ | _, NaN => NaN
  | Fin a, Fin b => Fin (a * b)
  | Fin a, PInf | PInf, Fin a => signed_inf a
  | Fin a, NInf | NInf, Fin a => signed_inf (- a)
  | PInf, PInf | NInf, NInf => PInf
  | PInf, NInf | NInf, PInf => NInf
  end.

Definition div (x y : num) : num :=
  match x, y with
  | NaN, _ | _, NaN => NaN
  | Fin a, Fin b => if Reqb b 0 then signed_inf a else Fin (a / b)
  | Fin _, (PInf | NInf) => Fin 0
  | PInf, Fin b => if Rltb b 0 then NInf else PInf
  | NInf, Fin b => if Rltb b 0 then PInf else NInf
  | (PInf | NInf), (PInf | NInf) => NaN
  end.

(** [x < y]; false as soon as one side is [NaN]. *)
Definition ltb (x y : num) : bool :=
  match x, y with
  | NaN, _ | _, NaN => false
  | Fin a, Fin b => Rltb a b
  | NInf, (Fin _ | PInf) => true
  | Fin _, PInf => true
  | _, _ => false
  end.

(** [x > y] is [y < x]. *)
Definition gtb (x y : num) : bool := ltb y x.

(** [x >= y] and [x <= y]. *)
Definition leb (x y : num) : bool :=
  match x, y with
  | NaN, _ | _, NaN => false
  | Fin a, Fin b => Rleb a b
  | NInf, _ => true
  | _, PInf => true
  | _, _ => false
  end.

(** The global [isFinite]. *)
Definition isFinite (x : num) : bool :=
  match x with Fin _ => true | _ => false end.

(** The global [isNaN]. *)
Definition isNaN (x : num) : bool :=
  match x with NaN => true | _ => false end.

(** Truncation toward zero of a real, as a real. *)
Definition Rtrunc (x : R) : R :=
  if Rleb 0 x then IZR (Int_part x) else - IZR (Int_part (- x)).

(** The [%] operator: the remainder has the sign of the dividend. *)
Definition rem (x y : num) : num :=
  match x, y with
  | NaN, _ | _, NaN => NaN
  | (PInf | NInf), _ => NaN
  | Fin a, (PInf | NInf) => Fin a
  | Fin a, Fin b => if Reqb b 0 then NaN else Fin (a - b * Rtrunc (a / b))
  end.

Definition lift (f : R -> R) (x : num) : num :=
  match x with Fin a => Fin (f a) | _ => NaN end.

End Num.

Import Num.
Coercion Fin : R >-> num.

(** The functions and constants of [Math]. *)
Module Math.

(** [Math.sin], [Math.cos], [Math.tan]. *)
Definition sin (x : num) : num := lift Rtrigo_def.sin x.
Definition cos (x : num) : num := lift Rtrigo_def.cos x.
Definition tan (x : num) : num := div (sin x) (cos x).

(** [Math.asin], [Math.acos]: [NaN] outside [-1, 1]. *)
Definition asin (x : num) : num :=
  match x with
  | Fin a => if Rleb (-1) a && Rleb a 1 then Fin (Ratan.asin a) else NaN
  | _ => NaN
  end.

Definition acos (x : num) : num :=
  match x with
  | Fin a => if Rleb (-1) a && Rleb a 1 then Fin (Ratan.acos a) else NaN
  | _ => NaN
  end.

(** [Math.sqrt]. *)
Definition sqrt (x : num) : num :=
  match x with
  | Fin a => if Rltb a 0 then NaN else Fin (R_sqrt.sqrt a)
  | PInf => PInf
  | NInf | NaN => NaN
  end.

(** [Math.PI]. *)
Definition PI : num := Fin Rtrigo1.PI.

End Math.

Declare Scope num_scope.
Delimit Scope num_scope with num.
Bind Scope num_scope with num.
Infix "+" := add : num_scope.
Infix "-" := sub : num_scope.
Infix "*" := mul : num_scope.
Infix "/" := div : num_scope.
Infix "mod" := rem : num_scope.
Notation "- x" := (neg x) : num_scope.
Infix "<?" := ltb : num_scope.
Infix ">?" := gtb : num_scope.

(* ------------------------------------------------------------------ *)
(** ** [solar.ts]: the ephemeris *)

(** A [Date], read through its calendar fields ([getFullYear], [getMonth]
    (from 0) and [getDate]); [InvalidDate] is the date whose time value is
    [NaN]. *)
Inductive Date : Type :=
| InvalidDate
| MkDate (year month day : Z).

(** The calendar order of two days. *)
Definition dayLeb (y1 m1 d1 y2 m2 d2 : Z) : bool :=
  ((y1 <? y2) || ((y1 =? y2) && ((m1 <? m2) || ((m1 =? m2) && (d1 <=? d2)))))%Z.

(** The days whose noon UTC is a time value: those at most 100 000 000 days
    from 1 January 1970, from 20 April -271821 to 12 September 275760. *)
Definition inTimeRange (y m d : Z) : bool :=
  dayLeb (-271821) 3 20 y m d && dayLeb y m d 275760 8 12.

(** [new Date(Date.UTC(y, m, d, 12))]: noon UTC of the same calendar day.
    [Date.UTC] reads a year between 0 and 99 as 1900 + year, and its result
    is no date when the time value is out of range. *)
Definition utcNoon (d : Date) : Date :=
  match d with
  | InvalidDate => InvalidDate
  | MkDate y m dd =>
      let yr := (if ((0 <=? y) && (y <=? 99))%Z then 1900 + y else y)%Z in
      if inTimeRange yr m dd then MkDate yr m dd else InvalidDate
  end.

(** Julian Day Number for a Date at UT noon. *)
Definition jdnZ (y m d : Z) : Z :=
  let a := ((14 - m) / 12)%Z in
  let yr := (y + 4800 - a)%Z in
  let mo := (m + 12 * a - 3)%Z in
  (d + (153 * mo + 2) / 5 + 365 * yr + yr / 4 - yr / 100 + yr / 400 - 32045)%Z.

Definition jdn (date : Date) : num :=
  match date with
  | InvalidDate => NaN
  | MkDate y m0 d => Fin (IZR (jdnZ y (m0 + 1) d))
  end.

Record SolarData : Type := mkSolarData {
  declRad : num;   (* solar declination in radians *)
  eqtHours : num   (* equation of time in hours *)
}.

Local Open Scope num_scope.

(** Jean Meeus solar declination and equation of time for a given JDN. *)
Definition solar (jd : num) : SolarData :=
  let T := (jd - 2451545.0) / 36525.0 in
  let L0 := (280.46646 + T * (36000.76983 + T * 0.0003032)) mod 360 in
  let M := (357.52911 + T * (35999.05029 - T * 0.0001537)) mod 360 in
  let Mrad := (M * Math.PI) / 180 in
  let C := Math.sin Mrad * (1.914602 - T * (0.004817 + 0.000014 * T))
           + Math.sin (2 * Mrad) * (0.019993 - 0.000101 * T)
           + Math.sin (3 * Mrad) * 0.000289 in
  let sunLon := L0 + C in
  let omega := 125.04 - 1934.136 * T in
  let lambda := sunLon - 0.00569 - 0.00478 * Math.sin ((omega * Math.PI) / 180) in
  let eps0 := 23 + 26 / 60 + 21.448 / 3600
              - T * (46.8150 / 3600 + T * (0.00059 / 3600 - T * 0.001813 / 3600)) in
  let eps := eps0 + 0.00256 * Math.cos ((omega * Math.PI) / 180) in
  let epsRad := (eps * Math.PI) / 180 in
  let lambdaRad := (lambda * Math.PI) / 180 in
  let declRad := Math.asin (Math.sin epsRad * Math.sin lambdaRad) in
  let y := Math.tan (epsRad / 2) * Math.tan (epsRad / 2) in
  let L0rad := (L0 * Math.PI) / 180 in
  let eqtMin := (4 / Math.PI) * (
      y * Math.sin (2 * L0rad)
      - 2 * Math.sin Mrad
      + 4 * Math.sin Mrad * y * Math.cos (2 * L0rad)
      - 0.5 * y * y * Math.sin (4 * L0rad)
      - 1.25 * Math.sin (2 * Mrad)
    ) * (180 / Math.PI) in
  let eqtHours := eqtMin / 60 in
  mkSolarData declRad eqtHours.

(** The time (fractional hours, local time) when the sun reaches a given
    altitude before and after solar noon: [(rise, set)]. *)
Definition horizonCrossing (jd lat lng tz altDeg : num) : num * num :=
  let '(mkSolarData declRad eqtHours) := solar jd in
  let latRad := (lat * Math.PI) / 180 in
  let altRad := (altDeg * Math.PI) / 180 in
  let cosH := (Math.sin altRad - Math.sin latRad * Math.sin declRad)
              / (Math.cos latRad * Math.cos declRad) in
  if (cosH <? Fin (-1)) || (cosH >? 1) then (NaN, NaN)
  else
    let H := (Math.acos cosH * 180) / Math.PI in
    let noon := 12 - eqtHours - lng / 15 + tz in
    let rise := noon - H / 15 in
    let set := noon + H / 15 in
    (rise, set).

(* ------------------------------------------------------------------ *)
(** ** [predict.ts]: the predictor *)

Definition predictFajr (date : Date) (lat lng tz fajrAngle : num) : num :=
  let jd := jdn (utcNoon date) in
  let altDeg := - fajrAngle in
  fst (horizonCrossing jd lat lng tz altDeg).

Definition predictIsha (date : Date) (lat lng tz ishaAngle : num) : num :=
  let jd := jdn (utcNoon date) in
  let altDeg := - ishaAngle in
  snd (horizonCrossing jd lat lng tz altDeg).

(* ------------------------------------------------------------------ *)
(** ** [types.ts] *)

(** A single observed prayer time announcement.  The optional fields are
    [None] when the property is [undefined]. *)
Record Observation : Type := mkObservation {
  date : Date;
  lat : num;
  lng : num;
  tz : num;
  fajr : option num;
  isha : option num;
  weight : option num
}.

Record CalibratedAngles : Type := mkAngles {
  fajrAngle : num;
  ishaAngle : num
}.

(** One entry of a residual list; [None] is [null]. *)
Record Residual : Type := mkResidual {
  fajrMin : option num;
  ishaMin : option num
}.

Record CalibrationResult : Type := mkCalibrationResult {
  angles : CalibratedAngles;
  rmsMinutes : num;
  observationCount : num;
  residuals : list Residual
}.

(** Options for [calibrateAngles]; a field left out is [None].  [maxIter]
    is a number like the others: it may be [Infinity] or [NaN]. *)
Record CalibrationOptions : Type := mkOptions {
  opt_fajrAngle0 : option num;
  opt_ishaAngle0 : option num;
  opt_fajrMin : option num;
  opt_fajrMax : option num;
  opt_ishaMin : option num;
  opt_ishaMax : option num;
  opt_maxIter : option num;
  opt_tol : option num
}.

(** The empty options object [{}]. *)
Definition noOptions : CalibrationOptions :=
  mkOptions None None None None None None None None.

(** [x ?? d] and the default of a destructured field. *)
Definition orDefault {A : Type} (x : option A) (d : A) : A :=
  match x with Some v => v | None => d end.

(** [o.fajr!]: an [undefined] operand of an arithmetic operator is [NaN]. *)
Definition unwrap (x : option num) : num := orDefault x NaN.

(** A [map] whose callback also updates variables of the enclosing function:
    the callback's state is threaded through the list from left to right. *)
Fixpoint mapAccum {A B S : Type} (step : S -> A -> B * S) (l : list A) (s : S)
  : list B * S :=
  match l with
  | [] => ([], s)
  | x :: l' =>
      let '(y, s1) := step s x in
      let '(ys, s2) := mapAccum step l' s1 in
      (y :: ys, s2)
  end.

(* ------------------------------------------------------------------ *)
(** ** [score.ts]: the scorer *)

Record ScoreResult : Type := mkScoreResult {
  score_rmsMinutes : num;
  score_fajrBiasMinutes : num;
  score_ishaBiasMinutes : num;
  score_residuals : list Residual
}.

(** The six accumulators of [scoreAngles]. *)
Record ScoreAcc : Type := mkScoreAcc {
  sa_totalWeightedSS : num;
  sa_totalWeight : num;
  sa_fajrWeightedBias : num;
  sa_fajrWeightCount : num;
  sa_ishaWeightedBias : num;
  sa_ishaWeightCount : num
}.

Definition scoreAcc0 : ScoreAcc := mkScoreAcc 0 0 0 0 0 0.

(** The first [if] of the callback. *)
Definition scoreFajr (fajrAngle : num) (w : num) (s : ScoreAcc) (o : Observation)
  : option num * ScoreAcc :=
  match fajr o with
  | Some t =>
      let pred := predictFajr (date o) (lat o) (lng o) (tz o) fajrAngle in
      if isFinite pred then
        let fajrMin := (pred - t) * 60 in
        (Some fajrMin,
         mkScoreAcc (sa_totalWeightedSS s + w * fajrMin * fajrMin)
                    (sa_totalWeight s + w)
                    (sa_fajrWeightedBias s + w * fajrMin)
                    (sa_fajrWeightCount s + w)
                    (sa_ishaWeightedBias s)
                    (sa_ishaWeightCount s))
      else (None, s)
  | None => (None, s)
  end.

(** The second [if] of the callback. *)
Definition scoreIsha (ishaAngle : num) (w : num) (s : ScoreAcc) (o : Observation)
  : option num * ScoreAcc :=
  match isha o with
  | Some t =>
      let pred := predictIsha (date o) (lat o) (lng o) (tz o) ishaAngle in
      if isFinite pred then
        let ishaMin := (pred - t) * 60 in
        (Some ishaMin,
         mkScoreAcc (sa_totalWeightedSS s + w * ishaMin * ishaMin)
                    (sa_totalWeight s + w)
                    (sa_fajrWeightedBias s)
                    (sa_fajrWeightCount s)
                    (sa_ishaWeightedBias s + w * ishaMin)
                    (sa_ishaWeightCount s + w))
      else (None, s)
  | None => (None, s)
  end.

Definition scoreStep (fajrAngle ishaAngle : num) (s : ScoreAcc) (o : Observation)
  : Residual * ScoreAcc :=
  let w := orDefault (weight o) 1 in
  let '(fajrMin, s1) := scoreFajr fajrAngle w s o in
  let '(ishaMin, s2) := scoreIsha ishaAngle w s1 o in
  (mkResidual fajrMin ishaMin, s2).

(** Evaluate fixed depression angles against observed prayer times. *)
Definition scoreAngles (observations : list Observation) (fajrAngle ishaAngle : num)
  : ScoreResult :=
  let '(residuals, s) :=
    mapAccum (scoreStep fajrAngle ishaAngle) observations scoreAcc0 in
  mkScoreResult
    (if sa_totalWeight s >? 0
     then Math.sqrt (sa_totalWeightedSS s / sa_totalWeight s) else 0)
    (if sa_fajrWeightCount s >? 0
     then sa_fajrWeightedBias s / sa_fajrWeightCount s else 0)
    (if sa_ishaWeightCount s >? 0
     then sa_ishaWeightedBias s / sa_ishaWeightCount s else 0)
    residuals.

(* ------------------------------------------------------------------ *)
(** ** [calibrate.ts]: the calibrator *)

(** [(Math.sqrt(5) - 1) / 2], about 0.618. *)
Definition phi : num := (Math.sqrt 5 - 1) / 2.

(** [i++] on the counter of the loop, a double that counts from 0: the sum
    is exact below 2^53, where [i + 1] rounds back to [i]. *)
Definition increment (i : num) : num :=
  if i <? 9007199254740992 then i + 1 else i.

(** The [for] loop of [goldenSection], from the test of its condition with
    the counter at [i], and the [return] that follows it.  The loop need not
    end: the model follows it for at most [fuel] tests of the condition, and
    the result is [None] when it has not ended by then. *)
Fixpoint goldenLoop (f : num -> num) (tol maxIter : num) (fuel : nat)
    (i a b x1 x2 f1 f2 : num) : option num :=
  match fuel with
  | O => None
  | S fuel' =>
      if (i <? maxIter) && (b - a >? tol) then
        if f1 <? f2 then
          let b := x2 in let x2 := x1 in let f2 := f1 in
          let x1 := b - phi * (b - a) in let f1 := f x1 in
          goldenLoop f tol maxIter fuel' (increment i) a b x1 x2 f1 f2
        else
          let a := x1 in let x1 := x2 in let f1 := f2 in
          let x2 := a + phi * (b - a) in let f2 := f x2 in
          goldenLoop f tol maxIter fuel' (increment i) a b x1 x2 f1 f2
      else Some ((a + b) / 2)
  end.

(** Golden-section search for the minimum of f(x) on [a, b]. *)
Definition goldenSection (f : num -> num) (a b tol maxIter : num) (fuel : nat)
  : option num :=
  let x1 := b - phi * (b - a) in
  let x2 := a + phi * (b - a) in
  let f1 := f x1 in
  let f2 := f x2 in
  goldenLoop f tol maxIter fuel 0 a b x1 x2 f1 f2.

(** What a call of [calibrateAngles] throws. *)
Inductive CalibrationError : Type :=
| InsufficientData (nFajr nIsha : nat).

Inductive outcome (A : Type) : Type :=
| Returns (v : A)
| Throws (e : CalibrationError).
Arguments Returns {A} v.
Arguments Throws {A} e.

Definition isSome {A : Type} (x : option A) : bool :=
  match x with Some _ => true | None => false end.

(** Weighted sum-of-squares for Fajr at a given angle. *)
Definition fajrLoss (fajrObs : list Observation) (angle : num) : num :=
  fold_left (fun wss o =>
    let pred := predictFajr (date o) (lat o) (lng o) (tz o) angle in
    if negb (isFinite pred) then wss
    else
      let w := orDefault (weight o) 1 in
      let diff := (pred - unwrap (fajr o)) * 60 in
      wss + w * diff * diff) fajrObs (Fin 0).

(** Weighted sum-of-squares for Isha at a given angle. *)
Definition ishaLoss (ishaObs : list Observation) (angle : num) : num :=
  fold_left (fun wss o =>
    let pred := predictIsha (date o) (lat o) (lng o) (tz o) angle in
    if negb (isFinite pred) then wss
    else
      let w := orDefault (weight o) 1 in
      let diff := (pred - unwrap (isha o)) * 60 in
      wss + w * diff * diff) ishaObs (Fin 0).

(** The callback of the final [map]: the state is
    [(totalWeightedSS, totalWeight)]. *)
Definition residualStep (fajrAngle ishaAngle : num) (s : num * num) (o : Observation)
  : Residual * (num * num) :=
  let w := orDefault (weight o) 1 in
  let '(fajrMin, s1) :=
    match fajr o with
    | Some t =>
        let pred := predictFajr (date o) (lat o) (lng o) (tz o) fajrAngle in
        if isFinite pred then
          let fajrMin := (pred - t) * 60 in
          (Some fajrMin, (fst s + w * fajrMin * fajrMin, snd s + w))
        else (None, s)
    | None => (None, s)
    end in
  let '(ishaMin, s2) :=
    match isha o with
    | Some t =>
        let pred := predictIsha (date o) (lat o) (lng o) (tz o) ishaAngle in
        if isFinite pred then
          let ishaMin := (pred - t) * 60 in
          (Some ishaMin, (fst s1 + w * ishaMin * ishaMin, snd s1 + w))
        else (None, s1)
    | None => (None, s1)
    end in
  (mkResidual fajrMin ishaMin, s2).

(** Calibrate Fajr and Isha depression angles to fit observed prayer time
    data.  Each search is followed for at most [fuel] steps; the call has no
    outcome ([None]) when a search has not ended by then. *)
Definition calibrateAngles (fuel : nat) (observations : list Observation)
    (options : CalibrationOptions) : option (outcome CalibrationResult) :=
  let fajrMin := orDefault (opt_fajrMin options) 10 in
  let fajrMax := orDefault (opt_fajrMax options) 22 in
  let ishaMin := orDefault (opt_ishaMin options) 10 in
  let ishaMax := orDefault (opt_ishaMax options) 22 in
  let maxIter := orDefault (opt_maxIter options) 200 in
  let tol := orDefault (opt_tol options) (Fin 1e-5) in
  let fajrObs := filter (fun o => isSome (fajr o)) observations in
  let ishaObs := filter (fun o => isSome (isha o)) observations in
  if (length fajrObs <? 2)%nat && (length ishaObs <? 2)%nat then
    Some (Throws (InsufficientData (length fajrObs) (length ishaObs)))
  else
    let fajrAngle0 := orDefault (opt_fajrAngle0 options) 15.0 in
    let ishaAngle0 := orDefault (opt_ishaAngle0 options) 15.0 in
    match
      (if (2 <=? length fajrObs)%nat
       then goldenSection (fajrLoss fajrObs) fajrMin fajrMax tol maxIter fuel
       else Some fajrAngle0)
    with
    | None => None
    | Some fajrAngle =>
        match
          (if (2 <=? length ishaObs)%nat
           then goldenSection (ishaLoss ishaObs) ishaMin ishaMax tol maxIter fuel
           else Some ishaAngle0)
        with
        | None => None
        | Some ishaAngle =>
            let '(residuals, (totalWeightedSS, totalWeight)) :=
              mapAccum (residualStep fajrAngle ishaAngle) observations
                (Fin 0, Fin 0) in
            let rmsMinutes :=
              if totalWeight >? 0
              then Math.sqrt (totalWeightedSS / totalWeight) else 0 in
            let observationCount :=
              (Fin (INR (length fajrObs)) + Fin (INR (length ishaObs))) / 2 in
            Some (Returns (mkCalibrationResult (mkAngles fajrAngle ishaAngle)
                             rmsMinutes observationCount residuals))
        end
    end.

Local Close Scope num_scope.

(* ------------------------------------------------------------------ *)
(** ** The calibrator in the statements *)

(** The observations with a dawn time, and those with a dusk time. *)
Definition fajrSubset (observations : list Observation) : list Observation :=
  filter (fun o => isSome (fajr o)) observations.

Definition ishaSubset (observations : list Observation) : list Observation :=
  filter (fun o => isSome (isha o)) observations.

(** The angle [calibrateAngles] reports for one prayer: the golden-section
    fit over the subset when it has two members, the initial guess if not. *)
Definition fittedOrGuess (loss : num -> num) (subset : list Observation)
    (lo hi tol maxIter guess : num) (fuel : nat) : option num :=
  if (2 <=? length subset)%nat
  then goldenSection loss lo hi tol maxIter fuel
  else Some guess.

Definition fajrFit (fuel : nat) (observations : list Observation)
    (options : CalibrationOptions) : option num :=
  fittedOrGuess (fajrLoss (fajrSubset observations)) (fajrSubset observations)
    (orDefault (opt_fajrMin options) (Fin 10)) (orDefault (opt_fajrMax options) (Fin 22))
    (orDefault (opt_tol options) (Fin 1e-5)) (orDefault (opt_maxIter options) (Fin 200))
    (orDefault (opt_fajrAngle0 options) (Fin 15)) fuel.

Definition ishaFit (fuel : nat) (observations : list Observation)
    (options : CalibrationOptions) : option num :=
  fittedOrGuess (ishaLoss (ishaSubset observations)) (ishaSubset observations)
    (orDefault (opt_ishaMin options) (Fin 10)) (orDefault (opt_ishaMax options) (Fin 22))
    (orDefault (opt_tol options) (Fin 1e-5)) (orDefault (opt_maxIter options) (Fin 200))
    (orDefault (opt_ishaAngle0 options) (Fin 15)) fuel.

(** The result [calibrateAngles] builds once both angles are known. *)
Definition resultAt (observations : list Observation) (fa ia : num)
  : CalibrationResult :=
  let '(residuals, (totalWeightedSS, totalWeight)) :=
    mapAccum (residualStep fa ia) observations (Fin 0, Fin 0) in
  mkCalibrationResult (mkAngles fa ia)
    (if gtb totalWeight (Fin 0)
     then Math.sqrt (div totalWeightedSS totalWeight) else Fin 0)
    (div (add (Fin (INR (length (fajrSubset observations))))
              (Fin (INR (length (ishaSubset observations))))) (Fin 2))
    residuals.

(** A budget the loop counter reaches: [maxIter] is not [Infinity], and not
    above 2^53, where the counter stops growing. *)
Definition finiteBudget (maxIter : num) : Prop :=
  match maxIter with
  | Fin m => m <= 9007199254740992
  | PInf => False
  | NInf | NaN => True
  end.

(** The aggregates of a calibration: angles, RMS and observation count. *)
Definition calibrationAggregates (r : outcome CalibrationResult)
  : option (CalibratedAngles * num * num) :=
  match r with
  | Returns v => Some (angles v, rmsMinutes v, observationCount v)
  | Throws _ => None
  end.

(** Both angles lie within their configured intervals. *)
Definition withinBounds (options : CalibrationOptions) (a : CalibratedAngles) : Prop :=
  leb (orDefault (opt_fajrMin options) (Fin 10)) (fajrAngle a) = true
  /\ leb (fajrAngle a) (orDefault (opt_fajrMax options) (Fin 22)) = true
  /\ leb (orDefault (opt_ishaMin options) (Fin 10)) (ishaAngle a) = true
  /\ leb (ishaAngle a) (orDefault (opt_ishaMax options) (Fin 22)) = true.

(* ------------------------------------------------------------------ *)
(** ** Residuals and aggregates *)

(** The residual of one prayer: [(predicted - observed) * 60] when the
    observed time is present and the prediction finite, [null] otherwise. *)
Definition prayerResidual (predicted : num) (observed : option num) : option num :=
  match observed with
  | Some t => if isFinite predicted then Some (mul (sub predicted t) (Fin 60)) else None
  | None => None
  end.

(** The residual entry of one observation at a given angle pair. *)
Definition residualOf (fajrAngle ishaAngle : num) (o : Observation) : Residual :=
  mkResidual
    (prayerResidual (predictFajr (date o) (lat o) (lng o) (tz o) fajrAngle) (fajr o))
    (prayerResidual (predictIsha (date o) (lat o) (lng o) (tz o) ishaAngle) (isha o)).

(** An observation that constrains neither angle. *)
Definition unconstrained (o : Observation) : Prop :=
  fajr o = None /\ isha o = None.

(** The aggregates of [scoreAngles]: everything but the residual list. *)
Definition scoreAggregates (s : ScoreResult) : num * num * num :=
  (score_rmsMinutes s, score_fajrBiasMinutes s, score_ishaBiasMinutes s).

(** The accumulators of [scoreAngles] after its pass over the input. *)
Definition scoreAccOf (observations : list Observation) (fa ia : num) : ScoreAcc :=
  snd (mapAccum (scoreStep fa ia) observations scoreAcc0).

(* ------------------------------------------------------------------ *)
(** ** The horizon crossing in the specification's words *)

Local Open Scope num_scope.

(** [cos(H) = (sin(alt) - sin(lat) sin(decl)) / (cos(lat) cos(decl))]. *)
Definition cosHourAngle (jd lat altDeg : num) : num :=
  let decl := declRad (solar jd) in
  (Math.sin (altDeg * Math.PI / 180) - Math.sin (lat * Math.PI / 180) * Math.sin decl)
  / (Math.cos (lat * Math.PI / 180) * Math.cos decl).

(** [noon = 12 - eqtHours - lng/15 + tz]. *)
Definition solarNoon (jd lng tz : num) : num :=
  12 - eqtHours (solar jd) - lng / 15 + tz.

(** [c] lies in [-1, 1]; an infinity or [NaN] does not. *)
Definition inUnitRange (c : num) : bool := leb (Fin (-1)) c && leb c 1.

(** The horizon crossing as the specification words it: the sentinel when
    [cos(H)] is outside [-1, 1], and otherwise [noon - H/15] and
    [noon + H/15], with [H] the hour angle in degrees. *)
Definition horizonCrossing_spec (jd lat lng tz altDeg : num) : num * num :=
  let cosH := cosHourAngle jd lat altDeg in
  if inUnitRange cosH then
    let H := Math.acos cosH * 180 / Math.PI in
    let noon := solarNoon jd lng tz in
    (noon - H / 15, noon + H / 15)
  else (NaN, NaN).

Local Close Scope num_scope.

(* ------------------------------------------------------------------ *)
(** ** The ephemeris on a finite Julian day, in real numbers *)

(** The intermediate values of [solar] as real functions of the Julian
    century [T]. *)
Definition centuryR (j : R) : R := (j - 2451545.0) / 36525.0.

Definition L0R (T : R) : R :=
  let x := 280.46646 + T * (36000.76983 + T * 0.0003032) in
  x - 360 * Rtrunc (x / 360).

Definition MR (T : R) : R :=
  let x := 357.52911 + T * (35999.05029 - T * 0.0001537) in
  x - 360 * Rtrunc (x / 360).

Definition MradR (T : R) : R := MR T * PI / 180.

Definition CR (T : R) : R :=
  sin (MradR T) * (1.914602 - T * (0.004817 + 0.000014 * T))
  + sin (2 * MradR T) * (0.019993 - 0.000101 * T)
  + sin (3 * MradR T) * 0.000289.

Definition omegaR (T : R) : R := 125.04 - 1934.136 * T.

Definition lambdaR (T : R) : R :=
  L0R T + CR T - 0.00569 - 0.00478 * sin (omegaR T * PI / 180).

Definition epsR (T : R) : R :=
  23 + 26 / 60 + 21.448 / 3600
  - T * (46.8150 / 3600 + T * (0.00059 / 3600 - T * 0.001813 / 3600))
  + 0.00256 * cos (omegaR T * PI / 180).

Definition epsRadR (T : R) : R := epsR T * PI / 180.

Definition lambdaRadR (T : R) : R := lambdaR T * PI / 180.

Definition declR (T : R) : R := asin (sin (epsRadR T) * sin (lambdaRadR T)).

Definition eqtHoursR (T : R) : R :=
  let y := tan (epsRadR T / 2) * tan (epsRadR T / 2) in
  let L0rad := L0R T * PI / 180 in
  4 / PI * (
      y * sin (2 * L0rad)
      - 2 * sin (MradR T)
      + 4 * sin (MradR T) * y * cos (2 * L0rad)
      - 0.5 * y * y * sin (4 * L0rad)
      - 1.25 * sin (2 * MradR T)
    ) * (180 / PI) / 60.

(** The real value of [cos(H)]. *)
Definition cosHR (T latR altR : R) : R :=
  (sin (altR * PI / 180) - sin (latR * PI / 180) * sin (declR T))
  / (cos (latR * PI / 180) * cos (declR T)).

(** The real value of solar noon. *)
Definition noonR (T lngR tzR : R) : R := 12 - eqtHoursR T - lngR / 15 + tzR.

(** The hour angle in hours: [H / 15]. *)
Definition hourAngleHours (c : R) : R := acos c * 180 / PI / 15.

(** A finite rise time comes with a finite set time, from finite inputs with
    [cos(H)] in [-1, 1]; the declination then lies in [-PI/2, PI/2]. *)
Record Crossing (jd lat lng tz altDeg : num) (latR altR d n c : R) : Prop := {
  crossing_lat : lat = Fin latR;
  crossing_alt : altDeg = Fin altR;
  crossing_decl : declRad (solar jd) = Fin d;
  crossing_decl_range : - (PI / 2) <= d <= PI / 2;
  crossing_den : cos (latR * PI / 180) * cos d <> 0;
  crossing_cosH :
    c = (sin (altR * PI / 180) - sin (latR * PI / 180) * sin d)
        / (cos (latR * PI / 180) * cos d);
  crossing_range : -1 <= c <= 1;
  crossing_noon : solarNoon jd lng tz = Fin n;
  crossing_value :
    horizonCrossing jd lat lng tz altDeg
    = (Fin (n - acos c * 180 / PI / 15), Fin (n + acos c * 180 / PI / 15))
}.

(** A number that is finite or [NaN]: not an infinity. *)
Definition finiteOrNaN (x : num) : bool := isFinite x || isNaN x.

(* ------------------------------------------------------------------ *)
(** ** The golden-section bracket and the shape of the loss *)

(** The ratio [phi] of the solver, as a real. *)
Definition phiR : R := (sqrt 5 - 1) / 2.

(** The two interior points sit at the golden positions of the bracket. *)
Definition golden_pos (a b x1 x2 : R) : Prop :=
  a <= b /\ x1 = b - phiR * (b - a) /\ x2 = a + phiR * (b - a).

(** [f] is strictly decreasing up to [theta] and strictly increasing from
    it, on the interval [lo, hi], for the comparison of the code. *)
Definition unimodalAt (f : num -> num) (lo hi theta : R) : Prop :=
  (forall x y, lo <= x -> x < y -> y <= theta -> ltb (f (Fin y)) (f (Fin x)) = true)
  /\ (forall x y, theta <= x -> x < y -> y <= hi -> ltb (f (Fin x)) (f (Fin y)) = true).

(** The loss of one prayer, [fajrLoss] and [ishaLoss] being its two
    instances. *)
Definition lossOf (predict : Date -> num -> num -> num -> num -> num)
    (observed : Observation -> option num)
    (subset : list Observation) (angle : num) : num :=
  fold_left (fun wss o =>
    let pred := predict (date o) (lat o) (lng o) (tz o) angle in
    if negb (isFinite pred) then wss
    else
      let w := orDefault (weight o) (Fin 1) in
      let diff := mul (sub pred (unwrap (observed o))) (Fin 60) in
      add wss (mul (mul w diff) diff)) subset (Fin 0).

(** The real value of a finite number. *)
Definition toR (x : num) : R := match x with Fin r => r | _ => 0 end.

(** The prediction for [o] at the angle [a], as a real. *)
Definition predR (predict : Date -> num -> num -> num -> num -> num)
    (o : Observation) (a : R) : R :=
  toR (predict (date o) (lat o) (lng o) (tz o) (Fin a)).

(** The term of [o] in the loss at the angle [a], for data generated at
    [theta]. *)
Definition lossTerm (predict : Date -> num -> num -> num -> num -> num)
    (theta : R) (o : Observation) (a : R) : R :=
  toR (orDefault (weight o) (Fin 1))
  * ((predR predict o a - predR predict o theta) * 60)
  * ((predR predict o a - predR predict o theta) * 60).

(** An observation generated by the predictor at the angle [theta], away
    from the poles, with a positive weight, and whose crossing exists at
    every angle of [lo, hi]. *)
Definition generatedAt (predict : Date -> num -> num -> num -> num -> num)
    (observed : Observation -> option num) (lo hi theta : R) (o : Observation) : Prop :=
  (exists latR, lat o = Fin latR /\ -90 < latR < 90)
  /\ observed o = Some (predict (date o) (lat o) (lng o) (tz o) (Fin theta))
  /\ (forall a, lo <= a <= hi ->
        isFinite (predict (date o) (lat o) (lng o) (tz o) (Fin a)) = true)
  /\ (exists w, orDefault (weight o) (Fin 1) = Fin w /\ 0 < w).




(* ------------------------------------------------------------------ *)
(** ** Example inputs *)

(** Three observations that yield no residual: one without optional times,
    and two made on an invalid date, whose predictions are [NaN]. *)
Definition noResidualObs : list Observation :=
  [ mkObservation (MkDate 2024 5 21) (Fin 21.4225) (Fin 39.8262) (Fin 3) None None None;
    mkObservation InvalidDate (Fin 21.4225) (Fin 39.8262) (Fin 3)
      (Some (Fin 4.5)) (Some (Fin 20.5)) None;
    mkObservation InvalidDate (Fin 0) (Fin 0) (Fin 0) (Some (Fin 5)) None (Some (Fin 2)) ].

(** New York, UTC-4 (the location of the test suite). *)
Definition nyObservation (d : Date) (fajr isha weight : option num) : Observation :=
  mkObservation d (Fin 40.7128) (Fin (-74.006)) (Fin (-4)) fajr isha weight.

(** Four dawn-only observations and one dual observation. *)
Definition dawnHeavyObs : list Observation :=
  [ nyObservation (MkDate 2024 0 15) (Some (Fin 5.9)) None None;
    nyObservation (MkDate 2024 3 15) (Some (Fin 4.9)) None None;
    nyObservation (MkDate 2024 6 15) (Some (Fin 3.9)) None None;
    nyObservation (MkDate 2024 9 15) (Some (Fin 5.7)) None None;
    nyObservation (MkDate 2024 11 15) (Some (Fin 5.8)) (Some (Fin 17.9)) None ].

(** Two dusk-only observations. *)
Definition duskOnlyObs : list Observation :=
  [ nyObservation (MkDate 2024 0 15) None (Some (Fin 18.2)) None;
    nyObservation (MkDate 2024 6 15) None (Some (Fin 22.1)) None ].

(** Default options but for an initial dawn guess of 30 degrees. *)
Definition guess30 : CalibrationOptions :=
  mkOptions (Some (Fin 30)) None None None None None None None.





(* ------------------------------------------------------------------ *)
(** ** The Gregorian calendar *)

(** The Gregorian calendar: leap years, the length of month [m0] (from 0)
    and the day after a date. *)
Definition isLeapYear (y : Z) : bool :=
  ((y mod 4 =? 0) && negb (y mod 100 =? 0) || (y mod 400 =? 0))%Z.

Definition daysInMonth (y m0 : Z) : Z :=
  if (m0 =? 1)%Z then (if isLeapYear y then 29 else 28)%Z
  else if ((m0 =? 3) || (m0 =? 5) || (m0 =? 8) || (m0 =? 10))%Z then 30%Z
  else 31%Z.

Definition validDate (d : Date) : Prop :=
  match d with
  | InvalidDate => False
  | MkDate y m0 dd => (0 <= m0 <= 11 /\ 1 <= dd <= daysInMonth y m0)%Z
  end.

Definition nextDay (d : Date) : Date :=
  match d with
  | InvalidDate => InvalidDate
  | MkDate y m0 dd =>
      if (dd <? daysInMonth y m0)%Z then MkDate y m0 (dd + 1)
      else if (m0 <? 11)%Z then MkDate y (m0 + 1) 1
      else MkDate (y + 1) 0 1
  end.

(* ------------------------------------------------------------------ *)
(** ** Synthetic observations of the temperate zone *)

(** An observation of the years 1900 to 2099, at most 41 degrees from the
    equator, with a longitude of at most 180 degrees, a UTC offset of at
    most 24 hours and a weight between 1e-100 and 1e100. *)
Definition temperate (o : Observation) : Prop :=
  exists (y m0 dd : Z) (latR lngR tzR w : R),
    date o = MkDate y m0 dd
    /\ (1900 <= y <= 2099)%Z /\ (0 <= m0 <= 11)%Z /\ (1 <= dd <= 31)%Z
    /\ lat o = Fin latR /\ Rabs latR <= 41
    /\ lng o = Fin lngR /\ Rabs lngR <= 180
    /\ tz o = Fin tzR /\ Rabs tzR <= 24
    /\ orDefault (weight o) (Fin 1) = Fin w /\ 1e-100 <= w <= 1e100.

(** A temperate observation whose time for one prayer is the predictor's
    own at the angle [theta]. *)
Definition generatedTemperate (predict : Date -> num -> num -> num -> num -> num)
    (observed : Observation -> option num) (theta : R) (o : Observation) : Prop :=
  temperate o
  /\ observed o = Some (predict (date o) (lat o) (lng o) (tz o) (Fin theta)).

(** Settings of one fit under which the search resolves the angle: an
    interval [lo, hi] within [0, 22], a tolerance [t] of at least 1e-9 and a
    budget of at least 60 passes. *)
Definition fitSettings (min max tol maxIter : num) (lo hi t : R) : Prop :=
  min = Fin lo /\ max = Fin hi /\ tol = Fin t
  /\ 0 <= lo /\ lo <= hi /\ hi <= 22 /\ 1e-9 <= t
  /\ leb (Fin 60) maxIter = true.

Definition dawnSettings (options : CalibrationOptions) (lo hi t : R) : Prop :=
  fitSettings (orDefault (opt_fajrMin options) (Fin 10))
              (orDefault (opt_fajrMax options) (Fin 22))
              (orDefault (opt_tol options) (Fin 1e-5))
              (orDefault (opt_maxIter options) (Fin 200)) lo hi t.

Definition duskSettings (options : CalibrationOptions) (lo hi t : R) : Prop :=
  fitSettings (orDefault (opt_ishaMin options) (Fin 10))
              (orDefault (opt_ishaMax options) (Fin 22))
              (orDefault (opt_tol options) (Fin 1e-5))
              (orDefault (opt_maxIter options) (Fin 200)) lo hi t.

(** The four dual observations of New York (15 January, April, July and
    October 2024), generated at the angle [theta]. *)
Definition nySynthetic (theta : R) : list Observation :=
  map (fun d => nyObservation d
                  (Some (predictFajr d (Fin 40.7128) (Fin (-74.006)) (Fin (-4)) (Fin theta)))
                  (Some (predictIsha d (Fin 40.7128) (Fin (-74.006)) (Fin (-4)) (Fin theta)))
                  None)
      [MkDate 2024 0 15; MkDate 2024 3 15; MkDate 2024 6 15; MkDate 2024 9 15].

(** Options that ask for a search without end:
    [{ maxIter: Infinity, tol: -1 }]. *)
Definition endlessOptions : CalibrationOptions :=
  mkOptions None None None None None None (Some PInf) (Some (Fin (-1))).

(** Four dawn-only observations of New York and one dual observation, the
    dawn times generated at the angle [theta]. *)
Definition dawnHeavySynthetic (theta : R) : list Observation :=
  map (fun d => nyObservation d
                  (Some (predictFajr d (Fin 40.7128) (Fin (-74.006)) (Fin (-4)) (Fin theta)))
                  None None)
      [MkDate 2024 0 15; MkDate 2024 3 15; MkDate 2024 6 15; MkDate 2024 9 15]
  ++ [ nyObservation (MkDate 2024 11 15)
         (Some (predictFajr (MkDate 2024 11 15) (Fin 40.7128) (Fin (-74.006)) (Fin (-4))
                  (Fin theta)))
         (Some (Fin 17.9)) None ].

(* ------------------------------------------------------------------ *)
(** ** A solver that does not iterate *)

(** The loop of the solver does not run: the interval [lo, hi] is no wider
    than the tolerance, the tolerance is [NaN], or the budget is 0. *)
Definition noIteration (tol maxIter : num) (lo hi : R) : Prop :=
  (exists t, tol = Fin t /\ hi - lo <= t) \/ tol = NaN \/ maxIter = Fin 0.

(** Options with the dawn interval inverted: min 20, max 12. *)
Definition invertedDawn : CalibrationOptions :=
  mkOptions None None (Some (Fin 20)) (Some (Fin 12)) None None None None.

(* ------------------------------------------------------------------ *)
(** ** The data of one fit *)

(** Two observations carry the same data for the fit of one prayer: all
    their fields but the observed time of the other prayer. *)
Definition sameFitData (observed : Observation -> option num)
    (o o' : Observation) : Prop :=
  date o = date o' /\ lat o = lat o' /\ lng o = lng o' /\ tz o = tz o'
  /\ observed o = observed o' /\ weight o = weight o'.

(** Two option records with the same settings for the dawn fit, and for
    the dusk fit. *)
Definition sameDawnOptions (p p' : CalibrationOptions) : Prop :=
  opt_fajrAngle0 p = opt_fajrAngle0 p' /\ opt_fajrMin p = opt_fajrMin p'
  /\ opt_fajrMax p = opt_fajrMax p' /\ opt_maxIter p = opt_maxIter p'
  /\ opt_tol p = opt_tol p'.

Definition sameDuskOptions (p p' : CalibrationOptions) : Prop :=
  opt_ishaAngle0 p = opt_ishaAngle0 p' /\ opt_ishaMin p = opt_ishaMin p'
  /\ opt_ishaMax p = opt_ishaMax p' /\ opt_maxIter p = opt_maxIter p'
  /\ opt_tol p = opt_tol p'.

(** The observation without its dusk time. *)
Definition dawnOnly (o : Observation) : Observation :=
  mkObservation (date o) (lat o) (lng o) (tz o) (fajr o) None (weight o).

(** Options that narrow the dusk interval to [12, 13]. *)
Definition narrowDusk : CalibrationOptions :=
  mkOptions None None None None (Some (Fin 12)) (Some (Fin 13)) None None.

(* ------------------------------------------------------------------ *)
(** ** The accumulators of the scorer *)

(** The two accumulators [scoreAngles] shares with [calibrateAngles]. *)
Definition sumsOf (s : ScoreAcc) : num * num :=
  (sa_totalWeightedSS s, sa_totalWeight s).

(* ------------------------------------------------------------------ *)
(** ** Bounded residuals and aggregates *)

(** A residual that is absent, or finite and at most [eps] in magnitude. *)
Definition residualBounded (eps : R) (x : option num) : Prop :=
  match x with
  | None => True
  | Some (Fin m) => Rabs m <= eps
  | Some _ => False
  end.

(** An observation whose weight lies between 1e-100 and 1e100. *)
Definition ordinaryWeight (o : Observation) : Prop :=
  exists w, orDefault (weight o) (Fin 1) = Fin w /\ 1e-100 <= w <= 1e100.

(** An observation with a positive weight whose residuals at the angles
    [fa] and [ia] are bounded by [eps]. *)
Definition scoredWithin (eps : R) (fa ia : num) (o : Observation) : Prop :=
  (exists w, orDefault (weight o) (Fin 1) = Fin w /\ 0 < w)
  /\ residualBounded eps (fajrMin (residualOf fa ia o))
  /\ residualBounded eps (ishaMin (residualOf fa ia o)).

(** An observation with a positive weight whose observed times, where
    present, are the predictor's own at the angles [fa] and [ia]. *)
Definition generatedBy (fa ia : num) (o : Observation) : Prop :=
  (exists w, orDefault (weight o) (Fin 1) = Fin w /\ 0 < w)
  /\ (fajr o = None
      \/ fajr o = Some (predictFajr (date o) (lat o) (lng o) (tz o) fa))
  /\ (isha o = None
      \/ isha o = Some (predictIsha (date o) (lat o) (lng o) (tz o) ia)).

(** An observation at the equator announced one minute after the
    predictions at 15 degrees, and two of them. *)
Definition oneMinuteLate (d : Date) : Observation :=
  mkObservation d (Fin 0) (Fin 0) (Fin 0)
    (Some (Fin (toR (predictFajr d (Fin 0) (Fin 0) (Fin 0) (Fin 15)) + 1 / 60)))
    (Some (Fin (toR (predictIsha d (Fin 0) (Fin 0) (Fin 0) (Fin 15)) + 1 / 60)))
    None.

Definition equatorLate : list Observation :=
  [ oneMinuteLate (MkDate 2000 0 1); oneMinuteLate (MkDate 2000 0 2) ].

(** The accumulators of [scoreAngles] are finite, the weights are not
    negative, and the sums are bounded through [eps] by the weights. *)
Definition accWithin (eps : R) (s : ScoreAcc) : Prop :=
  exists SS W FB FW IB IW : R,
    s = mkScoreAcc (Fin SS) (Fin W) (Fin FB) (Fin FW) (Fin IB) (Fin IW)
    /\ 0 <= W /\ 0 <= SS <= eps * eps * W
    /\ 0 <= FW /\ Rabs FB <= eps * FW
    /\ 0 <= IW /\ Rabs IB <= eps * IW.

(* ------------------------------------------------------------------ *)
(** ** Two losses for the solver *)

(** A loss with its minimum at 3: [(x - 3)^2]; and the same loss made
    [NaN] outside [0, 10]. *)
Definition parabola (x : num) : num := mul (sub x (Fin 3)) (sub x (Fin 3)).

Definition parabolaInside (x : num) : num :=
  if leb (Fin 0) x && leb x (Fin 10) then parabola x else NaN.

(* ------------------------------------------------------------------ *)
(** ** Ordinary calls of the predictor *)

(** A call on an ordinary day and place: a date of the years 1900 to 2099,
    a longitude of at most 180 degrees and a UTC offset of at most 24 hours
    in magnitude. *)
Definition ordinaryInput (date : Date) (lng tz : num) : Prop :=
  (exists y m0 dd : Z,
      date = MkDate y m0 dd
      /\ (1900 <= y <= 2099)%Z /\ (0 <= m0 <= 11)%Z /\ (1 <= dd <= 31)%Z)
  /\ (exists l : R, lng = Fin l /\ Rabs l <= 180)
  /\ (exists t : R, tz = Fin t /\ Rabs t <= 24).

(* ------------------------------------------------------------------ *)
(** ** The predictor on IEEE doubles *)

(** [solar.ts] and [predict.ts] once more, on the numbers of the program
    itself: binary64 floating-point numbers with the operators [+], [-],
    [*] and [/] of the processor.  The functions of [Math], the power
    [x ** 2] and the remainder [%] are those of the engine that runs the
    program and are left open.  The integer arithmetic of [jdn] is exact. *)
Module Double.
Local Open Scope float_scope.
Local Set Warnings "-inexact-float".

Record Engine : Type := mkEngine {
  sin : float -> float;
  cos : float -> float;
  tan : float -> float;
  asin : float -> float;
  acos : float -> float;
  pow : float -> float -> float;
  rem : float -> float -> float
}.

(** [Math.PI], the double 3.141592653589793. *)
Definition PI : float := 0x1.921fb54442d18p+1.

(** An integer as a double. *)
Definition ofZ (z : Z) : float :=
  match z with
  | Z0 => 0
  | Zpos _ => PrimFloat.of_uint63 (Uint63.of_Z z)
  | Zneg p => - PrimFloat.of_uint63 (Uint63.of_Z (Zpos p))
  end.

Definition jdn (date : Date) : float :=
  match date with
  | InvalidDate => nan
  | MkDate y m0 d => ofZ (jdnZ y (m0 + 1) d)
  end.

Section Predictor.
Variable M : Engine.

Definition solar (jd : float) : float * float :=
  let T := (jd - 2451545.0) / 36525.0 in
  let L0 := rem M (280.46646 + T * (36000.76983 + T * 0.0003032)) 360 in
  let M0 := rem M (357.52911 + T * (35999.05029 - T * 0.0001537)) 360 in
  let Mrad := (M0 * PI) / 180 in
  let C := sin M Mrad * (1.914602 - T * (0.004817 + 0.000014 * T))
           + sin M (2 * Mrad) * (0.019993 - 0.000101 * T)
           + sin M (3 * Mrad) * 0.000289 in
  let sunLon := L0 + C in
  let omega := 125.04 - 1934.136 * T in
  let lambda := sunLon - 0.00569 - 0.00478 * sin M ((omega * PI) / 180) in
  let eps0 := 23 + 26 / 60 + 21.448 / 3600
              - T * (46.8150 / 3600 + T * (0.00059 / 3600 - T * 0.001813 / 3600)) in
  let eps := eps0 + 0.00256 * cos M ((omega * PI) / 180) in
  let epsRad := (eps * PI) / 180 in
  let lambdaRad := (lambda * PI) / 180 in
  let declRad := asin M (sin M epsRad * sin M lambdaRad) in
  let y := pow M (tan M (epsRad / 2)) 2 in
  let L0rad := (L0 * PI) / 180 in
  let eqtMin := (4 / PI) * (
      y * sin M (2 * L0rad)
      - 2 * sin M Mrad
      + 4 * sin M Mrad * y * cos M (2 * L0rad)
      - 0.5 * y * y * sin M (4 * L0rad)
      - 1.25 * sin M (2 * Mrad)
    ) * (180 / PI) in
  let eqtHours := eqtMin / 60 in
  (declRad, eqtHours).

Definition horizonCrossing (jd lat lng tz altDeg : float) : float * float :=
  let '(declRad, eqtHours) := solar jd in
  let latRad := (lat * PI) / 180 in
  let altRad := (altDeg * PI) / 180 in
  let cosH := (sin M altRad - sin M latRad * sin M declRad)
              / (cos M latRad * cos M declRad) in
  if (cosH <? -1) || (1 <? cosH) then (nan, nan)
  else
    let H := (acos M cosH * 180) / PI in
    let noon := 12 - eqtHours - lng / 15 + tz in
    let rise := noon - H / 15 in
    let set := noon + H / 15 in
    (rise, set).

Definition predictFajr (date : Date) (lat lng tz fajrAngle : float) : float :=
  let jd := jdn (utcNoon date) in
  let altDeg := - fajrAngle in
  fst (horizonCrossing jd lat lng tz altDeg).

Definition predictIsha (date : Date) (lat lng tz ishaAngle : float) : float :=
  let jd := jdn (utcNoon date) in
  let altDeg := - ishaAngle in
  snd (horizonCrossing jd lat lng tz altDeg).
End Predictor.

(** Two neighbouring doubles: 15 plus one and plus two units in the last
    place. *)
Definition angleBelow : float := 15.000000000000002.
Definition angleAbove : float := 15.000000000000004.

(** New York on 15 June 2024. *)
Definition newYorkLat : float := 40.7128.
Definition newYorkLng : float := -74.006.
Definition newYorkTz : float := -4.
End Double.

(* ------------------------------------------------------------------ *)
(** ** Facts about the number model *)

Section NumFacts.

Lemma Rltb_true (x y : R) : Rltb x y = true <-> x < y.
Proof. unfold Rltb; destruct (Rlt_dec x y); split; intros; try easy. Qed.

Lemma Rltb_false (x y : R) : Rltb x y = false <-> y <= x.
Proof.
  unfold Rltb; destruct (Rlt_dec x y); split; intros; try easy; lra.
Qed.

Lemma Rleb_true (x y : R) : Rleb x y = true <-> x <= y.
Proof. unfold Rleb; destruct (Rle_dec x y); split; intros; try easy. Qed.

Lemma Rleb_false (x y : R) : Rleb x y = false <-> y < x.
Proof.
  unfold Rleb; destruct (Rle_dec x y); split; intros; try easy; lra.
Qed.

Lemma Reqb_true (x y : R) : Reqb x y = true <-> x = y.
Proof. unfold Reqb; destruct (Req_dec_T x y); split; intros; try easy. Qed.

Lemma Reqb_false (x y : R) : Reqb x y = false <-> x <> y.
Proof. unfold Reqb; destruct (Req_dec_T x y); split; intros; try easy. Qed.

Lemma Rltb_of_lt (x y : R) : x < y -> Rltb x y = true.
Proof. apply Rltb_true. Qed.

Lemma Rltb_of_ge (x y : R) : y <= x -> Rltb x y = false.
Proof. apply Rltb_false. Qed.

Lemma Rleb_of_le (x y : R) : x <= y -> Rleb x y = true.
Proof. apply Rleb_true. Qed.

Lemma Reqb_of_neq (x y : R) : x <> y -> Reqb x y = false.
Proof. apply Reqb_false. Qed.

Lemma div_fin (a b : R) : b <> 0 -> div (Fin a) (Fin b) = Fin (a / b).
Proof. intros H; simpl; now rewrite Reqb_of_neq. Qed.

Lemma ltb_fin (a b : R) : ltb (Fin a) (Fin b) = Rltb a b.
Proof. reflexivity. Qed.

Lemma isFinite_true (x : num) : isFinite x = true <-> exists r, x = Fin r.
Proof.
  destruct x; simpl; split; intros H; try easy; eauto; now destruct H.
Qed.

Lemma signed_inf_not_fin (a r : R) : signed_inf a <> Fin r.
Proof. unfold signed_inf; destruct (Rltb 0 a), (Rltb a 0); discriminate. Qed.

(** The operators give a finite result on finite operands only (for [div],
    a non-zero or infinite divisor). *)
Lemma add_fin_inv (x y : num) (r : R) :
  add x y = Fin r -> exists a b, x = Fin a /\ y = Fin b /\ r = a + b.
Proof.
  destruct x, y; simpl; intros H; try discriminate.
  injection H as <-; eauto.
Qed.

Lemma neg_fin_inv (x : num) (r : R) :
  neg x = Fin r -> exists a, x = Fin a /\ r = - a.
Proof. destruct x; simpl; intros H; try discriminate. injection H as <-; eauto. Qed.

Lemma sub_fin_inv (x y : num) (r : R) :
  sub x y = Fin r -> exists a b, x = Fin a /\ y = Fin b /\ r = a - b.
Proof.
  unfold sub; intros H.
  apply add_fin_inv in H as (a & b' & -> & Hn & ->).
  apply neg_fin_inv in Hn as (b & -> & ->).
  exists a, b; repeat split; lra.
Qed.

Lemma mul_fin_inv (x y : num) (r : R) :
  mul x y = Fin r -> exists a b, x = Fin a /\ y = Fin b /\ r = a * b.
Proof.
  destruct x as [a| | |], y as [b| | |]; simpl; intros H; try discriminate;
    try (now apply signed_inf_not_fin in H).
  injection H as <-; eauto.
Qed.

Lemma div_fin_inv (x y : num) (r : R) :
  div x y = Fin r ->
  exists a, x = Fin a
    /\ ((exists b, y = Fin b /\ b <> 0 /\ r = a / b)
        \/ ((y = PInf \/ y = NInf) /\ r = 0)).
Proof.
  destruct x as [a| | |], y as [b| | |]; simpl; intros H; try discriminate;
    try (destruct (Rltb b 0); discriminate).
  - destruct (Reqb b 0) eqn:E.
    + now apply signed_inf_not_fin in H.
    + apply Reqb_false in E. injection H as <-.
      exists a; split; [reflexivity|]. left; eauto.
  - injection H as <-. exists a; split; [reflexivity|]. right; auto.
  - injection H as <-. exists a; split; [reflexivity|]. right; auto.
Qed.

(** Division by a finite number. *)
Lemma div_fin_inv_l (x : num) (b r : R) :
  div x (Fin b) = Fin r -> exists a, x = Fin a /\ b <> 0 /\ r = a / b.
Proof.
  intros H. apply div_fin_inv in H as (a & -> & [(b' & Hb & Hne & ->)|([Hb|Hb] & _)]);
    try discriminate.
  injection Hb as <-. eauto.
Qed.

Lemma lift_fin_inv (f : R -> R) (x : num) (r : R) :
  lift f x = Fin r -> exists a, x = Fin a /\ r = f a.
Proof. destruct x; simpl; intros H; try discriminate. injection H as <-; eauto. Qed.

Lemma asin_fin_inv (x : num) (r : R) :
  Math.asin x = Fin r -> exists c, x = Fin c /\ -1 <= c <= 1 /\ r = asin c.
Proof.
  destruct x as [c| | |]; simpl; intros H; try discriminate.
  destruct (Rleb (-1) c) eqn:E1; [|discriminate].
  destruct (Rleb c 1) eqn:E2; [|discriminate].
  apply Rleb_true in E1, E2. injection H as <-. eauto.
Qed.

Lemma acos_fin_inv (x : num) (r : R) :
  Math.acos x = Fin r -> exists c, x = Fin c /\ -1 <= c <= 1 /\ r = acos c.
Proof.
  destruct x as [c| | |]; simpl; intros H; try discriminate.
  destruct (Rleb (-1) c) eqn:E1; [|discriminate].
  destruct (Rleb c 1) eqn:E2; [|discriminate].
  apply Rleb_true in E1, E2. injection H as <-. eauto.
Qed.

Lemma acos_fin (c : R) : -1 <= c <= 1 -> Math.acos (Fin c) = Fin (acos c).
Proof. intros [H1 H2]; simpl. now rewrite !Rleb_of_le. Qed.

Lemma asin_fin (c : R) : -1 <= c <= 1 -> Math.asin (Fin c) = Fin (asin c).
Proof. intros [H1 H2]; simpl. now rewrite !Rleb_of_le. Qed.

Lemma rem_fin (a b : R) :
  b <> 0 -> rem (Fin a) (Fin b) = Fin (a - b * Rtrunc (a / b)).
Proof. intros H; simpl; now rewrite Reqb_of_neq. Qed.

(** [NaN] absorbs every operator. *)
Lemma add_nan_l (x : num) : add NaN x = NaN.
Proof. reflexivity. Qed.
Lemma add_nan_r (x : num) : add x NaN = NaN.
Proof. now destruct x. Qed.
Lemma neg_nan : neg NaN = NaN.
Proof. reflexivity. Qed.
Lemma sub_nan_l (x : num) : sub NaN x = NaN.
Proof. reflexivity. Qed.
Lemma sub_nan_r (x : num) : sub x NaN = NaN.
Proof. now destruct x. Qed.
Lemma mul_nan_l (x : num) : mul NaN x = NaN.
Proof. reflexivity. Qed.
Lemma mul_nan_r (x : num) : mul x NaN = NaN.
Proof. now destruct x. Qed.
Lemma div_nan_l (x : num) : div NaN x = NaN.
Proof. reflexivity. Qed.
Lemma div_nan_r (x : num) : div x NaN = NaN.
Proof. now destruct x. Qed.
Lemma rem_nan_l (x : num) : rem NaN x = NaN.
Proof. reflexivity. Qed.
Lemma rem_nan_r (x : num) : rem x NaN = NaN.
Proof. now destruct x. Qed.
Lemma ltb_nan_l (x : num) : ltb NaN x = false.
Proof. reflexivity. Qed.
Lemma ltb_nan_r (x : num) : ltb x NaN = false.
Proof. now destruct x. Qed.
Lemma gtb_nan_l (x : num) : gtb NaN x = false.
Proof. now destruct x. Qed.
Lemma gtb_nan_r (x : num) : gtb x NaN = false.
Proof. reflexivity. Qed.
Lemma sin_nan : Math.sin NaN = NaN.
Proof. reflexivity. Qed.
Lemma cos_nan : Math.cos NaN = NaN.
Proof. reflexivity. Qed.
Lemma tan_nan : Math.tan NaN = NaN.
Proof. reflexivity. Qed.
Lemma asin_nan : Math.asin NaN = NaN.
Proof. reflexivity. Qed.
Lemma acos_nan : Math.acos NaN = NaN.
Proof. reflexivity. Qed.

End NumFacts.

Lemma inTimeRange_years (y m d : Z) :
  (-271820 <= y <= 275759)%Z -> inTimeRange y m d = true.
Proof.
  intros Hy. unfold inTimeRange, dayLeb.
  destruct (Z.ltb_spec (-271821) y); destruct (Z.ltb_spec y 275760);
    try lia; reflexivity.
Qed.

Create Rewrite HintDb num_nan.
#[export] Hint Rewrite add_nan_l add_nan_r neg_nan sub_nan_l sub_nan_r
  mul_nan_l mul_nan_r div_nan_l div_nan_r rem_nan_l rem_nan_r
  ltb_nan_l ltb_nan_r gtb_nan_l gtb_nan_r
  sin_nan cos_nan tan_nan asin_nan acos_nan : num_nan.

(* ------------------------------------------------------------------ *)
(** ** The ephemeris on a date that is not a number *)

Section NotANumber.

Lemma solar_nan : solar NaN = mkSolarData NaN NaN.
Proof. unfold solar. autorewrite with num_nan. reflexivity. Qed.

Lemma horizonCrossing_nan_jd (lat lng tz altDeg : num) :
  horizonCrossing NaN lat lng tz altDeg = (NaN, NaN).
Proof.
  unfold horizonCrossing. rewrite solar_nan.
  autorewrite with num_nan. cbn [orb]. autorewrite with num_nan. reflexivity.
Qed.

Lemma predictFajr_invalid_date (lat lng tz angle : num) :
  predictFajr InvalidDate lat lng tz angle = NaN.
Proof. unfold predictFajr. cbn [utcNoon jdn]. now rewrite horizonCrossing_nan_jd. Qed.

Lemma predictIsha_invalid_date (lat lng tz angle : num) :
  predictIsha InvalidDate lat lng tz angle = NaN.
Proof. unfold predictIsha. cbn [utcNoon jdn]. now rewrite horizonCrossing_nan_jd. Qed.

End NotANumber.

(* ------------------------------------------------------------------ *)
(** ** The golden-section bracket *)

Section Golden.

Lemma sqrt5_bounds : 2 < sqrt 5 < 3.
Proof.
  split.
  - replace 2 with (sqrt 4).
    + apply sqrt_lt_1; lra.
    + replace 4 with (2 * 2) by lra. apply sqrt_square; lra.
  - replace 3 with (sqrt 9).
    + apply sqrt_lt_1; lra.
    + replace 9 with (3 * 3) by lra. apply sqrt_square; lra.
Qed.

Lemma phiR_bounds : 1 / 2 < phiR < 1.
Proof. unfold phiR; pose proof sqrt5_bounds; lra. Qed.

Lemma phiR_golden : phiR * phiR = 1 - phiR.
Proof.
  unfold phiR.
  assert (H : sqrt 5 * sqrt 5 = 5) by (apply sqrt_sqrt; lra).
  nra.
Qed.

Lemma phi_fin : phi = Fin phiR.
Proof.
  unfold phi, phiR; simpl.
  rewrite Rltb_of_ge by lra. simpl.
  rewrite Reqb_of_neq by lra. reflexivity.
Qed.

Lemma golden_pos_order (a b x1 x2 : R) :
  golden_pos a b x1 x2 -> a <= x1 /\ x1 <= x2 /\ x2 <= b.
Proof.
  intros (Hab & -> & ->). pose proof phiR_bounds. repeat split; nra.
Qed.

Lemma golden_pos_left (a b x1 x2 : R) :
  golden_pos a b x1 x2 -> golden_pos a x2 (x2 - phiR * (x2 - a)) x1.
Proof.
  intros (Hab & -> & ->). pose proof phiR_bounds. pose proof phiR_golden.
  repeat split; nra.
Qed.

Lemma golden_pos_right (a b x1 x2 : R) :
  golden_pos a b x1 x2 -> golden_pos x1 b x2 (x1 + phiR * (b - x1)).
Proof.
  intros (Hab & -> & ->). pose proof phiR_bounds. pose proof phiR_golden.
  repeat split; nra.
Qed.

Lemma golden_step_left (a x2 : R) :
  sub (Fin x2) (mul phi (sub (Fin x2) (Fin a))) = Fin (x2 - phiR * (x2 - a)).
Proof. rewrite phi_fin; simpl; f_equal; lra. Qed.

Lemma golden_step_right (x1 b : R) :
  add (Fin x1) (mul phi (sub (Fin b) (Fin x1))) = Fin (x1 + phiR * (b - x1)).
Proof. rewrite phi_fin; simpl; f_equal; lra. Qed.

Lemma midpoint_fin (a b : R) : div (add (Fin a) (Fin b)) (Fin 2) = Fin ((a + b) / 2).
Proof. simpl. rewrite Reqb_of_neq by lra. reflexivity. Qed.

Lemma goldenLoop_step (f : num -> num) (tol maxIter : num) (fuel : nat)
    (i a b x1 x2 f1 f2 : num) :
  goldenLoop f tol maxIter (S fuel) i a b x1 x2 f1 f2
  = if ltb i maxIter && gtb (sub b a) tol then
      if ltb f1 f2 then
        goldenLoop f tol maxIter fuel (increment i)
          a x2 (sub x2 (mul phi (sub x2 a))) x1
          (f (sub x2 (mul phi (sub x2 a)))) f1
      else
        goldenLoop f tol maxIter fuel (increment i)
          x1 b x2 (add x1 (mul phi (sub b x1)))
          f2 (f (add x1 (mul phi (sub b x1))))
    else Some (div (add a b) (Fin 2)).
Proof. reflexivity. Qed.

Lemma counter_succ (k : nat) :
  INR k < 9007199254740992 -> increment (Fin (INR k)) = Fin (INR (S k)).
Proof.
  intros H. unfold increment. cbn [ltb add].
  now rewrite (Rltb_of_lt _ _ H), S_INR.
Qed.

(** The counter stays a natural number. *)
Lemma counter_nat (k : nat) : exists k', increment (Fin (INR k)) = Fin (INR k').
Proof.
  unfold increment. cbn [ltb add]. destruct (Rltb (INR k) 9007199254740992).
  - exists (S k). now rewrite S_INR.
  - now exists k.
Qed.

Lemma INR_2_53 : INR (2 ^ 53) = 9007199254740992.
Proof.
  rewrite pow_INR. replace (INR 2) with 2 by (simpl; lra).
  replace 53%nat with (10 * 5 + 3)%nat by reflexivity.
  rewrite pow_add, pow_mult.
  replace (2 ^ 10) with 1024 by (simpl; lra).
  simpl. lra.
Qed.

(** From a finite bracket the loop, when it ends, returns a point of the
    bracket, whatever the loss function, the tolerance and the budget. *)
Lemma goldenLoop_in_bracket (f : num -> num) (tol maxIter : num) (fuel : nat) :
  forall (i : num) (a b x1 x2 : R) (f1 f2 v : num),
    golden_pos a b x1 x2 ->
    goldenLoop f tol maxIter fuel i (Fin a) (Fin b) (Fin x1) (Fin x2) f1 f2 = Some v ->
    exists r, v = Fin r /\ a <= r <= b.
Proof.
  induction fuel as [|fuel IH]; intros i a b x1 x2 f1 f2 v Hpos; [discriminate|].
  pose proof (golden_pos_order _ _ _ _ Hpos) as (H1 & H12 & H2).
  rewrite goldenLoop_step.
  destruct (_ && _).
  - destruct (ltb f1 f2).
    + rewrite golden_step_left. intros H.
      destruct (IH _ _ _ _ _ _ _ _ (golden_pos_left _ _ _ _ Hpos) H) as (r & -> & Hr).
      exists r; split; [reflexivity | lra].
    + rewrite golden_step_right. intros H.
      destruct (IH _ _ _ _ _ _ _ _ (golden_pos_right _ _ _ _ Hpos) H) as (r & -> & Hr).
      exists r; split; [reflexivity | lra].
  - rewrite midpoint_fin. intros H; injection H as <-. destruct Hpos as (Hab & _).
    eexists; split; [reflexivity | lra].
Qed.

Lemma goldenSection_in_bracket (f : num -> num) (a b : R) (tol maxIter : num)
    (fuel : nat) (v : num) :
  a <= b ->
  goldenSection f (Fin a) (Fin b) tol maxIter fuel = Some v ->
  exists r, v = Fin r /\ a <= r <= b.
Proof.
  intros Hab. unfold goldenSection.
  rewrite golden_step_left, golden_step_right.
  apply goldenLoop_in_bracket.
  repeat split; lra.
Qed.

(** More fuel does not change the result of a loop that has ended. *)
Lemma goldenLoop_more_fuel (f : num -> num) (tol maxIter : num) (fuel : nat) :
  forall (i a b x1 x2 f1 f2 v : num) (fuel' : nat),
    (fuel <= fuel')%nat ->
    goldenLoop f tol maxIter fuel i a b x1 x2 f1 f2 = Some v ->
    goldenLoop f tol maxIter fuel' i a b x1 x2 f1 f2 = Some v.
Proof.
  induction fuel as [|fuel IH]; intros i a b x1 x2 f1 f2 v fuel' Hle; [discriminate|].
  destruct fuel' as [|fuel']; [lia|].
  rewrite !goldenLoop_step.
  destruct (_ && _); [|auto].
  destruct (ltb f1 f2); apply IH; lia.
Qed.

(** The counter reaches a budget that is not [Infinity]: the loop ends. *)
Lemma goldenLoop_ends_by_budget (f : num -> num) (tol maxIter : num) (d : nat) :
  forall (k fuel : nat) (a b x1 x2 f1 f2 : num),
    ltb (Fin (INR (k + d))) maxIter = false ->
    INR (k + d) <= 9007199254740992 -> (d < fuel)%nat ->
    exists v, goldenLoop f tol maxIter fuel (Fin (INR k)) a b x1 x2 f1 f2 = Some v.
Proof.
  induction d as [|d IH]; intros k fuel a b x1 x2 f1 f2 Hout Hlim Hfuel;
    (destruct fuel as [|fuel]; [lia|]); rewrite goldenLoop_step.
  - rewrite Nat.add_0_r in Hout. rewrite Hout. cbn [andb]. eauto.
  - destruct (_ && _); [|eauto].
    assert (Hk : INR k < 9007199254740992).
    { apply Rlt_le_trans with (INR (k + S d)); [apply lt_INR; lia | exact Hlim]. }
    rewrite (counter_succ k Hk).
    destruct (ltb f1 f2); apply IH; try lia;
      now rewrite Nat.add_succ_comm.
Qed.

(** On a finite bracket the width falls below a positive tolerance: the
    loop ends, whatever the budget. *)
Lemma goldenLoop_ends_by_tolerance (f : num -> num) (t : R) (maxIter : num) (d : nat) :
  forall (fuel : nat) (i : num) (a b x1 x2 : R) (f1 f2 : num),
    golden_pos a b x1 x2 -> phiR ^ d * (b - a) <= t -> (d < fuel)%nat ->
    exists v, goldenLoop f (Fin t) maxIter fuel i (Fin a) (Fin b) (Fin x1) (Fin x2) f1 f2
              = Some v.
Proof.
  induction d as [|d IH]; intros fuel i a b x1 x2 f1 f2 Hpos Hw Hfuel;
    (destruct fuel as [|fuel]; [lia|]); rewrite goldenLoop_step.
  - assert (Hg : gtb (sub (Fin b) (Fin a)) (Fin t) = false).
    { unfold gtb. cbn. apply Rltb_of_ge. simpl in Hw. lra. }
    rewrite Hg, andb_false_r. eauto.
  - destruct (_ && _); [|eauto].
    pose proof Hpos as (Hab & E1 & E2).
    destruct (ltb f1 f2).
    + rewrite golden_step_left.
      apply IH; [exact (golden_pos_left _ _ _ _ Hpos) | | lia].
      pose proof phiR_bounds. pose proof (pow_le phiR d ltac:(lra)).
      rewrite E2. simpl in Hw. nra.
    + rewrite golden_step_right.
      apply IH; [exact (golden_pos_right _ _ _ _ Hpos) | | lia].
      pose proof phiR_bounds. pose proof (pow_le phiR d ltac:(lra)).
      rewrite E1. simpl in Hw. nra.
Qed.

End Golden.

(* ------------------------------------------------------------------ *)
(** ** The calibrator: when it throws and what it fits *)

Lemma fifteen : 15.0 = 15.
Proof. lra. Qed.

Lemma calibrateAngles_unfold (fuel : nat) (observations : list Observation)
    (options : CalibrationOptions) :
  calibrateAngles fuel observations options
  = if ((length (fajrSubset observations) <? 2)
        && (length (ishaSubset observations) <? 2))%nat
    then Some (Throws (InsufficientData (length (fajrSubset observations))
                                        (length (ishaSubset observations))))
    else
      match fajrFit fuel observations options, ishaFit fuel observations options with
      | Some fa, Some ia => Some (Returns (resultAt observations fa ia))
      | _, _ => None
      end.
Proof.
  unfold calibrateAngles, fajrFit, ishaFit, fittedOrGuess, resultAt,
    fajrSubset, ishaSubset.
  rewrite fifteen.
  destruct (_ && _); [reflexivity|].
  destruct (if (2 <=? _)%nat then _ else _) as [fa|]; [|reflexivity].
  destruct (if (2 <=? _)%nat then _ else _) as [ia|]; [|reflexivity].
  destruct (mapAccum _ _ _) as [res [tws tw]]. reflexivity.
Qed.

Lemma resultAt_fields (observations : list Observation) (fa ia : num) :
  angles (resultAt observations fa ia) = mkAngles fa ia
  /\ residuals (resultAt observations fa ia)
     = fst (mapAccum (residualStep fa ia) observations (Fin 0, Fin 0))
  /\ rmsMinutes (resultAt observations fa ia)
     = (let s := snd (mapAccum (residualStep fa ia) observations (Fin 0, Fin 0)) in
        if gtb (snd s) (Fin 0) then Math.sqrt (div (fst s) (snd s)) else Fin 0)
  /\ observationCount (resultAt observations fa ia)
     = div (add (Fin (INR (length (fajrSubset observations))))
                (Fin (INR (length (ishaSubset observations))))) (Fin 2).
Proof.
  unfold resultAt. destruct (mapAccum _ _ _) as [res [tws tw]].
  repeat split.
Qed.

(** When [calibrateAngles] returns, its angles are those of [fajrFit] and
    [ishaFit] and its result the report at these angles. *)
Lemma calibrateAngles_returns (fuel : nat) (observations : list Observation)
    (options : CalibrationOptions) (r : CalibrationResult) :
  calibrateAngles fuel observations options = Some (Returns r) ->
  fajrFit fuel observations options = Some (fajrAngle (angles r))
  /\ ishaFit fuel observations options = Some (ishaAngle (angles r))
  /\ r = resultAt observations (fajrAngle (angles r)) (ishaAngle (angles r))
  /\ (2 <= length (fajrSubset observations)
      \/ 2 <= length (ishaSubset observations))%nat.
Proof.
  rewrite calibrateAngles_unfold.
  destruct (Nat.ltb_spec (length (fajrSubset observations)) 2);
    destruct (Nat.ltb_spec (length (ishaSubset observations)) 2);
    cbn [andb]; try discriminate;
    destruct (fajrFit fuel observations options) as [fa|]; try discriminate;
    destruct (ishaFit fuel observations options) as [ia|]; try discriminate;
    intros E; injection E as <-;
    rewrite (proj1 (resultAt_fields observations fa ia));
    cbn [fajrAngle ishaAngle]; repeat split; auto; lia.
Qed.

Lemma calibrateAngles_throws_iff (fuel : nat) (observations : list Observation)
    (options : CalibrationOptions) :
  (exists e, calibrateAngles fuel observations options = Some (Throws e))
  <-> (length (fajrSubset observations) < 2
       /\ length (ishaSubset observations) < 2)%nat.
Proof.
  rewrite calibrateAngles_unfold.
  destruct (Nat.ltb_spec (length (fajrSubset observations)) 2);
    destruct (Nat.ltb_spec (length (ishaSubset observations)) 2);
    cbn [andb];
    try (destruct (fajrFit fuel observations options) as [fa|];
         [destruct (ishaFit fuel observations options) as [ia|]|]);
    split; try (intros [e He]; discriminate); try (intros [? ?]; lia);
    intros _; eexists; reflexivity.
Qed.


(** A budget the counter reaches is of the form "at most [n]". *)
Lemma finiteBudget_reached (maxIter : num) :
  finiteBudget maxIter ->
  exists n, ltb (Fin (INR n)) maxIter = false /\ INR n <= 9007199254740992.
Proof.
  destruct maxIter as [m| | |]; cbn [finiteBudget]; intros H.
  - pose proof INR_2_53 as E. set (n := (2 ^ 53)%nat) in E.
    exists n. split; [|lra]. cbn [ltb]. apply Rltb_of_ge. lra.
  - contradiction.
  - exists 0%nat. split; [reflexivity | simpl; lra].
  - exists 0%nat. split; [reflexivity | simpl; lra].
Qed.

Lemma fittedOrGuess_ends (loss : num -> num) (subset : list Observation)
    (lo hi tol maxIter guess : num) :
  finiteBudget maxIter ->
  exists fuel0, forall fuel, (fuel0 <= fuel)%nat ->
    exists v, fittedOrGuess loss subset lo hi tol maxIter guess fuel = Some v.
Proof.
  intros Hb. destruct (finiteBudget_reached maxIter Hb) as (n & Hn & Hlim).
  exists (S n). intros fuel Hfuel. unfold fittedOrGuess.
  destruct (2 <=? length subset)%nat; [|eauto].
  unfold goldenSection.
  apply (goldenLoop_ends_by_budget _ _ _ n 0 fuel); [exact Hn | exact Hlim | lia].
Qed.

(** With a budget the counter reaches, [calibrateAngles] has an outcome. *)
Lemma calibrateAngles_ends (observations : list Observation)
    (options : CalibrationOptions) :
  finiteBudget (orDefault (opt_maxIter options) (Fin 200)) ->
  exists fuel0, forall fuel, (fuel0 <= fuel)%nat ->
    exists out, calibrateAngles fuel observations options = Some out.
Proof.
  intros Hb.
  destruct (fittedOrGuess_ends (fajrLoss (fajrSubset observations))
              (fajrSubset observations)
              (orDefault (opt_fajrMin options) (Fin 10))
              (orDefault (opt_fajrMax options) (Fin 22))
              (orDefault (opt_tol options) (Fin 1e-5)) _
              (orDefault (opt_fajrAngle0 options) (Fin 15)) Hb) as [n1 H1].
  destruct (fittedOrGuess_ends (ishaLoss (ishaSubset observations))
              (ishaSubset observations)
              (orDefault (opt_ishaMin options) (Fin 10))
              (orDefault (opt_ishaMax options) (Fin 22))
              (orDefault (opt_tol options) (Fin 1e-5)) _
              (orDefault (opt_ishaAngle0 options) (Fin 15)) Hb) as [n2 H2].
  exists (Nat.max n1 n2). intros fuel Hfuel.
  rewrite calibrateAngles_unfold. destruct (_ && _); [eauto|].
  unfold fajrFit, ishaFit.
  destruct (H1 fuel ltac:(lia)) as [fa ->]. destruct (H2 fuel ltac:(lia)) as [ia ->].
  eauto.
Qed.

(* ------------------------------------------------------------------ *)
(** ** Residual lists *)

Section MapAccum.
Context {A B S : Type} (step : S -> A -> B * S).

Lemma mapAccum_app (l1 l2 : list A) (s : S) :
  mapAccum step (l1 ++ l2) s
  = (fst (mapAccum step l1 s) ++ fst (mapAccum step l2 (snd (mapAccum step l1 s))),
     snd (mapAccum step l2 (snd (mapAccum step l1 s)))).
Proof.
  revert s; induction l1 as [|x l1 IH]; intros s; simpl.
  - now destruct (mapAccum step l2 s).
  - destruct (step s x) as [y s1]. rewrite IH.
    destruct (mapAccum step l1 s1) as [ys s2]; simpl.
    reflexivity.
Qed.

Lemma mapAccum_cons (x : A) (l : list A) (s : S) :
  mapAccum step (x :: l) s
  = (fst (step s x) :: fst (mapAccum step l (snd (step s x))),
     snd (mapAccum step l (snd (step s x)))).
Proof.
  simpl. destruct (step s x) as [y s1]; simpl.
  now destruct (mapAccum step l s1).
Qed.

(** When the output of the callback does not depend on the state, the
    list produced is a plain [map]. *)
Lemma mapAccum_fst_map (g : A -> B) (l : list A) :
  (forall s x, fst (step s x) = g x) ->
  forall s, fst (mapAccum step l s) = map g l.
Proof.
  intros Hg; induction l as [|x l IH]; intros s.
  - reflexivity.
  - rewrite mapAccum_cons; simpl. now rewrite Hg, IH.
Qed.

(** Elements that leave the state alone leave the final state alone. *)
Lemma mapAccum_snd_skip (P : A -> Prop) (l : list A) :
  (forall s x, P x -> snd (step s x) = s) ->
  Forall P l -> forall s, snd (mapAccum step l s) = s.
Proof.
  intros Hskip HP; induction HP as [|x l Hx _ IH]; intros s.
  - reflexivity.
  - rewrite mapAccum_cons; simpl. now rewrite IH, Hskip.
Qed.
End MapAccum.

Ltac split_finite :=
  repeat match goal with
  | |- context [isFinite ?p] => destruct (isFinite p)
  end.

Lemma scoreStep_fst (fa ia : num) (s : ScoreAcc) (o : Observation) :
  fst (scoreStep fa ia s o) = residualOf fa ia o.
Proof.
  unfold scoreStep, scoreFajr, scoreIsha, residualOf, prayerResidual.
  destruct (fajr o), (isha o); split_finite; reflexivity.
Qed.

Lemma residualStep_fst (fa ia : num) (s : num * num) (o : Observation) :
  fst (residualStep fa ia s o) = residualOf fa ia o.
Proof.
  unfold residualStep, residualOf, prayerResidual.
  destruct (fajr o), (isha o); split_finite; reflexivity.
Qed.

Lemma scoreStep_no_residual (fa ia : num) (s : ScoreAcc) (o : Observation) :
  residualOf fa ia o = mkResidual None None -> snd (scoreStep fa ia s o) = s.
Proof.
  unfold scoreStep, scoreFajr, scoreIsha, residualOf, prayerResidual.
  destruct (fajr o), (isha o); split_finite; simpl; congruence.
Qed.

Lemma residualStep_no_residual (fa ia : num) (s : num * num) (o : Observation) :
  residualOf fa ia o = mkResidual None None -> snd (residualStep fa ia s o) = s.
Proof.
  unfold residualStep, residualOf, prayerResidual.
  destruct (fajr o), (isha o); split_finite; simpl; congruence.
Qed.

Lemma unconstrained_residual (fa ia : num) (o : Observation) :
  unconstrained o -> residualOf fa ia o = mkResidual None None.
Proof. intros [Hf Hi]. unfold residualOf. now rewrite Hf, Hi. Qed.

Lemma scoreAngles_residuals (observations : list Observation) (fa ia : num) :
  score_residuals (scoreAngles observations fa ia) = map (residualOf fa ia) observations.
Proof.
  unfold scoreAngles.
  rewrite <- (mapAccum_fst_map (scoreStep fa ia) (residualOf fa ia) observations
                (scoreStep_fst fa ia) scoreAcc0).
  now destruct (mapAccum _ _ _).
Qed.

Lemma calibrateAngles_residuals (fuel : nat) (observations : list Observation)
    (options : CalibrationOptions) (r : CalibrationResult) :
  calibrateAngles fuel observations options = Some (Returns r) ->
  residuals r
  = map (residualOf (fajrAngle (angles r)) (ishaAngle (angles r))) observations.
Proof.
  intros H. apply calibrateAngles_returns in H as (_ & _ & E & _).
  rewrite E at 1.
  rewrite (proj1 (proj2 (resultAt_fields observations _ _))).
  apply mapAccum_fst_map, residualStep_fst.
Qed.

Lemma filter_skip {A : Type} (p : A -> bool) (l1 l2 : list A) (x : A) :
  p x = false -> filter p (l1 ++ x :: l2) = filter p (l1 ++ l2).
Proof. intros H. rewrite !filter_app. simpl. now rewrite H. Qed.

Lemma mapAccum_skip_middle {A B S : Type} (step : S -> A -> B * S)
    (l1 l2 : list A) (x : A) (s : S) :
  (forall s', snd (step s' x) = s') ->
  snd (mapAccum step (l1 ++ x :: l2) s) = snd (mapAccum step (l1 ++ l2) s).
Proof.
  intros H. rewrite !mapAccum_app. cbn [snd].
  rewrite mapAccum_cons. cbn [snd]. now rewrite H.
Qed.

Lemma scoreAngles_skip_unconstrained (l1 l2 : list Observation) (o : Observation)
    (fa ia : num) :
  unconstrained o ->
  scoreAggregates (scoreAngles (l1 ++ o :: l2) fa ia)
  = scoreAggregates (scoreAngles (l1 ++ l2) fa ia).
Proof.
  intros Ho. unfold scoreAggregates, scoreAngles.
  pose proof (mapAccum_skip_middle (scoreStep fa ia) l1 l2 o scoreAcc0
                (fun s' => scoreStep_no_residual fa ia s' o
                             (unconstrained_residual fa ia o Ho))) as H.
  destruct (mapAccum (scoreStep fa ia) (l1 ++ o :: l2) scoreAcc0) as [r1 s1].
  destruct (mapAccum (scoreStep fa ia) (l1 ++ l2) scoreAcc0) as [r2 s2].
  simpl in H; subst s2. reflexivity.
Qed.

Lemma resultAt_skip_unconstrained (l1 l2 : list Observation) (o : Observation)
    (fa ia : num) :
  unconstrained o ->
  calibrationAggregates (Returns (resultAt (l1 ++ o :: l2) fa ia))
  = calibrationAggregates (Returns (resultAt (l1 ++ l2) fa ia)).
Proof.
  intros Ho. pose proof Ho as [Hf Hi].
  unfold resultAt, fajrSubset, ishaSubset.
  rewrite (filter_skip (fun o => isSome (fajr o)) l1 l2 o) by now rewrite Hf.
  rewrite (filter_skip (fun o => isSome (isha o)) l1 l2 o) by now rewrite Hi.
  pose proof (mapAccum_skip_middle (residualStep fa ia) l1 l2 o (Fin 0, Fin 0)
                (fun s' => residualStep_no_residual _ _ s' o
                             (unconstrained_residual _ _ o Ho))) as H.
  destruct (mapAccum _ (l1 ++ o :: l2) _) as [r1 [a1 b1]].
  destruct (mapAccum _ (l1 ++ l2) _) as [r2 [a2 b2]].
  simpl in H. injection H as -> ->. reflexivity.
Qed.

Lemma calibrateAngles_skip_unconstrained (fuel : nat) (l1 l2 : list Observation)
    (o : Observation) (options : CalibrationOptions) :
  unconstrained o ->
  option_map calibrationAggregates (calibrateAngles fuel (l1 ++ o :: l2) options)
  = option_map calibrationAggregates (calibrateAngles fuel (l1 ++ l2) options).
Proof.
  intros Ho. pose proof Ho as [Hf Hi].
  rewrite !calibrateAngles_unfold. unfold fajrFit, ishaFit, fajrSubset, ishaSubset.
  rewrite (filter_skip (fun o => isSome (fajr o)) l1 l2 o) by now rewrite Hf.
  rewrite (filter_skip (fun o => isSome (isha o)) l1 l2 o) by now rewrite Hi.
  destruct (_ && _); [reflexivity|].
  destruct (fittedOrGuess (fajrLoss _) _ _ _ _ _ _ _) as [fa|]; [|reflexivity].
  destruct (fittedOrGuess (ishaLoss _) _ _ _ _ _ _ _) as [ia|]; [|reflexivity].
  cbn [option_map]. f_equal. now apply resultAt_skip_unconstrained.
Qed.

(** C9. The residual list of [scoreAngles] and of [calibrateAngles] is the
    input list mapped through [residualOf]: one entry per observation, in
    the input's order, holding for each prayer [(predicted - observed) * 60]
    when the observed time is present and the prediction finite and [null]
    otherwise.  An observation without both optional times is echoed as
    [{fajrMin: null, ishaMin: null}], and leaving it out of the input changes
    no aggregate of either function (nor whether [calibrateAngles] throws,
    nor whether it ends). *)
Theorem residuals_aligned_with_input :
  (forall observations fa ia,
      score_residuals (scoreAngles observations fa ia)
      = map (residualOf fa ia) observations)
  /\ (forall fuel observations options r,
        calibrateAngles fuel observations options = Some (Returns r) ->
        residuals r
        = map (residualOf (fajrAngle (angles r)) (ishaAngle (angles r))) observations)
  /\ (forall fa ia o, unconstrained o -> residualOf fa ia o = mkResidual None None)
  /\ (forall l1 l2 o fa ia,
        unconstrained o ->
        scoreAggregates (scoreAngles (l1 ++ o :: l2) fa ia)
        = scoreAggregates (scoreAngles (l1 ++ l2) fa ia))
  /\ (forall fuel l1 l2 o options,
        unconstrained o ->
        option_map calibrationAggregates
          (calibrateAngles fuel (l1 ++ o :: l2) options)
        = option_map calibrationAggregates
            (calibrateAngles fuel (l1 ++ l2) options)).
Proof.
  split; [exact scoreAngles_residuals|].
  split; [exact calibrateAngles_residuals|].
  split; [exact unconstrained_residual|].
  split; [exact scoreAngles_skip_unconstrained|].
  exact calibrateAngles_skip_unconstrained.
Qed.

(* ------------------------------------------------------------------ *)
(** ** The scorer on inputs without weight *)

Lemma mapAccum_proj_skip {A B S T : Type} (step : S -> A -> B * S)
    (proj : S -> T) (P : A -> Prop) (l : list A) :
  (forall s x, P x -> proj (snd (step s x)) = proj s) ->
  Forall P l -> forall s, proj (snd (mapAccum step l s)) = proj s.
Proof.
  intros Hskip HP; induction HP as [|x l Hx _ IH]; intros s.
  - reflexivity.
  - rewrite mapAccum_cons; cbn [snd]. now rewrite IH, Hskip.
Qed.

Lemma scoreStep_fajr_untouched (fa ia : num) (s : ScoreAcc) (o : Observation) :
  fajrMin (residualOf fa ia o) = None ->
  sa_fajrWeightCount (snd (scoreStep fa ia s o)) = sa_fajrWeightCount s.
Proof.
  unfold scoreStep, scoreFajr, scoreIsha, residualOf, prayerResidual.
  destruct (fajr o), (isha o); split_finite; simpl; congruence.
Qed.

Lemma scoreStep_isha_untouched (fa ia : num) (s : ScoreAcc) (o : Observation) :
  ishaMin (residualOf fa ia o) = None ->
  sa_ishaWeightCount (snd (scoreStep fa ia s o)) = sa_ishaWeightCount s.
Proof.
  unfold scoreStep, scoreFajr, scoreIsha, residualOf, prayerResidual.
  destruct (fajr o), (isha o); split_finite; simpl; congruence.
Qed.

Lemma gtb_zero_zero : gtb (Fin 0) (Fin 0) = false.
Proof. unfold gtb; simpl. apply Rltb_of_ge; lra. Qed.

Lemma scoreAngles_fields (observations : list Observation) (fa ia : num) :
  let s := scoreAccOf observations fa ia in
  scoreAngles observations fa ia
  = mkScoreResult
      (if gtb (sa_totalWeight s) (Fin 0)
       then Math.sqrt (div (sa_totalWeightedSS s) (sa_totalWeight s)) else Fin 0)
      (if gtb (sa_fajrWeightCount s) (Fin 0)
       then div (sa_fajrWeightedBias s) (sa_fajrWeightCount s) else Fin 0)
      (if gtb (sa_ishaWeightCount s) (Fin 0)
       then div (sa_ishaWeightedBias s) (sa_ishaWeightCount s) else Fin 0)
      (map (residualOf fa ia) observations).
Proof.
  intros s. rewrite <- scoreAngles_residuals.
  unfold scoreAngles, scoreAccOf in *. subst s.
  now destruct (mapAccum _ _ _).
Qed.

(** C7. When the total weight accumulated by [scoreAngles] is zero, its
    [rmsMinutes] is 0; a prayer without any finite residual has bias 0; an
    input in which no observation yields a residual (empty, no optional time
    present, or every prediction non-finite) scores 0 on every aggregate; and
    the empty list scores [{rmsMinutes: 0, residuals: []}]. *)
Theorem scoreAngles_zero_weight (observations : list Observation) (fa ia : num) :
  (sa_totalWeight (scoreAccOf observations fa ia) = Fin 0 ->
   score_rmsMinutes (scoreAngles observations fa ia) = Fin 0)
  /\ (Forall (fun o => fajrMin (residualOf fa ia o) = None) observations ->
      score_fajrBiasMinutes (scoreAngles observations fa ia) = Fin 0)
  /\ (Forall (fun o => ishaMin (residualOf fa ia o) = None) observations ->
      score_ishaBiasMinutes (scoreAngles observations fa ia) = Fin 0)
  /\ (Forall (fun o => residualOf fa ia o = mkResidual None None) observations ->
      scoreAggregates (scoreAngles observations fa ia) = (Fin 0, Fin 0, Fin 0))
  /\ scoreAngles [] fa ia = mkScoreResult (Fin 0) (Fin 0) (Fin 0) [].
Proof.
  rewrite scoreAngles_fields. cbn [score_rmsMinutes score_fajrBiasMinutes
    score_ishaBiasMinutes scoreAggregates].
  split; [|split; [|split; [|split]]].
  - intros ->. now rewrite gtb_zero_zero.
  - intros Hall. unfold scoreAccOf.
    rewrite (mapAccum_proj_skip (scoreStep fa ia) sa_fajrWeightCount _ observations
               (fun s x => scoreStep_fajr_untouched fa ia s x) Hall).
    cbn [scoreAcc0 sa_fajrWeightCount]. now rewrite gtb_zero_zero.
  - intros Hall. unfold scoreAccOf.
    rewrite (mapAccum_proj_skip (scoreStep fa ia) sa_ishaWeightCount _ observations
               (fun s x => scoreStep_isha_untouched fa ia s x) Hall).
    cbn [scoreAcc0 sa_ishaWeightCount]. now rewrite gtb_zero_zero.
  - intros Hall. unfold scoreAccOf.
    rewrite (mapAccum_snd_skip (scoreStep fa ia) _ observations
               (fun s x => scoreStep_no_residual fa ia s x) Hall).
    cbn [scoreAcc0 sa_totalWeight sa_fajrWeightCount sa_ishaWeightCount].
    now rewrite gtb_zero_zero.
  - unfold scoreAngles; cbn [mapAccum scoreAcc0 sa_totalWeight sa_fajrWeightCount
      sa_ishaWeightCount]. now rewrite gtb_zero_zero.
Qed.

Lemma scoreAngles_zero_weight_witness :
  Forall (fun o => residualOf (Fin 15) (Fin 15) o = mkResidual None None) noResidualObs
  /\ scoreAggregates (scoreAngles noResidualObs (Fin 15) (Fin 15)) = (Fin 0, Fin 0, Fin 0).
Proof.
  assert (H : Forall (fun o => residualOf (Fin 15) (Fin 15) o = mkResidual None None)
                noResidualObs).
  { unfold noResidualObs, residualOf.
    repeat constructor; cbn [date fajr isha];
      now rewrite ?predictFajr_invalid_date, ?predictIsha_invalid_date. }
  split; [exact H|].
  exact (proj1 (proj2 (proj2 (proj2
           (scoreAngles_zero_weight noResidualObs (Fin 15) (Fin 15))))) H).
Defined.

(* ------------------------------------------------------------------ *)
(** ** The angles and their configured intervals *)

(** With two members in a subset and a budget the counter reaches, the call
    returns. *)
Lemma calibrateAngles_returns_of_budget (observations : list Observation)
    (options : CalibrationOptions) :
  (2 <= length (fajrSubset observations)
   \/ 2 <= length (ishaSubset observations))%nat ->
  finiteBudget (orDefault (opt_maxIter options) (Fin 200)) ->
  exists fuel r, calibrateAngles fuel observations options = Some (Returns r).
Proof.
  intros Hlen Hb.
  destruct (calibrateAngles_ends observations options Hb) as [fuel H].
  destruct (H fuel (le_n _)) as [[r|e] Hout].
  - eauto.
  - destruct (proj1 (calibrateAngles_throws_iff fuel observations options)); [eauto|lia].
Qed.

Lemma default_budget_finite : finiteBudget (orDefault (opt_maxIter noOptions) (Fin 200)).
Proof. cbn. lra. Qed.

(** With two dusk-only observations and an initial dawn guess of 30, the call
    returns and reports the dawn angle 30, outside the interval [10, 22]. *)
Lemma calibrateAngles_guess_outside_bounds :
  exists fuel r, calibrateAngles fuel duskOnlyObs guess30 = Some (Returns r)
    /\ fajrAngle (angles r) = Fin 30
    /\ ~ withinBounds guess30 (angles r).
Proof.
  destruct (calibrateAngles_returns_of_budget duskOnlyObs guess30) as (fuel & r & Hr).
  { right. cbn. lia. }
  { cbn. lra. }
  exists fuel, r. split; [exact Hr|].
  apply calibrateAngles_returns in Hr as (Hf & _ & _).
  assert (H30 : fajrAngle (angles r) = Fin 30).
  { cbn in Hf. now injection Hf as <-. }
  split; [exact H30|].
  intros (_ & Hhi & _). rewrite H30 in Hhi. cbn in Hhi.
  apply Rleb_true in Hhi. lra.
Qed.

Lemma fittedOrGuess_in_bracket (loss : num -> num) (subset : list Observation)
    (lo hi : R) (tol maxIter guess v : num) (fuel : nat) :
  (2 <= length subset)%nat -> lo <= hi ->
  fittedOrGuess loss subset (Fin lo) (Fin hi) tol maxIter guess fuel = Some v ->
  exists a, v = Fin a /\ lo <= a <= hi.
Proof.
  intros Hlen Hle. unfold fittedOrGuess.
  apply Nat.leb_le in Hlen. rewrite Hlen.
  now apply goldenSection_in_bracket.
Qed.

Lemma fittedOrGuess_guess (loss : num -> num) (subset : list Observation)
    (lo hi tol maxIter guess v : num) (fuel : nat) :
  (length subset < 2)%nat ->
  fittedOrGuess loss subset lo hi tol maxIter guess fuel = Some v ->
  v = guess.
Proof.
  intros Hlen. unfold fittedOrGuess.
  apply Nat.leb_gt in Hlen. rewrite Hlen. now intros E; injection E.
Qed.

(** C8 (amended). When [calibrateAngles] returns, an angle that was fitted
    (its subset has at least 2 members) lies within its configured interval,
    provided the interval's bounds are finite, ordered and at most 1e300 in
    magnitude (so that neither their sum nor their difference overflows); an
    angle that was not fitted is the initial guess, whatever the interval. *)
Theorem calibrateAngles_fitted_within_bounds (fuel : nat)
    (observations : list Observation) (options : CalibrationOptions)
    (r : CalibrationResult) :
  calibrateAngles fuel observations options = Some (Returns r) ->
  (forall lo hi : R,
      orDefault (opt_fajrMin options) (Fin 10) = Fin lo ->
      orDefault (opt_fajrMax options) (Fin 22) = Fin hi ->
      lo <= hi -> Rabs lo <= 1e300 -> Rabs hi <= 1e300 ->
      (2 <= length (fajrSubset observations))%nat ->
      exists a, fajrAngle (angles r) = Fin a /\ lo <= a <= hi)
  /\ (forall lo hi : R,
        orDefault (opt_ishaMin options) (Fin 10) = Fin lo ->
        orDefault (opt_ishaMax options) (Fin 22) = Fin hi ->
        lo <= hi -> Rabs lo <= 1e300 -> Rabs hi <= 1e300 ->
        (2 <= length (ishaSubset observations))%nat ->
        exists a, ishaAngle (angles r) = Fin a /\ lo <= a <= hi)
  /\ ((length (fajrSubset observations) < 2)%nat ->
      fajrAngle (angles r) = orDefault (opt_fajrAngle0 options) (Fin 15))
  /\ ((length (ishaSubset observations) < 2)%nat ->
      ishaAngle (angles r) = orDefault (opt_ishaAngle0 options) (Fin 15)).
Proof.
  intros Hr.
  apply calibrateAngles_returns in Hr as (Hf & Hi & _).
  unfold fajrFit in Hf. unfold ishaFit in Hi.
  split; [|split; [|split]].
  - intros lo hi Elo Ehi Hle _ _ H2. rewrite Elo, Ehi in Hf.
    exact (fittedOrGuess_in_bracket _ _ _ _ _ _ _ _ _ H2 Hle Hf).
  - intros lo hi Elo Ehi Hle _ _ H2. rewrite Elo, Ehi in Hi.
    exact (fittedOrGuess_in_bracket _ _ _ _ _ _ _ _ _ H2 Hle Hi).
  - intros H2. exact (fittedOrGuess_guess _ _ _ _ _ _ _ _ _ H2 Hf).
  - intros H2. exact (fittedOrGuess_guess _ _ _ _ _ _ _ _ _ H2 Hi).
Qed.

Lemma calibrateAngles_fitted_within_bounds_witness :
  exists fuel r, calibrateAngles fuel dawnHeavyObs noOptions = Some (Returns r)
    /\ (exists a, fajrAngle (angles r) = Fin a /\ 10 <= a <= 22)
    /\ ishaAngle (angles r) = Fin 15.
Proof.
  destruct (calibrateAngles_returns_of_budget dawnHeavyObs noOptions)
    as (fuel & r & Hr); [left; cbn; lia | exact default_budget_finite |].
  exists fuel, r. split; [exact Hr|].
  destruct (calibrateAngles_fitted_within_bounds fuel dawnHeavyObs noOptions r Hr)
    as (Hf & _ & _ & Hi).
  split.
  - apply Hf; [reflexivity | reflexivity | lra | | | cbn; lia];
      rewrite Rabs_pos_eq; lra.
  - apply Hi. cbn. lia.
Defined.

(* ------------------------------------------------------------------ *)
(** ** The horizon crossing *)

(** C3. For every input, [horizonCrossing] is the specification's crossing:
    with [cos(H)] outside [-1, 1] (an infinity and [NaN] included) it returns
    [(NaN, NaN)], and otherwise [(noon - H/15, noon + H/15)] where
    [H = acos(cos(H)) * 180 / PI] and [noon = 12 - eqtHours - lng/15 + tz]. *)
Theorem horizonCrossing_meets_spec (jd lat lng tz altDeg : num) :
  horizonCrossing jd lat lng tz altDeg = horizonCrossing_spec jd lat lng tz altDeg
  /\ (inUnitRange (cosHourAngle jd lat altDeg) = false ->
      horizonCrossing jd lat lng tz altDeg = (NaN, NaN))
  /\ (inUnitRange (cosHourAngle jd lat altDeg) = true ->
      let H := div (mul (Math.acos (cosHourAngle jd lat altDeg)) (Fin 180)) Math.PI in
      let noon := solarNoon jd lng tz in
      horizonCrossing jd lat lng tz altDeg
      = (sub noon (div H (Fin 15)), add noon (div H (Fin 15)))).
Proof.
  assert (E : horizonCrossing jd lat lng tz altDeg
              = horizonCrossing_spec jd lat lng tz altDeg).
  { unfold horizonCrossing, horizonCrossing_spec, cosHourAngle, solarNoon.
    destruct (solar jd) as [d e]. cbn [declRad eqtHours].
    match goal with |- context [inUnitRange ?c] => generalize c end.
    intros [c| | |]; unfold inUnitRange, gtb; cbn [ltb leb].
    - destruct (Rlt_dec c (-1)) as [Hlo|Hlo].
      + rewrite (Rltb_of_lt _ _ Hlo). cbn [orb].
        assert (Hf : Rleb (-1) c = false) by (apply Rleb_false; lra).
        now rewrite Hf.
      + rewrite (Rltb_of_ge c (-1)) by lra. rewrite (Rleb_of_le (-1) c) by lra.
        cbn [orb andb].
        destruct (Rlt_dec 1 c) as [Hhi|Hhi].
        * rewrite (Rltb_of_lt _ _ Hhi).
          assert (Hf : Rleb c 1 = false) by (apply Rleb_false; lra).
          now rewrite Hf.
        * rewrite (Rltb_of_ge 1 c) by lra. now rewrite (Rleb_of_le c 1) by lra.
    - reflexivity.
    - reflexivity.
    - cbn [orb andb]. autorewrite with num_nan. reflexivity. }
  split; [exact E|]. rewrite E. unfold horizonCrossing_spec.
  split; intros ->; reflexivity.
Qed.

Lemma solar_decl_range (jd : num) (d : R) :
  declRad (solar jd) = Fin d -> - (PI / 2) <= d <= PI / 2.
Proof.
  unfold solar; cbn [declRad]. intros H.
  apply asin_fin_inv in H as (s & _ & Hs & ->).
  pose proof (asin_bound s). lra.
Qed.

Lemma mul_lift_fin_or_nan (f g : R -> R) (x y : num) :
  (exists r, mul (lift f x) (lift g y) = Fin r) \/ mul (lift f x) (lift g y) = NaN.
Proof. destruct x, y; simpl; eauto. Qed.

(** Inversion of the operators in hypotheses that state a finite result. *)
Ltac fin_inv :=
  repeat match goal with
  | H : sub _ _ = Fin _ |- _ =>
      let a := fresh "a" in let b := fresh "b" in
      apply sub_fin_inv in H as (a & b & ? & ? & ?)
  | H : add _ _ = Fin _ |- _ =>
      let a := fresh "a" in let b := fresh "b" in
      apply add_fin_inv in H as (a & b & ? & ? & ?)
  | H : mul _ _ = Fin _ |- _ =>
      let a := fresh "a" in let b := fresh "b" in
      apply mul_fin_inv in H as (a & b & ? & ? & ?)
  | H : div _ (Fin _) = Fin _ |- _ =>
      let a := fresh "a" in
      apply div_fin_inv_l in H as (a & ? & ? & ?)
  | H : div _ Math.PI = Fin _ |- _ =>
      let a := fresh "a" in
      apply div_fin_inv_l in H as (a & ? & ? & ?)
  | H : neg _ = Fin _ |- _ =>
      let a := fresh "a" in
      apply neg_fin_inv in H as (a & ? & ?)
  | H : Math.sin _ = Fin _ |- _ =>
      let a := fresh "a" in
      apply lift_fin_inv in H as (a & ? & ?)
  | H : Math.cos _ = Fin _ |- _ =>
      let a := fresh "a" in
      apply lift_fin_inv in H as (a & ? & ?)
  | H : Math.acos _ = Fin _ |- _ =>
      let a := fresh "a" in
      apply acos_fin_inv in H as (a & ? & ? & ?)
  | H : Fin _ = Fin _ |- _ => injection H as H
  | H : Math.PI = Fin _ |- _ => unfold Math.PI in H
  end.

(** Evaluation of the operators on finite operands. *)
Ltac fin_eval :=
  repeat (cbn [add sub mul neg Math.sin Math.cos lift];
          unfold Math.PI;
          try rewrite !div_fin by (assumption || apply PI_neq0 || lra)).

Lemma crossing_of_finite (jd lat lng tz altDeg : num) (r : R) :
  fst (horizonCrossing jd lat lng tz altDeg) = Fin r
  \/ snd (horizonCrossing jd lat lng tz altDeg) = Fin r ->
  exists latR altR d n c, Crossing jd lat lng tz altDeg latR altR d n c.
Proof.
  intros Hfin.
  assert (Hpi : PI <> 0) by apply PI_neq0.
  pose proof (solar_decl_range jd) as Hrange.
  pose proof (eq_refl (horizonCrossing jd lat lng tz altDeg)) as Hval.
  unfold horizonCrossing in Hfin, Hval at 2.
  unfold solarNoon.
  remember (solar jd) as sd eqn:Es. destruct sd as [dn en].
  cbn [declRad eqtHours] in *.
  set (cosH := div _ (mul (Math.cos _) (Math.cos dn))) in *.
  destruct (ltb cosH (Fin (-1)) || gtb cosH (Fin 1)) eqn:Etest.
  { destruct Hfin as [H|H]; discriminate. }
  assert (Hc : exists c, cosH = Fin c /\ -1 <= c <= 1).
  { destruct cosH as [c| | |] eqn:Ec; try discriminate.
    - exists c; split; [reflexivity|].
      apply orb_false_iff in Etest as [E1 E2]. unfold gtb in E2. cbn in E1, E2.
      apply Rltb_false in E1, E2. lra.
    - exfalso. destruct Hfin as [H|H]; cbn [fst snd] in H;
        autorewrite with num_nan in H; discriminate. }
  destruct Hc as (c & Hc & Hcr). rewrite Hc in Hfin, Hval.
  rewrite (acos_fin c Hcr) in Hfin, Hval.
  assert (HH : div (div (mul (Fin (acos c)) (Fin 180)) Math.PI) (Fin 15)
               = Fin (acos c * 180 / PI / 15)) by (fin_eval; reflexivity).
  rewrite HH in Hfin, Hval.
  assert (Hn : exists n, add (sub (sub (Fin 12) en) (div lng (Fin 15))) tz = Fin n).
  { destruct Hfin as [H|H]; cbn [fst snd] in H;
      [apply sub_fin_inv in H | apply add_fin_inv in H];
      destruct H as (a & b & Ha & _); eauto. }
  destruct Hn as (n & Hn). rewrite Hn in Hval. clear Hfin Etest HH.
  assert (Hinv : exists latR altR d,
             lat = Fin latR /\ altDeg = Fin altR /\ dn = Fin d
             /\ cos (latR * PI / 180) * cos d <> 0
             /\ c = (sin (altR * PI / 180) - sin (latR * PI / 180) * sin d)
                    / (cos (latR * PI / 180) * cos d)).
  { clear Hval Hn. subst cosH.
    apply div_fin_inv in Hc as (nn & HN & [(dd & HD & Hdd & Hcv)|([HD|HD] & _)]).
    2,3: exfalso; unfold Math.cos in HD;
         destruct (mul_lift_fin_or_nan cos cos (div (mul lat Math.PI) (Fin 180)) dn)
           as [[x Hx]|Hx]; rewrite Hx in HD; discriminate.
    fin_inv. subst. fin_inv. subst.
    do 3 eexists. repeat split; try reflexivity; assumption. }
  destruct Hinv as (latR & altR & d & -> & -> & -> & Hden & Hcv).
  exists latR, altR, d, n, c.
  constructor.
  - reflexivity.
  - reflexivity.
  - now rewrite <- Es.
  - now apply Hrange.
  - exact Hden.
  - exact Hcv.
  - exact Hcr.
  - unfold solarNoon. rewrite <- Es. exact Hn.
  - cbn [sub add neg] in Hval. exact Hval.
Qed.

Lemma acos_decreasing (x y : R) : -1 <= x -> x < y -> y <= 1 -> acos y < acos x.
Proof.
  intros Hx Hxy Hy.
  destruct (Rlt_dec (acos y) (acos x)) as [H|H]; [exact H|].
  exfalso.
  pose proof (acos_bound x) as [Hx0 Hx1].
  pose proof (acos_bound y) as [Hy0 Hy1].
  assert (Hle : cos (acos y) <= cos (acos x)) by (apply cos_decr_1; lra).
  rewrite !cos_acos in Hle by lra. lra.
Qed.

Lemma PI_pos : 0 < PI.
Proof. exact PI_RGT_0. Qed.

(** Two crossings of the same day and place share declination and noon. *)
Lemma Crossing_same_day (jd lat lng tz alt1 alt2 : num)
    (latR1 altR1 d1 n1 c1 latR2 altR2 d2 n2 c2 : R) :
  Crossing jd lat lng tz alt1 latR1 altR1 d1 n1 c1 ->
  Crossing jd lat lng tz alt2 latR2 altR2 d2 n2 c2 ->
  latR1 = latR2 /\ d1 = d2 /\ n1 = n2.
Proof.
  intros [Hl1 _ Hd1 _ _ _ _ Hn1 _] [Hl2 _ Hd2 _ _ _ _ Hn2 _].
  rewrite Hl1 in Hl2. rewrite Hd1 in Hd2. rewrite Hn1 in Hn2.
  injection Hl2 as <-. injection Hd2 as <-. injection Hn2 as <-. auto.
Qed.

(** Away from the poles the denominator of [cos(H)] is positive. *)
Lemma Crossing_den_pos (jd lat lng tz altDeg : num) (latR altR d n c : R) :
  Crossing jd lat lng tz altDeg latR altR d n c ->
  -90 < latR < 90 ->
  0 < cos (latR * PI / 180) * cos d.
Proof.
  intros [_ _ _ Hd Hden _ _ _ _] Hlat.
  pose proof PI_pos as Hpi.
  assert (H1 : 0 < cos (latR * PI / 180)) by (apply cos_gt_0; nra).
  assert (H2 : 0 <= cos d) by (apply cos_ge_0; lra).
  destruct H2 as [H2|H2]; [nra|].
  exfalso. apply Hden. rewrite <- H2. ring.
Qed.

Lemma hourAngleHours_nonneg (c : R) : 0 <= hourAngleHours c.
Proof.
  unfold hourAngleHours. pose proof (acos_bound c) as [H _]. pose proof PI_pos.
  apply Rmult_le_pos; [|lra].
  apply Rmult_le_pos; [|left; now apply Rinv_0_lt_compat].
  lra.
Qed.

Lemma hourAngleHours_decreasing (x y : R) :
  -1 <= x -> x < y -> y <= 1 -> hourAngleHours y < hourAngleHours x.
Proof.
  intros Hx Hxy Hy. unfold hourAngleHours.
  pose proof (acos_decreasing x y Hx Hxy Hy). pose proof PI_pos as Hpi.
  assert (Hk : 0 < 180 / PI / 15).
  { apply Rmult_lt_0_compat; [|lra].
    apply Rmult_lt_0_compat; [lra | now apply Rinv_0_lt_compat]. }
  replace (acos y * 180 / PI / 15) with (acos y * (180 / PI / 15)) by (field; lra).
  replace (acos x * 180 / PI / 15) with (acos x * (180 / PI / 15)) by (field; lra).
  nra.
Qed.

(** On one day and at one place strictly between the poles, a larger
    depression angle has a smaller [cos(H)], hence a larger hour angle. *)
Lemma Crossing_monotone (jd lng tz : num) (latR a1 a2 : R)
    (latR1 altR1 d1 n1 c1 latR2 altR2 d2 n2 c2 : R) :
  -90 < latR < 90 -> -90 <= a1 -> a1 < a2 -> a2 <= 90 ->
  Crossing jd (Fin latR) lng tz (neg (Fin a1)) latR1 altR1 d1 n1 c1 ->
  Crossing jd (Fin latR) lng tz (neg (Fin a2)) latR2 altR2 d2 n2 c2 ->
  n1 = n2 /\ hourAngleHours c1 < hourAngleHours c2.
Proof.
  intros Hlat Ha1 Ha12 Ha2 C1 C2.
  destruct (Crossing_same_day _ _ _ _ _ _ _ _ _ _ _ _ _ _ _ _ C1 C2)
    as (<- & <- & <-).
  split; [reflexivity|].
  pose proof (crossing_lat _ _ _ _ _ _ _ _ _ _ C1) as Hl.
  injection Hl as Hl; subst latR1.
  pose proof (Crossing_den_pos _ _ _ _ _ _ _ _ _ _ C1 Hlat) as Hden.
  pose proof (crossing_alt _ _ _ _ _ _ _ _ _ _ C1) as E1.
  pose proof (crossing_alt _ _ _ _ _ _ _ _ _ _ C2) as E2.
  cbn [neg] in E1, E2. injection E1 as E1. injection E2 as E2. subst altR1 altR2.
  pose proof (crossing_range _ _ _ _ _ _ _ _ _ _ C1) as R1.
  pose proof (crossing_range _ _ _ _ _ _ _ _ _ _ C2) as R2.
  apply hourAngleHours_decreasing; [lra| |lra].
  rewrite (crossing_cosH _ _ _ _ _ _ _ _ _ _ C1),
          (crossing_cosH _ _ _ _ _ _ _ _ _ _ C2).
  pose proof PI_pos as Hpi.
  assert (Hsin : sin (- a2 * PI / 180) < sin (- a1 * PI / 180))
    by (apply sin_increasing_1; nra).
  apply Rmult_lt_compat_r; [now apply Rinv_0_lt_compat | lra].
Qed.

Lemma predictFajr_decreasing (date : Date) (lng tz : num) (latR a1 a2 f1 f2 : R) :
  -90 < latR < 90 -> -90 <= a1 -> a1 < a2 -> a2 <= 90 ->
  predictFajr date (Fin latR) lng tz (Fin a1) = Fin f1 ->
  predictFajr date (Fin latR) lng tz (Fin a2) = Fin f2 ->
  f2 < f1.
Proof.
  intros Hlat Ha1 Ha12 Ha2 H1 H2. unfold predictFajr in H1, H2.
  destruct (crossing_of_finite _ _ _ _ _ f1 (or_introl H1))
    as (l1 & x1 & d1 & n1 & c1 & C1).
  destruct (crossing_of_finite _ _ _ _ _ f2 (or_introl H2))
    as (l2 & x2 & d2 & n2 & c2 & C2).
  destruct (Crossing_monotone _ _ _ _ _ _ _ _ _ _ _ _ _ _ _ _
              Hlat Ha1 Ha12 Ha2 C1 C2) as (<- & Hlt).
  rewrite (crossing_value _ _ _ _ _ _ _ _ _ _ C1) in H1.
  rewrite (crossing_value _ _ _ _ _ _ _ _ _ _ C2) in H2.
  cbn [fst] in H1, H2. injection H1 as <-. injection H2 as <-.
  unfold hourAngleHours in Hlt. lra.
Qed.

Lemma predictIsha_increasing (date : Date) (lng tz : num) (latR a1 a2 i1 i2 : R) :
  -90 < latR < 90 -> -90 <= a1 -> a1 < a2 -> a2 <= 90 ->
  predictIsha date (Fin latR) lng tz (Fin a1) = Fin i1 ->
  predictIsha date (Fin latR) lng tz (Fin a2) = Fin i2 ->
  i1 < i2.
Proof.
  intros Hlat Ha1 Ha12 Ha2 H1 H2. unfold predictIsha in H1, H2.
  destruct (crossing_of_finite _ _ _ _ _ i1 (or_intror H1))
    as (l1 & x1 & d1 & n1 & c1 & C1).
  destruct (crossing_of_finite _ _ _ _ _ i2 (or_intror H2))
    as (l2 & x2 & d2 & n2 & c2 & C2).
  destruct (Crossing_monotone _ _ _ _ _ _ _ _ _ _ _ _ _ _ _ _
              Hlat Ha1 Ha12 Ha2 C1 C2) as (<- & Hlt).
  rewrite (crossing_value _ _ _ _ _ _ _ _ _ _ C1) in H1.
  rewrite (crossing_value _ _ _ _ _ _ _ _ _ _ C2) in H2.
  cbn [snd] in H1, H2. injection H1 as <-. injection H2 as <-.
  unfold hourAngleHours in Hlt. lra.
Qed.

(* ------------------------------------------------------------------ *)
(** ** The ephemeris on a finite Julian day *)

Lemma sin_mul_sin_range (x y : R) : -1 <= sin x * sin y <= 1.
Proof.
  pose proof (SIN_bound x). pose proof (SIN_bound y). split; nra.
Qed.

Lemma tan_fin (x : R) : cos x <> 0 -> Math.tan (Fin x) = Fin (tan x).
Proof. intros H. unfold Math.tan. cbn [Math.sin Math.cos lift]. now rewrite div_fin. Qed.

(** On a finite Julian day the declination is finite; so is the equation
    of time unless [cos(epsRad / 2)] vanishes. *)
Lemma solar_fin (j : R) :
  let T := centuryR j in
  declRad (solar (Fin j)) = Fin (declR T)
  /\ (cos (epsRadR T / 2) <> 0 -> eqtHours (solar (Fin j)) = Fin (eqtHoursR T)).
Proof.
  intros T.
  assert (HT : div (sub (Fin j) (Fin 2451545.0)) (Fin 36525.0) = Fin T).
  { cbn [sub add neg]. rewrite div_fin by lra. reflexivity. }
  unfold solar. rewrite HT. clear HT.
  assert (HL0 : rem (add (Fin 280.46646) (mul (Fin T)
                  (add (Fin 36000.76983) (mul (Fin T) (Fin 0.0003032))))) (Fin 360)
                = Fin (L0R T)).
  { cbn [add mul]. rewrite rem_fin by lra. reflexivity. }
  rewrite HL0. clear HL0.
  assert (HM : rem (add (Fin 357.52911) (mul (Fin T)
                 (sub (Fin 35999.05029) (mul (Fin T) (Fin 0.0001537))))) (Fin 360)
               = Fin (MR T)).
  { cbn [add sub neg mul]. rewrite rem_fin by lra. reflexivity. }
  rewrite HM. clear HM.
  assert (HMrad : div (mul (Fin (MR T)) Math.PI) (Fin 180) = Fin (MradR T))
    by (fin_eval; reflexivity).
  rewrite HMrad. clear HMrad.
  assert (Hom : div (mul (sub (Fin 125.04) (mul (Fin 1934.136) (Fin T))) Math.PI) (Fin 180)
                = Fin (omegaR T * PI / 180)) by (fin_eval; reflexivity).
  rewrite Hom. clear Hom.
  assert (Heps : div (mul (add
                   (sub (add (add (Fin 23) (div (Fin 26) (Fin 60)))
                             (div (Fin 21.448) (Fin 3600)))
                        (mul (Fin T) (add (div (Fin 46.8150) (Fin 3600))
                           (mul (Fin T) (sub (div (Fin 0.00059) (Fin 3600))
                              (div (mul (Fin T) (Fin 0.001813)) (Fin 3600)))))))
                   (mul (Fin 0.00256) (Math.cos (Fin (omegaR T * PI / 180)))))
                   Math.PI) (Fin 180)
                 = Fin (epsRadR T)) by (fin_eval; reflexivity).
  rewrite Heps. clear Heps.
  assert (Hlam : div (mul (sub (sub
                   (add (Fin (L0R T))
                      (add (add (mul (Math.sin (Fin (MradR T)))
                                   (sub (Fin 1.914602) (mul (Fin T)
                                      (add (Fin 0.004817) (mul (Fin 0.000014) (Fin T))))))
                                (mul (Math.sin (mul (Fin 2) (Fin (MradR T))))
                                   (sub (Fin 0.019993) (mul (Fin 0.000101) (Fin T)))))
                           (mul (Math.sin (mul (Fin 3) (Fin (MradR T)))) (Fin 0.000289))))
                   (Fin 0.00569))
                   (mul (Fin 0.00478) (Math.sin (Fin (omegaR T * PI / 180)))))
                   Math.PI) (Fin 180)
                 = Fin (lambdaRadR T)) by (fin_eval; reflexivity).
  rewrite Hlam. clear Hlam.
  cbn [declRad eqtHours]. split.
  - cbn [Math.sin lift mul]. rewrite asin_fin by apply sin_mul_sin_range. reflexivity.
  - intros Hcos.
    assert (Hhalf : div (Fin (epsRadR T)) (Fin 2) = Fin (epsRadR T / 2))
      by (apply div_fin; lra).
    rewrite Hhalf, (tan_fin _ Hcos). fin_eval. reflexivity.
Qed.

(* ------------------------------------------------------------------ *)
(** ** Numerical bounds: the first days of January 2000 *)

Lemma PI_bounds : 3.1415 < PI < 3.1422.
Proof.
  pose proof (PI_2_3_7_ineq 1) as [Hlo Hhi].
  unfold sum_f_R0, tg_alt, PI_2_3_7_tg, Ratan_seq in Hlo, Hhi.
  simpl in Hlo, Hhi.
  split; lra.
Qed.

Lemma Rtrunc_unit (x : R) : 0 <= x < 1 -> Rtrunc x = 0.
Proof.
  intros [H0 H1]. unfold Rtrunc. rewrite Rleb_of_le by exact H0.
  rewrite <- (Int_part_spec x 0%Z); [reflexivity|]. simpl. lra.
Qed.

Lemma sin_lb_poly (x : R) : sin_lb x = x - x^3/6 + x^5/120 - x^7/5040.
Proof.
  unfold sin_lb, sin_approx, sum_f_R0, sin_term.
  rewrite !INR_IZR_INZ.
  change (Z.of_nat (fact (2 * 0 + 1))) with 1%Z.
  change (Z.of_nat (fact (2 * 1 + 1))) with 6%Z.
  change (Z.of_nat (fact (2 * 2 + 1))) with 120%Z.
  change (Z.of_nat (fact (2 * 3 + 1))) with 5040%Z.
  simpl. field.
Qed.

Lemma cos_lb_poly (x : R) : cos_lb x = 1 - x^2/2 + x^4/24 - x^6/720.
Proof.
  unfold cos_lb, cos_approx, sum_f_R0, cos_term.
  rewrite !INR_IZR_INZ.
  change (Z.of_nat (fact (2 * 0))) with 1%Z.
  change (Z.of_nat (fact (2 * 1))) with 2%Z.
  change (Z.of_nat (fact (2 * 2))) with 24%Z.
  change (Z.of_nat (fact (2 * 3))) with 720%Z.
  simpl. field.
Qed.


Lemma sin_approx2_poly (x : R) : sin_approx x 2 = x - x^3/6 + x^5/120.
Proof.
  unfold sin_approx, sum_f_R0, sin_term.
  rewrite !INR_IZR_INZ.
  change (Z.of_nat (fact (2 * 0 + 1))) with 1%Z.
  change (Z.of_nat (fact (2 * 1 + 1))) with 6%Z.
  change (Z.of_nat (fact (2 * 2 + 1))) with 120%Z.
  simpl. field.
Qed.

Lemma PI2_bounds : 1.57 < PI / 2 < 1.58.
Proof. pose proof PI_bounds. lra. Qed.

(** Taylor bounds of the sine and the cosine on the first quadrant. *)
Lemma sin_taylor_lower (x : R) :
  0 <= x <= 1.57 -> x - x^3/6 + x^5/120 - x^7/5040 <= sin x.
Proof.
  intros Hx. pose proof PI_bounds.
  rewrite <- sin_lb_poly. apply SIN; lra.
Qed.

Lemma sin_taylor_upper (x : R) :
  0 <= x <= 1.57 -> sin x <= x - x^3/6 + x^5/120.
Proof.
  intros Hx. pose proof PI_bounds.
  rewrite <- sin_approx2_poly.
  apply (sin_bound x 0); lra.
Qed.

Lemma cos_taylor_lower (x : R) :
  0 <= x <= 1.57 -> 1 - x^2/2 + x^4/24 - x^6/720 <= cos x.
Proof.
  intros Hx. pose proof PI_bounds.
  rewrite <- cos_lb_poly. apply COS; lra.
Qed.


(** Monotone versions: bounds of [sin x] and [cos x] from rational bounds
    of [x]. *)
Lemma sin_ge (q x : R) :
  0 <= q -> q <= x -> x <= 1.57 -> q - q^3/6 + q^5/120 - q^7/5040 <= sin x.
Proof.
  intros Hq Hqx Hx. pose proof PI2_bounds.
  apply Rle_trans with (sin q); [apply sin_taylor_lower; lra|].
  apply sin_incr_1; lra.
Qed.

Lemma sin_le (q x : R) :
  0 <= x -> x <= q -> q <= 1.57 -> sin x <= q - q^3/6 + q^5/120.
Proof.
  intros Hq Hqx Hx. pose proof PI2_bounds.
  apply Rle_trans with (sin q); [|apply sin_taylor_upper; lra].
  apply sin_incr_1; lra.
Qed.

Lemma cos_ge (q x : R) :
  0 <= x -> x <= q -> q <= 1.57 -> 1 - q^2/2 + q^4/24 - q^6/720 <= cos x.
Proof.
  intros Hq Hqx Hx. pose proof PI_bounds.
  apply Rle_trans with (cos q); [apply cos_taylor_lower; lra|].
  apply cos_decr_1; lra.
Qed.


Section EarlyJanuary2000.
Variable T : R.
Hypothesis HT : 0 <= T <= 3 / 100000.

Lemma epsR_bounds : 23.436 <= epsR T <= 23.442.
Proof.
  unfold epsR. pose proof (COS_bound (omegaR T * PI / 180)) as [Hc1 Hc2].
  assert (H : 0 <= T * (46.8150 / 3600 + T * (0.00059 / 3600 - T * 0.001813 / 3600))
              <= 1 / 1000000).
  { split; nra. }
  lra.
Qed.

Lemma epsRadR_bounds : 0.409 <= epsRadR T <= 0.4093.
Proof.
  unfold epsRadR. pose proof epsR_bounds. pose proof PI_bounds. split; nra.
Qed.

Lemma sin_epsRadR_bounds : 0.3976 <= sin (epsRadR T) <= 0.4093.
Proof.
  pose proof epsRadR_bounds as [H1 H2]. split.
  - eapply Rle_trans; [|apply (sin_ge 0.409); lra]. lra.
  - pose proof (sin_lt_x (epsRadR T) ltac:(lra)). lra.
Qed.

Lemma L0R_bounds : 280.466 <= L0R T <= 281.547.
Proof.
  unfold L0R. cbv zeta.
  set (x := 280.46646 + T * (36000.76983 + T * 0.0003032)).
  assert (Hx : 280.46646 <= x <= 281.547) by (unfold x; split; nra).
  rewrite Rtrunc_unit by (split; lra). lra.
Qed.

Lemma CR_bounds : -1.935 <= CR T <= 1.935.
Proof.
  unfold CR.
  pose proof (SIN_bound (MradR T)) as [? ?].
  pose proof (SIN_bound (2 * MradR T)) as [? ?].
  pose proof (SIN_bound (3 * MradR T)) as [? ?].
  assert (0 <= T * (0.004817 + 0.000014 * T) <= 1 / 1000000) by (split; nra).
  assert (0 <= 0.000101 * T <= 1 / 1000000) by (split; nra).
  split; nra.
Qed.

Lemma lambdaR_bounds : 278.5 <= lambdaR T <= 283.5.
Proof.
  unfold lambdaR. pose proof L0R_bounds. pose proof CR_bounds.
  pose proof (SIN_bound (omegaR T * PI / 180)) as [? ?]. lra.
Qed.

Lemma sin_lambdaRadR_bounds : -1 <= sin (lambdaRadR T) <= -0.972.
Proof.
  split; [apply SIN_bound|].
  pose proof lambdaR_bounds as [H1 H2]. pose proof PI_bounds as [P1 P2].
  set (u := (lambdaR T - 270) * PI / 180).
  assert (Hu : 0 <= u <= 0.2357) by (unfold u; split; nra).
  assert (E : lambdaRadR T = 3 * (PI / 2) + u) by (unfold lambdaRadR, u; field).
  rewrite E, sin_plus, sin_3PI2, cos_3PI2.
  pose proof (cos_ge 0.2357 u) as Hc. lra.
Qed.

Lemma declR_bounds : -0.4093 <= declR T <= -0.396.
Proof.
  unfold declR.
  pose proof sin_epsRadR_bounds as [E1 E2].
  pose proof sin_lambdaRadR_bounds as [L1 L2].
  pose proof epsRadR_bounds as [R1 R2].
  pose proof PI2_bounds as [P1 P2].
  set (s := sin (epsRadR T) * sin (lambdaRadR T)).
  assert (Hs : - sin (epsRadR T) <= s <= -0.3864) by (unfold s; split; nra).
  assert (Hrange : -1 <= s <= 1) by lra.
  pose proof (asin_bound s) as [B1 B2].
  pose proof (sin_asin s Hrange) as Hsin.
  split.
  - destruct (Rle_dec (- epsRadR T) (asin s)) as [H|H]; [lra|].
    exfalso. apply Rnot_le_lt in H.
    assert (sin (asin s) < sin (- epsRadR T)) by (apply sin_increasing_1; lra).
    rewrite sin_neg in *. lra.
  - pose (q := 0.396).
    destruct (Rle_dec (asin s) (- q)) as [H|H]; [unfold q in H; lra|].
    exfalso. apply Rnot_le_lt in H.
    assert (Hq : sin (- q) < sin (asin s))
      by (apply sin_increasing_1; unfold q in *; lra).
    rewrite sin_neg in Hq.
    pose proof (sin_le q q). unfold q in *. lra.
Qed.

Lemma cos_declR_bounds : 0.91 <= cos (declR T) <= 1.
Proof.
  pose proof declR_bounds as [D1 D2]. split; [|apply COS_bound].
  rewrite <- cos_neg. pose proof (cos_ge 0.4093 (- declR T)). lra.
Qed.

Lemma cos_half_epsRadR_pos : cos (epsRadR T / 2) <> 0.
Proof.
  pose proof epsRadR_bounds. pose proof PI2_bounds.
  apply Rgt_not_eq, cos_gt_0; lra.
Qed.
End EarlyJanuary2000.

(* ------------------------------------------------------------------ *)
(** ** Evaluation of the crossing on finite inputs *)

Lemma jdn_J2000 : jdn (utcNoon (MkDate 2000 0 1)) = Fin 2451545.
Proof. reflexivity. Qed.

Lemma jdn_J2000_next : jdn (utcNoon (MkDate 2000 0 2)) = Fin 2451546.
Proof. reflexivity. Qed.

Lemma centuryR_J2000 : centuryR 2451545 = 0.
Proof. unfold centuryR. lra. Qed.

Lemma centuryR_J2000_next : 0 <= centuryR 2451546 <= 3 / 100000.
Proof. unfold centuryR. lra. Qed.

Lemma cosHourAngle_fin (j latR altR : R) :
  cos (latR * PI / 180) * cos (declR (centuryR j)) <> 0 ->
  cosHourAngle (Fin j) (Fin latR) (Fin altR) = Fin (cosHR (centuryR j) latR altR).
Proof.
  intros Hden. unfold cosHourAngle.
  rewrite (proj1 (solar_fin j)). fin_eval. reflexivity.
Qed.

Lemma horizonCrossing_unfold (jd lat lng tz altDeg : num) :
  horizonCrossing jd lat lng tz altDeg
  = let cosH := cosHourAngle jd lat altDeg in
    if ltb cosH (Fin (-1)) || gtb cosH (Fin 1) then (NaN, NaN)
    else
      let H := div (mul (Math.acos cosH) (Fin 180)) Math.PI in
      let noon := solarNoon jd lng tz in
      (sub noon (div H (Fin 15)), add noon (div H (Fin 15))).
Proof.
  unfold horizonCrossing, cosHourAngle, solarNoon.
  now destruct (solar jd).
Qed.

Lemma hourAngle_fin (c : R) :
  -1 <= c <= 1 ->
  div (div (mul (Math.acos (Fin c)) (Fin 180)) Math.PI) (Fin 15)
  = Fin (hourAngleHours c).
Proof. intros Hc. rewrite (acos_fin c Hc). fin_eval. reflexivity. Qed.


(** With [cos(H)] in [-1, 1] the crossing is [noon -/+ H/15], for any
    longitude and UTC offset. *)
Lemma horizonCrossing_some (j latR altR : R) (lng tz : num) :
  cos (latR * PI / 180) * cos (declR (centuryR j)) <> 0 ->
  -1 <= cosHR (centuryR j) latR altR <= 1 ->
  horizonCrossing (Fin j) (Fin latR) lng tz (Fin altR)
  = (sub (solarNoon (Fin j) lng tz)
         (Fin (hourAngleHours (cosHR (centuryR j) latR altR))),
     add (solarNoon (Fin j) lng tz)
         (Fin (hourAngleHours (cosHR (centuryR j) latR altR)))).
Proof.
  intros Hden Hin. rewrite horizonCrossing_unfold, (cosHourAngle_fin _ _ _ Hden).
  cbv zeta. unfold gtb. cbn [ltb].
  rewrite !Rltb_of_ge by lra. cbn [orb].
  now rewrite (hourAngle_fin _ Hin).
Qed.

Lemma solarNoon_fin (j lngR tzR : R) :
  cos (epsRadR (centuryR j) / 2) <> 0 ->
  solarNoon (Fin j) (Fin lngR) (Fin tzR) = Fin (noonR (centuryR j) lngR tzR).
Proof.
  intros Hcos. unfold solarNoon.
  rewrite (proj2 (solar_fin j) Hcos). fin_eval. reflexivity.
Qed.

Lemma predict_fin (date : Date) (j latR lngR tzR a : R) :
  jdn (utcNoon date) = Fin j ->
  cos (epsRadR (centuryR j) / 2) <> 0 ->
  cos (latR * PI / 180) * cos (declR (centuryR j)) <> 0 ->
  -1 <= cosHR (centuryR j) latR (- a) <= 1 ->
  predictFajr date (Fin latR) (Fin lngR) (Fin tzR) (Fin a)
  = Fin (noonR (centuryR j) lngR tzR - hourAngleHours (cosHR (centuryR j) latR (- a)))
  /\ predictIsha date (Fin latR) (Fin lngR) (Fin tzR) (Fin a)
     = Fin (noonR (centuryR j) lngR tzR + hourAngleHours (cosHR (centuryR j) latR (- a))).
Proof.
  intros Hj Heps Hden Hin. unfold predictFajr, predictIsha.
  rewrite Hj. cbn [neg].
  rewrite (horizonCrossing_some _ _ _ _ _ Hden Hin), (solarNoon_fin _ _ _ Heps).
  split; reflexivity.
Qed.


(* ------------------------------------------------------------------ *)
(** ** The equator in the first days of January 2000 *)

Section Equator.
Variable T : R.
Hypothesis HT : 0 <= T <= 3 / 100000.

Lemma equator_den : cos (0 * PI / 180) * cos (declR T) <> 0.
Proof.
  replace (0 * PI / 180) with 0 by lra. rewrite cos_0.
  pose proof (cos_declR_bounds T HT). lra.
Qed.

Lemma equator_cosHR (a : R) : 0 <= a <= 25 -> -0.5 <= cosHR T 0 (- a) <= 0.
Proof.
  intros Ha. unfold cosHR.
  replace (0 * PI / 180) with 0 by lra. rewrite sin_0, cos_0.
  replace (- a * PI / 180) with (- (a * PI / 180)) by lra. rewrite sin_neg.
  pose proof (cos_declR_bounds T HT) as [D1 D2].
  pose proof PI_bounds as [P1 P2].
  assert (Hs : 0 <= sin (a * PI / 180) <= 0.44).
  { split.
    - apply sin_ge_0; nra.
    - destruct (Req_dec a 0) as [->|Hne].
      + replace (0 * PI / 180) with 0 by lra. rewrite sin_0. lra.
      + pose proof (sin_lt_x (a * PI / 180) ltac:(nra)). nra. }
  replace ((- sin (a * PI / 180) - 0 * sin (declR T)) / (1 * cos (declR T)))
    with (- (sin (a * PI / 180) / cos (declR T))) by (field; lra).
  assert (Hq : 0 <= sin (a * PI / 180) / cos (declR T) <= 0.5).
  { split.
    - apply Rmult_le_pos; [lra|]. left. apply Rinv_0_lt_compat. lra.
    - apply Rmult_le_reg_r with (cos (declR T)); [lra|].
      replace (sin (a * PI / 180) / cos (declR T) * cos (declR T))
        with (sin (a * PI / 180)) by (field; lra).
      nra. }
  lra.
Qed.
End Equator.

Lemma J2000_in_range : 0 <= centuryR 2451545 <= 3 / 100000.
Proof. rewrite centuryR_J2000. lra. Qed.

Lemma horizonCrossing_meets_spec_witness :
  (inUnitRange (cosHourAngle NaN (Fin 21.4225) (Fin (-15))) = false
   /\ horizonCrossing NaN (Fin 21.4225) (Fin 39.8262) (Fin 3) (Fin (-15)) = (NaN, NaN))
  /\ (inUnitRange (cosHourAngle (Fin 2451545) (Fin 0) (neg (Fin 15))) = true
      /\ horizonCrossing (Fin 2451545) (Fin 0) (Fin 0) (Fin 0) (neg (Fin 15))
         = (sub (solarNoon (Fin 2451545) (Fin 0) (Fin 0))
                (div (div (mul (Math.acos
                                  (cosHourAngle (Fin 2451545) (Fin 0) (neg (Fin 15))))
                               (Fin 180)) Math.PI) (Fin 15)),
            add (solarNoon (Fin 2451545) (Fin 0) (Fin 0))
                (div (div (mul (Math.acos
                                  (cosHourAngle (Fin 2451545) (Fin 0) (neg (Fin 15))))
                               (Fin 180)) Math.PI) (Fin 15)))).
Proof.
  assert (Hout : inUnitRange (cosHourAngle NaN (Fin 21.4225) (Fin (-15))) = false).
  { unfold cosHourAngle. rewrite solar_nan. cbn [declRad].
    autorewrite with num_nan. reflexivity. }
  assert (Hin : inUnitRange (cosHourAngle (Fin 2451545) (Fin 0) (neg (Fin 15))) = true).
  { cbn [neg]. rewrite cosHourAngle_fin by (apply equator_den, J2000_in_range).
    pose proof (equator_cosHR _ J2000_in_range 15 ltac:(lra)) as [H1 H2].
    unfold inUnitRange. cbn [leb].
    rewrite !Rleb_of_le; [reflexivity | lra | lra]. }
  split; split; [exact Hout | | exact Hin |].
  - exact (proj1 (proj2 (horizonCrossing_meets_spec NaN (Fin 21.4225) (Fin 39.8262)
                           (Fin 3) (Fin (-15)))) Hout).
  - exact (proj2 (proj2 (horizonCrossing_meets_spec (Fin 2451545) (Fin 0) (Fin 0)
                           (Fin 0) (neg (Fin 15)))) Hin).
Defined.

(** At the equator on 2000-01-01 the crossings of 15 and 18 degrees exist. *)
Lemma equator_predictions (a : R) :
  0 <= a <= 25 ->
  exists f i,
    predictFajr (MkDate 2000 0 1) (Fin 0) (Fin 0) (Fin 0) (Fin a) = Fin f
    /\ predictIsha (MkDate 2000 0 1) (Fin 0) (Fin 0) (Fin 0) (Fin a) = Fin i.
Proof.
  intros Ha.
  destruct (predict_fin (MkDate 2000 0 1) 2451545 0 0 0 a jdn_J2000) as [Hf Hi].
  - apply cos_half_epsRadR_pos, J2000_in_range.
  - apply equator_den, J2000_in_range.
  - pose proof (equator_cosHR _ J2000_in_range a Ha). lra.
  - eauto.
Qed.

(* ------------------------------------------------------------------ *)
(** ** Totality: what the predictors return on every input *)

Lemma horizonCrossing_cases (jd lat lng tz altDeg : num) :
  horizonCrossing jd lat lng tz altDeg = (NaN, NaN)
  \/ exists c, -1 <= c <= 1
       /\ cosHourAngle jd lat altDeg = Fin c
       /\ horizonCrossing jd lat lng tz altDeg
          = (sub (solarNoon jd lng tz) (Fin (hourAngleHours c)),
             add (solarNoon jd lng tz) (Fin (hourAngleHours c))).
Proof.
  rewrite horizonCrossing_unfold. cbv zeta.
  destruct (cosHourAngle jd lat altDeg) as [c| | |]; unfold gtb; cbn [ltb orb].
  - destruct (Rlt_dec c (-1)) as [Hlo|Hlo].
    { rewrite (Rltb_of_lt _ _ Hlo). now left. }
    destruct (Rlt_dec 1 c) as [Hhi|Hhi].
    { rewrite (Rltb_of_lt _ _ Hhi), orb_true_r. now left. }
    rewrite !Rltb_of_ge by lra. cbn [orb].
    right. exists c. split; [lra|]. split; [reflexivity|].
    rewrite hourAngle_fin by lra. reflexivity.
  - now left.
  - now left.
  - left. autorewrite with num_nan. reflexivity.
Qed.

Lemma sub_fin_finiteOrNaN (x : num) (h : R) :
  x <> PInf -> x <> NInf -> finiteOrNaN (sub x (Fin h)) = true.
Proof. destruct x; intros H1 H2; try reflexivity; congruence. Qed.

Lemma add_fin_finiteOrNaN (x : num) (h : R) :
  x <> PInf -> x <> NInf -> finiteOrNaN (add x (Fin h)) = true.
Proof. destruct x; intros H1 H2; try reflexivity; congruence. Qed.

(** With [tz = Infinity] at the equator on 2000-01-01, the predicted dawn
    for 15 degrees is [Infinity]: neither finite nor [NaN]. *)
Lemma predictFajr_infinite_offset :
  predictFajr (MkDate 2000 0 1) (Fin 0) (Fin 0) PInf (Fin 15) = PInf
  /\ finiteOrNaN (predictFajr (MkDate 2000 0 1) (Fin 0) (Fin 0) PInf (Fin 15)) = false.
Proof.
  assert (H : predictFajr (MkDate 2000 0 1) (Fin 0) (Fin 0) PInf (Fin 15) = PInf).
  { unfold predictFajr. rewrite jdn_J2000. cbn [neg].
    rewrite horizonCrossing_some.
    - unfold solarNoon.
      rewrite (proj2 (solar_fin 2451545)
                 (cos_half_epsRadR_pos _ J2000_in_range)).
      fin_eval. reflexivity.
    - apply equator_den, J2000_in_range.
    - pose proof (equator_cosHR _ J2000_in_range 15). lra. }
  split; [exact H|]. now rewrite H.
Qed.

(** C10 (amended). The predictors are total functions. On every input
    [horizonCrossing] returns the pair [(NaN, NaN)] or, with [cos(H)] a
    number [c] of [-1, 1], the pair [noon -/+ H/15]; so both results are
    finite or [NaN] as soon as solar noon is not an infinity (as it is with
    an infinite longitude or UTC offset). *)
Theorem predict_finite_or_nan (date : Date) (lat lng tz angle : num) :
  let jd := jdn (utcNoon date) in
  let dawn := predictFajr date lat lng tz angle in
  let dusk := predictIsha date lat lng tz angle in
  ((dawn = NaN /\ dusk = NaN)
   \/ exists c, -1 <= c <= 1
        /\ cosHourAngle jd lat (neg angle) = Fin c
        /\ dawn = sub (solarNoon jd lng tz) (Fin (hourAngleHours c))
        /\ dusk = add (solarNoon jd lng tz) (Fin (hourAngleHours c)))
  /\ (solarNoon jd lng tz <> PInf -> solarNoon jd lng tz <> NInf ->
      finiteOrNaN dawn = true /\ finiteOrNaN dusk = true).
Proof.
  intros jd dawn dusk.
  assert (Hcases :
            (dawn = NaN /\ dusk = NaN)
            \/ exists c, -1 <= c <= 1
                 /\ cosHourAngle jd lat (neg angle) = Fin c
                 /\ dawn = sub (solarNoon jd lng tz) (Fin (hourAngleHours c))
                 /\ dusk = add (solarNoon jd lng tz) (Fin (hourAngleHours c))).
  { unfold dawn, dusk, predictFajr, predictIsha. fold jd.
    destruct (horizonCrossing_cases jd lat lng tz (neg angle))
      as [-> | (c & Hc & Hcos & ->)].
    - left. split; reflexivity.
    - right. exists c. repeat split; auto; lra. }
  split; [exact Hcases|].
  intros Hp Hn. destruct Hcases as [[-> ->] | (c & _ & _ & -> & ->)].
  - split; reflexivity.
  - split; [now apply sub_fin_finiteOrNaN | now apply add_fin_finiteOrNaN].
Qed.

Lemma predict_finite_or_nan_witness :
  finiteOrNaN (predictFajr (MkDate 2000 0 1) (Fin 0) (Fin 0) (Fin 0) (Fin 15)) = true
  /\ finiteOrNaN (predictIsha (MkDate 2000 0 1) (Fin 0) (Fin 0) (Fin 0) (Fin 15)) = true.
Proof.
  apply (proj2 (predict_finite_or_nan (MkDate 2000 0 1) (Fin 0) (Fin 0) (Fin 0) (Fin 15)));
    rewrite jdn_J2000,
      (solarNoon_fin 2451545 0 0 (cos_half_epsRadR_pos _ J2000_in_range));
    discriminate.
Defined.

(* ------------------------------------------------------------------ *)
(** ** The two losses *)

Lemma fajrLoss_lossOf : fajrLoss = lossOf predictFajr fajr.
Proof. reflexivity. Qed.

Lemma ishaLoss_lossOf : ishaLoss = lossOf predictIsha isha.
Proof. reflexivity. Qed.

#[local] Arguments mul !x !y : simpl nomatch.
#[local] Arguments add !x !y : simpl nomatch.

(* ------------------------------------------------------------------ *)
(** ** Latitude 54 South in the first days of January 2000 *)


Lemma ratio_in_unit_range (n d : R) : 0 < d -> - d <= n <= d -> -1 <= n / d <= 1.
Proof.
  intros Hd Hn. pose proof (Rinv_0_lt_compat d Hd) as Hi.
  assert (E : d * / d = 1) by (apply Rinv_r; lra).
  unfold Rdiv. split; nra.
Qed.

Section South54.
Variable T : R.
Hypothesis HT : 0 <= T <= 3 / 100000.








End South54.

(* ------------------------------------------------------------------ *)
(** ** A synthetic data set that is not recovered *)

Lemma early_january_dates (d : Date) :
  In d [MkDate 2000 0 1; MkDate 2000 0 2] ->
  exists j, jdn (utcNoon d) = Fin j /\ 0 <= centuryR j <= 3 / 100000.
Proof.
  intros [<- | [<- | []]].
  - exists 2451545. split; [exact jdn_J2000 | exact J2000_in_range].
  - exists 2451546. split; [exact jdn_J2000_next | exact centuryR_J2000_next].
Qed.




Lemma phiR_tight : 0.6 < phiR < 0.62.
Proof.
  unfold phiR.
  assert (H1 : 2.2 < sqrt 5).
  { replace 2.2 with (sqrt (2.2 * 2.2)) by (apply sqrt_square; lra).
    apply sqrt_lt_1; lra. }
  assert (H2 : sqrt 5 < 2.24).
  { replace 2.24 with (sqrt (2.24 * 2.24)) by (apply sqrt_square; lra).
    apply sqrt_lt_1; lra. }
  lra.
Qed.



(* ------------------------------------------------------------------ *)
(** ** Convergence of the golden-section search *)

Lemma ltb_irrefl (x : num) : ltb x x = false.
Proof. destruct x; cbn; try reflexivity. apply Rltb_of_ge; lra. Qed.

Lemma ltb_asym (x y : num) : ltb x y = true -> ltb y x = false.
Proof.
  destruct x, y; cbn; try reflexivity; try discriminate.
  intros H. apply Rltb_true in H. apply Rltb_of_ge. lra.
Qed.

Lemma ltb_of_lt_leb (x y : R) (m : num) :
  x < y -> leb (Fin y) m = true -> ltb (Fin x) m = true.
Proof.
  destruct m as [r| | |]; cbn; intros Hxy H; try discriminate; try reflexivity.
  apply Rleb_true in H. apply Rltb_of_lt. lra.
Qed.

Section GoldenConvergence.
Variable f : num -> num.
Variables lo hi theta t : R.
Hypothesis Hf : unimodalAt f lo hi theta.

(** The minimiser stays in the bracket. *)
Lemma golden_keeps_left (a b x1 x2 : R) :
  golden_pos a b x1 x2 -> lo <= a -> b <= hi -> a <= theta <= b ->
  ltb (f (Fin x1)) (f (Fin x2)) = true -> theta <= x2.
Proof.
  intros Hpos Hlo Hhi Hth Hlt.
  pose proof (golden_pos_order _ _ _ _ Hpos) as (H1 & H12 & H2).
  destruct (Rle_dec theta x2) as [H|H]; [exact H|]. exfalso.
  apply Rnot_le_lt in H.
  destruct H12 as [H12|H12].
  - pose proof (proj1 Hf x1 x2 ltac:(lra) H12 ltac:(lra)) as Hdec.
    apply ltb_asym in Hdec. congruence.
  - subst x2. rewrite ltb_irrefl in Hlt. discriminate.
Qed.

Lemma golden_keeps_right (a b x1 x2 : R) :
  golden_pos a b x1 x2 -> lo <= a -> b <= hi -> a <= theta <= b ->
  ltb (f (Fin x1)) (f (Fin x2)) = false -> x1 <= theta.
Proof.
  intros Hpos Hlo Hhi Hth Hlt.
  pose proof (golden_pos_order _ _ _ _ Hpos) as (H1 & H12 & H2).
  destruct (Rle_dec x1 theta) as [H|H]; [exact H|]. exfalso.
  apply Rnot_le_lt in H.
  destruct H12 as [H12|H12].
  - pose proof (proj2 Hf x1 x2 ltac:(lra) H12 ltac:(lra)) as Hinc. congruence.
  - destruct Hpos as (Hab & E1 & E2). pose proof phiR_bounds. nra.
Qed.

Lemma Rabs_mid (a b : R) : a <= theta <= b -> Rabs ((a + b) / 2 - theta) <= (b - a) / 2.
Proof. intros H. apply Rabs_le. lra. Qed.

Variable maxIter : num.

(** The search ends within half the tolerance of the minimiser, when the
    budget leaves [d] passes and [d] passes bring the width of the bracket
    below the tolerance. *)
Lemma goldenLoop_converges (fuel : nat) :
  forall (d k : nat) (a b x1 x2 : R) (v : num),
    golden_pos a b x1 x2 -> lo <= a -> b <= hi -> a <= theta <= b ->
    phiR ^ d * (b - a) <= t ->
    leb (Fin (INR (k + d))) maxIter = true ->
    INR (k + d) <= 9007199254740992 ->
    goldenLoop f (Fin t) maxIter fuel (Fin (INR k)) (Fin a) (Fin b) (Fin x1) (Fin x2)
               (f (Fin x1)) (f (Fin x2)) = Some v ->
    exists r, v = Fin r /\ Rabs (r - theta) <= t / 2.
Proof.
  induction fuel as [|fuel IH]; intros d k a b x1 x2 v Hpos Hlo Hhi Hth Hw Hb Hlim;
    [discriminate|].
  rewrite goldenLoop_step.
  change (gtb (sub (Fin b) (Fin a)) (Fin t)) with (Rltb t (b - a)).
  destruct (Rlt_dec t (b - a)) as [Hgt|Hle].
  - destruct d as [|d]; [simpl in Hw; lra|].
    assert (Hk : ltb (Fin (INR k)) maxIter = true).
    { apply (ltb_of_lt_leb _ (INR (k + S d))); [|exact Hb].
      apply lt_INR. lia. }
    assert (Hk' : INR k < 9007199254740992).
    { apply Rlt_le_trans with (INR (k + S d)); [apply lt_INR; lia | exact Hlim]. }
    rewrite Hk, (Rltb_of_lt _ _ Hgt). cbn [andb]. rewrite (counter_succ k Hk').
    pose proof (golden_pos_order _ _ _ _ Hpos) as (H1 & H12 & H2).
    pose proof phiR_bounds as HP. pose proof (pow_le phiR d ltac:(lra)) as Hpow.
    rewrite <- Nat.add_succ_comm in Hb, Hlim.
    destruct (ltb (f (Fin x1)) (f (Fin x2))) eqn:Hcmp.
    + pose proof (golden_keeps_left _ _ _ _ Hpos Hlo Hhi Hth Hcmp) as Hkeep.
      rewrite golden_step_left. intros H.
      apply (IH d (S k) _ _ _ _ v (golden_pos_left _ _ _ _ Hpos)) in H;
        try lra; [exact H | | exact Hb].
      destruct Hpos as (_ & _ & E2). rewrite E2. simpl in Hw. nra.
    + pose proof (golden_keeps_right _ _ _ _ Hpos Hlo Hhi Hth Hcmp) as Hkeep.
      rewrite golden_step_right. intros H.
      apply (IH d (S k) _ _ _ _ v (golden_pos_right _ _ _ _ Hpos)) in H;
        try lra; [exact H | | exact Hb].
      destruct Hpos as (_ & E1 & _). rewrite E1. simpl in Hw. nra.
  - rewrite (Rltb_of_ge t (b - a)) by lra. rewrite andb_false_r.
    rewrite midpoint_fin. intros H; injection H as <-.
    eexists; split; [reflexivity|].
    pose proof (Rabs_mid a b Hth). lra.
Qed.

(** Golden-section search on a loss that is unimodal at [theta] returns,
    when it ends, a point within half the tolerance of [theta], provided the
    budget allows the [d] passes that bring the width below the tolerance. *)
Lemma goldenSection_converges (d fuel : nat) (v : num) :
  lo <= theta <= hi ->
  phiR ^ d * (hi - lo) <= t ->
  leb (Fin (INR d)) maxIter = true ->
  INR d <= 9007199254740992 ->
  goldenSection f (Fin lo) (Fin hi) (Fin t) maxIter fuel = Some v ->
  exists r, v = Fin r /\ Rabs (r - theta) <= t / 2.
Proof.
  intros Hth Hw Hb Hlim. unfold goldenSection.
  rewrite golden_step_left, golden_step_right.
  change (Fin 0) with (Fin (INR 0)).
  apply (goldenLoop_converges fuel d 0); try lra;
    [repeat split; lra | exact Hb | exact Hlim].
Qed.

(** It ends within [d + 1] tests of the condition. *)
Lemma goldenSection_ends (g : num -> num) (d fuel : nat) :
  lo <= hi -> phiR ^ d * (hi - lo) <= t -> (d < fuel)%nat ->
  exists v, goldenSection g (Fin lo) (Fin hi) (Fin t) maxIter fuel = Some v.
Proof.
  intros Hle Hw Hfuel. unfold goldenSection.
  rewrite golden_step_left, golden_step_right.
  apply (goldenLoop_ends_by_tolerance g t maxIter d); [repeat split; lra | exact Hw | exact Hfuel].
Qed.
End GoldenConvergence.

(* ------------------------------------------------------------------ *)
(** ** The loss of a synthetic data set *)

Lemma fold_sum_lt_init {A : Type} (g1 g2 : A -> R) (l : list A) :
  Forall (fun o => g1 o <= g2 o) l ->
  forall a1 a2, a1 < a2 ->
    fold_left (fun acc o => acc + g1 o) l a1 < fold_left (fun acc o => acc + g2 o) l a2.
Proof.
  induction 1 as [|o l Ho _ IH]; intros a1 a2 Ha; [exact Ha|].
  cbn [fold_left]. apply IH. lra.
Qed.

Lemma fold_sum_lt {A : Type} (g1 g2 : A -> R) (l : list A) (a : R) :
  l <> [] -> Forall (fun o => g1 o < g2 o) l ->
  fold_left (fun acc o => acc + g1 o) l a < fold_left (fun acc o => acc + g2 o) l a.
Proof.
  intros Hne Hall. destruct Hall as [|o l Ho Hl]; [congruence|].
  cbn [fold_left]. apply fold_sum_lt_init; [|lra].
  eapply Forall_impl; [|exact Hl]. cbn. intros; lra.
Qed.

Section LossShape.
Variable predict : Date -> num -> num -> num -> num -> num.
Variable observed : Observation -> option num.
Variable sgn : R.
Variables lo hi theta : R.

Hypothesis Hsgn : sgn * sgn = 1.
Hypothesis Hmono :
  forall date lng tz latR a1 a2 p1 p2,
    -90 < latR < 90 -> -90 <= a1 -> a1 < a2 -> a2 <= 90 ->
    predict date (Fin latR) lng tz (Fin a1) = Fin p1 ->
    predict date (Fin latR) lng tz (Fin a2) = Fin p2 ->
    sgn * p2 < sgn * p1.
Hypothesis Hlo : -90 <= lo.
Hypothesis Hhi : hi <= 90.
Hypothesis Htheta : lo <= theta <= hi.

Lemma generatedAt_pred (o : Observation) (a : R) :
  generatedAt predict observed lo hi theta o -> lo <= a <= hi ->
  predict (date o) (lat o) (lng o) (tz o) (Fin a) = Fin (predR predict o a).
Proof.
  intros (_ & _ & Hfin & _) Ha. unfold predR.
  destruct (proj1 (isFinite_true _) (Hfin a Ha)) as [r ->]. reflexivity.
Qed.

Lemma lossOf_fin (l : list Observation) (a : R) :
  Forall (generatedAt predict observed lo hi theta) l -> lo <= a <= hi ->
  lossOf predict observed l (Fin a)
  = Fin (fold_left (fun acc o => acc + lossTerm predict theta o a) l 0).
Proof.
  intros Hall Ha. unfold lossOf. generalize 0 as acc.
  induction Hall as [|o l Ho _ IH]; intros acc; [reflexivity|].
  cbn [fold_left]. rewrite <- IH. f_equal.
  pose proof (generatedAt_pred o a Ho Ha) as Hp.
  pose proof (generatedAt_pred o theta Ho Htheta) as Ht.
  destruct Ho as (_ & Hobs & _ & (w & Hw & _)).
  rewrite Hobs, Hp, Ht. unfold lossTerm. rewrite Hw.
  reflexivity.
Qed.

Lemma pred_order (o : Observation) (x y : R) :
  generatedAt predict observed lo hi theta o ->
  lo <= x -> x < y -> y <= hi ->
  sgn * predR predict o y < sgn * predR predict o x.
Proof.
  intros Ho Hx Hxy Hy.
  pose proof (generatedAt_pred o x Ho ltac:(lra)) as Px.
  pose proof (generatedAt_pred o y Ho ltac:(lra)) as Py.
  destruct Ho as ((latR & Hlat & Hrange) & _).
  rewrite Hlat in Px, Py.
  apply (Hmono _ _ _ _ x y _ _ Hrange ltac:(lra) Hxy ltac:(lra) Px Py).
Qed.

Lemma sq_order (w dx dy : R) :
  0 < w -> 0 <= sgn * dy -> sgn * dy < sgn * dx ->
  w * (dy * 60) * (dy * 60) < w * (dx * 60) * (dx * 60).
Proof.
  intros Hw H0 Hlt.
  assert (E : forall d, d * d = (sgn * d) * (sgn * d)).
  { intros d. replace (sgn * d * (sgn * d)) with (sgn * sgn * (d * d)) by ring.
    rewrite Hsgn. ring. }
  assert (Hsq : dy * dy < dx * dx) by (rewrite (E dy), (E dx); nra).
  nra.
Qed.

Lemma lossTerm_decreasing (o : Observation) (x y : R) :
  generatedAt predict observed lo hi theta o ->
  lo <= x -> x < y -> y <= theta ->
  lossTerm predict theta o y < lossTerm predict theta o x.
Proof.
  intros Ho Hx Hxy Hy.
  pose proof (pred_order o x y Ho Hx Hxy ltac:(lra)) as Hxy'.
  assert (Hyt : sgn * predR predict o theta <= sgn * predR predict o y).
  { destruct Hy as [Hy|Hy].
    - left. apply (pred_order o y theta Ho); lra.
    - subst y. lra. }
  destruct Ho as (_ & _ & _ & (w & Hw & Hpos)).
  unfold lossTerm. rewrite Hw. cbn [toR].
  apply sq_order; [exact Hpos | lra | lra].
Qed.

Lemma lossTerm_increasing (o : Observation) (x y : R) :
  generatedAt predict observed lo hi theta o ->
  theta <= x -> x < y -> y <= hi ->
  lossTerm predict theta o x < lossTerm predict theta o y.
Proof.
  intros Ho Hx Hxy Hy.
  pose proof (pred_order o x y Ho ltac:(lra) Hxy Hy) as Hxy'.
  assert (Hxt : sgn * predR predict o x <= sgn * predR predict o theta).
  { destruct Hx as [Hx|Hx].
    - left. apply (pred_order o theta x Ho); lra.
    - subst x. lra. }
  destruct Ho as (_ & _ & _ & (w & Hw & Hpos)).
  unfold lossTerm. rewrite Hw. cbn [toR].
  replace (w * ((predR predict o x - predR predict o theta) * 60) * ((predR predict o x - predR predict o theta) * 60))
    with (w * ((predR predict o theta - predR predict o x) * 60) * ((predR predict o theta - predR predict o x) * 60))
    by ring.
  replace (w * ((predR predict o y - predR predict o theta) * 60) * ((predR predict o y - predR predict o theta) * 60))
    with (w * ((predR predict o theta - predR predict o y) * 60) * ((predR predict o theta - predR predict o y) * 60))
    by ring.
  apply sq_order; [exact Hpos | lra | lra].
Qed.

(** The loss of a non-empty synthetic data set is unimodal at [theta]. *)
Lemma lossOf_unimodal (l : list Observation) :
  l <> [] -> Forall (generatedAt predict observed lo hi theta) l ->
  unimodalAt (lossOf predict observed l) lo hi theta.
Proof.
  intros Hne Hall. split; intros x y Hx Hxy Hy.
  - rewrite !lossOf_fin by (auto; lra). cbn [ltb]. apply Rltb_of_lt.
    apply fold_sum_lt; [exact Hne|].
    eapply Forall_impl; [|exact Hall]. cbn. intros o Ho.
    now apply lossTerm_decreasing.
  - rewrite !lossOf_fin by (auto; lra). cbn [ltb]. apply Rltb_of_lt.
    apply fold_sum_lt; [exact Hne|].
    eapply Forall_impl; [|exact Hall]. cbn. intros o Ho.
    now apply lossTerm_increasing.
Qed.
End LossShape.

(* ------------------------------------------------------------------ *)
(** ** Recovery of the generating angle *)

Lemma subset_nonempty (l : list Observation) : (2 <= length l)%nat -> l <> [].
Proof. destruct l; cbn; [lia | discriminate]. Qed.

(** The fit of one prayer over a synthetic subset. *)
Lemma fit_recovers (predict : Date -> num -> num -> num -> num -> num)
    (observed : Observation -> option num) (sgn : R)
    (subset : list Observation) (lo hi theta t : R) (maxIter guess v : num)
    (d fuel : nat) :
  sgn * sgn = 1 ->
  (forall date lng tz latR a1 a2 p1 p2,
      -90 < latR < 90 -> -90 <= a1 -> a1 < a2 -> a2 <= 90 ->
      predict date (Fin latR) lng tz (Fin a1) = Fin p1 ->
      predict date (Fin latR) lng tz (Fin a2) = Fin p2 ->
      sgn * p2 < sgn * p1) ->
  -90 <= lo -> lo <= theta <= hi -> hi <= 90 ->
  phiR ^ d * (hi - lo) <= t ->
  leb (Fin (INR d)) maxIter = true ->
  INR d <= 9007199254740992 ->
  (2 <= length subset)%nat ->
  Forall (generatedAt predict observed lo hi theta) subset ->
  fittedOrGuess (lossOf predict observed subset) subset
    (Fin lo) (Fin hi) (Fin t) maxIter guess fuel = Some v ->
  exists a, v = Fin a /\ Rabs (a - theta) <= t / 2.
Proof.
  intros Hsgn Hmono Hlo Hth Hhi Hw Hbudget Hlim Hlen Hall.
  unfold fittedOrGuess. apply Nat.leb_le in Hlen as Hlen'. rewrite Hlen'.
  apply (goldenSection_converges (lossOf predict observed subset) lo hi theta t
           (lossOf_unimodal predict observed sgn lo hi theta Hsgn Hmono
              Hlo Hhi Hth subset (subset_nonempty _ Hlen) Hall)
           maxIter d fuel v Hth Hw Hbudget Hlim).
Qed.


Lemma sq_le_bound (w r eps : R) :
  0 < w -> Rabs r <= eps -> 0 <= w * r * r <= eps * eps * w.
Proof.
  intros Hw Hr. assert (H0 : 0 <= Rabs r) by apply Rabs_pos.
  assert (E : r * r = Rabs r * Rabs r).
  { unfold Rabs. destruct (Rcase_abs r); ring. }
  replace (w * r * r) with (w * (r * r)) by ring. rewrite E.
  set (q := Rabs r) in *.
  assert (Hq : 0 <= q * q <= eps * eps) by (split; nra).
  split; nra.
Qed.

Section ResidualPass.
Variable eps : R.


Variables fa ia thf thi lof hif loi hii : R.
Hypothesis Hfa : lof <= fa <= hif.
Hypothesis Hia : loi <= ia <= hii.
Hypothesis Hthf : lof <= thf <= hif.
Hypothesis Hthi : loi <= thi <= hii.



(** The weighted RMS of residuals within [eps] is within [eps]. *)
Lemma rms_bound (S W : R) :
  0 <= eps -> 0 < W -> 0 <= S <= eps * eps * W ->
  exists rho,
    (if gtb (Fin W) (Fin 0) then Math.sqrt (div (Fin S) (Fin W)) else Fin 0) = Fin rho
    /\ 0 <= rho <= eps.
Proof.
  intros He HW HS.
  assert (Hgt : gtb (Fin W) (Fin 0) = true) by (unfold gtb; cbn; now apply Rltb_of_lt).
  rewrite Hgt, div_fin by lra.
  assert (Hq : 0 <= S / W <= eps * eps).
  { pose proof (Rinv_0_lt_compat W HW) as Hi.
    assert (E : W * / W = 1) by (apply Rinv_r; lra).
    unfold Rdiv. split; nra. }
  cbn [Math.sqrt]. rewrite Rltb_of_ge by lra.
  exists (sqrt (S / W)). split; [reflexivity|]. split; [apply sqrt_pos|].
  rewrite <- (sqrt_square eps He). apply sqrt_le_1; lra.
Qed.
End ResidualPass.




Lemma equator_finite (d : Date) (a : R) :
  In d [MkDate 2000 0 1; MkDate 2000 0 2] -> 0 <= a <= 25 ->
  isFinite (predictFajr d (Fin 0) (Fin 0) (Fin 0) (Fin a)) = true
  /\ isFinite (predictIsha d (Fin 0) (Fin 0) (Fin 0) (Fin a)) = true.
Proof.
  intros Hd Ha. destruct (early_january_dates d Hd) as (j & Hj & HT).
  destruct (predict_fin d j 0 0 0 a Hj) as [-> ->].
  - now apply cos_half_epsRadR_pos.
  - now apply equator_den.
  - pose proof (equator_cosHR _ HT a Ha). lra.
  - split; reflexivity.
Qed.





Lemma residuals_aligned_with_input_witness :
  exists fuel r, calibrateAngles fuel dawnHeavyObs noOptions = Some (Returns r)
    /\ length (residuals r) = 5%nat
    /\ length (score_residuals (scoreAngles dawnHeavyObs (Fin 15) (Fin 15))) = 5%nat.
Proof.
  destruct (calibrateAngles_returns_of_budget dawnHeavyObs noOptions)
    as (fuel & r & Hr); [left; cbn; lia | exact default_budget_finite |].
  destruct residuals_aligned_with_input as (Hs & Hc & _).
  exists fuel, r. split; [exact Hr|].
  rewrite (Hc _ _ _ _ Hr), Hs, !length_map. split; reflexivity.
Defined.

(* ------------------------------------------------------------------ *)
(** ** The Julian Day Number and the calendar *)

Lemma jdnZ_next_day (y m0 dd : Z) :
  (0 <= m0 <= 11)%Z -> (1 <= dd <= daysInMonth y m0)%Z ->
  match nextDay (MkDate y m0 dd) with
  | MkDate y' m' d' => jdnZ y' (m' + 1) d' = (jdnZ y (m0 + 1) dd + 1)%Z
  | InvalidDate => False
  end.
Proof.
  intros Hm Hd. unfold nextDay.
  destruct (Z.ltb_spec dd (daysInMonth y m0)) as [Hlt|Hge].
  { unfold jdnZ. lia. }
  assert (Hdd : dd = daysInMonth y m0) by lia. clear Hge Hd.
  assert (Hcases : (m0 = 0 \/ m0 = 1 \/ m0 = 2 \/ m0 = 3 \/ m0 = 4 \/ m0 = 5 \/ m0 = 6
                    \/ m0 = 7 \/ m0 = 8 \/ m0 = 9 \/ m0 = 10 \/ m0 = 11)%Z) by lia.
  unfold daysInMonth, isLeapYear in Hdd.
  destruct (Z.ltb_spec m0 11) as [Hm11|Hm11]; unfold jdnZ;
    repeat match goal with H : _ \/ _ |- _ => destruct H as [H|H] end; subst m0;
    try lia; cbn in Hdd;
    try (subst dd; Z.to_euclidean_division_equations; lia).
  destruct (Z.eqb_spec (y mod 4) 0); destruct (Z.eqb_spec (y mod 100) 0);
    destruct (Z.eqb_spec (y mod 400) 0); cbn in Hdd; subst dd;
    Z.to_euclidean_division_equations; lia.
Qed.

(** X1. [jdn] counts days of the Gregorian calendar: the day after a valid
    date has the next Julian Day Number, across month ends, year ends and
    leap days. *)
Theorem jdn_counts_days (d : Date) :
  validDate d ->
  exists j : Z, jdn d = Fin (IZR j) /\ jdn (nextDay d) = Fin (IZR (j + 1)).
Proof.
  destruct d as [|y m0 dd]; [intros []|]. intros [Hm Hd].
  exists (jdnZ y (m0 + 1) dd). split; [reflexivity|].
  pose proof (jdnZ_next_day y m0 dd Hm Hd) as H.
  destruct (nextDay (MkDate y m0 dd)) as [|y' m' d']; [contradiction|].
  cbn [jdn]. now rewrite H.
Qed.

Lemma jdn_counts_days_witness :
  exists j : Z, jdn (MkDate 2024 1 29) = Fin (IZR j)
    /\ jdn (MkDate 2024 2 1) = Fin (IZR (j + 1)).
Proof.
  apply (jdn_counts_days (MkDate 2024 1 29)). cbn. lia.
Defined.

(** X2. [Date.UTC] reads a year between 0 and 99 as a year of the twentieth
    century: for such a date both predictions are those of the same day
    1900 years later, and the Julian day they use lies about 693960 days
    after the date's own. *)
Theorem predict_two_digit_year (y m0 dd : Z) (lat lng tz angle : num) :
  (0 <= y <= 99)%Z -> (0 <= m0 <= 11)%Z ->
  predictFajr (MkDate y m0 dd) lat lng tz angle
  = predictFajr (MkDate (1900 + y) m0 dd) lat lng tz angle
  /\ predictIsha (MkDate y m0 dd) lat lng tz angle
     = predictIsha (MkDate (1900 + y) m0 dd) lat lng tz angle
  /\ exists j j' : Z,
       jdn (MkDate y m0 dd) = Fin (IZR j)
       /\ jdn (utcNoon (MkDate y m0 dd)) = Fin (IZR j')
       /\ (693959 <= j' - j <= 693961)%Z.
Proof.
  intros Hy Hm.
  assert (E : utcNoon (MkDate y m0 dd) = MkDate (1900 + y) m0 dd).
  { unfold utcNoon.
    destruct (Z.leb_spec 0 y); destruct (Z.leb_spec y 99); try lia.
    cbn [andb]. cbv zeta. now rewrite inTimeRange_years by lia. }
  assert (E' : utcNoon (MkDate (1900 + y) m0 dd) = MkDate (1900 + y) m0 dd).
  { unfold utcNoon.
    destruct (Z.leb_spec 0 (1900 + y)); destruct (Z.leb_spec (1900 + y) 99);
      try lia; cbn [andb]; cbv zeta; now rewrite inTimeRange_years by lia. }
  unfold predictFajr, predictIsha. rewrite E, E'.
  split; [reflexivity|]. split; [reflexivity|].
  exists (jdnZ y (m0 + 1) dd), (jdnZ (1900 + y) (m0 + 1) dd).
  split; [reflexivity|]. split; [reflexivity|].
  unfold jdnZ. Z.to_euclidean_division_equations. lia.
Qed.

Lemma predict_two_digit_year_witness :
  predictFajr (MkDate 50 5 21) (Fin 21.4225) (Fin 39.8262) (Fin 3) (Fin 15)
  = predictFajr (MkDate 1950 5 21) (Fin 21.4225) (Fin 39.8262) (Fin 3) (Fin 15).
Proof.
  apply (predict_two_digit_year 50 5 21); lia.
Defined.

(* ------------------------------------------------------------------ *)
(** ** The predictor on missing inputs *)

Lemma cosHourAngle_nan_lat (jd altDeg : num) : cosHourAngle jd NaN altDeg = NaN.
Proof.
  unfold cosHourAngle. cbv zeta. now autorewrite with num_nan.
Qed.

Lemma cosHourAngle_nan_alt (jd lat : num) : cosHourAngle jd lat NaN = NaN.
Proof.
  unfold cosHourAngle. cbv zeta. now autorewrite with num_nan.
Qed.

Lemma horizonCrossing_nan_cosH (jd lat lng tz altDeg : num) :
  cosHourAngle jd lat altDeg = NaN ->
  horizonCrossing jd lat lng tz altDeg = (NaN, NaN).
Proof.
  intros H. rewrite horizonCrossing_unfold. cbv zeta. rewrite H.
  autorewrite with num_nan. reflexivity.
Qed.

Lemma horizonCrossing_nan_noon (jd lat lng tz altDeg : num) :
  solarNoon jd lng tz = NaN ->
  horizonCrossing jd lat lng tz altDeg = (NaN, NaN).
Proof.
  intros H.
  destruct (horizonCrossing_cases jd lat lng tz altDeg) as [E | (c & _ & _ & E)];
    rewrite E; [reflexivity|].
  rewrite H. now autorewrite with num_nan.
Qed.

(** X3. A missing input is never turned into a time: when the date is
    invalid or the latitude, the longitude, the UTC offset or the angle is
    [NaN], both predictions are [NaN]. *)
Theorem predict_nan_input (date : Date) (lat lng tz angle : num) :
  date = InvalidDate \/ lat = NaN \/ lng = NaN \/ tz = NaN \/ angle = NaN ->
  predictFajr date lat lng tz angle = NaN
  /\ predictIsha date lat lng tz angle = NaN.
Proof.
  unfold predictFajr, predictIsha.
  intros [-> | [-> | [-> | [-> | ->]]]].
  - cbn [utcNoon jdn]. rewrite horizonCrossing_nan_jd. split; reflexivity.
  - rewrite horizonCrossing_nan_cosH by apply cosHourAngle_nan_lat. split; reflexivity.
  - rewrite horizonCrossing_nan_noon; [split; reflexivity|].
    unfold solarNoon. now autorewrite with num_nan.
  - rewrite horizonCrossing_nan_noon; [split; reflexivity|].
    unfold solarNoon. now autorewrite with num_nan.
  - cbn [neg]. rewrite horizonCrossing_nan_cosH by apply cosHourAngle_nan_alt.
    split; reflexivity.
Qed.

Lemma predict_nan_input_witness :
  predictFajr (MkDate 2024 5 21) (Fin 21.4225) NaN (Fin 3) (Fin 15) = NaN
  /\ predictIsha (MkDate 2024 5 21) (Fin 21.4225) NaN (Fin 3) (Fin 15) = NaN.
Proof.
  apply predict_nan_input. right. right. left. reflexivity.
Defined.

(* ------------------------------------------------------------------ *)
(** ** The ephemeris within a century of J2000 *)

Section TwoCenturies.
Variable T : R.
Hypothesis HT : -1 <= T <= 1.

Lemma epsR_century_bounds : 23.42 <= epsR T <= 23.46.
Proof.
  unfold epsR.
  pose proof (COS_bound (omegaR T * PI / 180)) as [C1 C2].
  assert (H2 : -1 <= T * T * T <= 1) by (split; nra).
  assert (H1 : 0 <= T * T <= 1) by (split; nra).
  replace (T * (46.8150 / 3600 + T * (0.00059 / 3600 - T * 0.001813 / 3600)))
    with (T * (46.8150 / 3600) + T * T * (0.00059 / 3600)
          - T * T * T * (0.001813 / 3600)) by field.
  lra.
Qed.

Lemma epsRadR_century_bounds : 0.4087 <= epsRadR T <= 0.4096.
Proof.
  unfold epsRadR. pose proof epsR_century_bounds as [E1 E2].
  pose proof PI_bounds as [P1 P2]. split; nra.
Qed.

Lemma cos_half_epsRadR_century : cos (epsRadR T / 2) <> 0.
Proof.
  pose proof epsRadR_century_bounds as [E1 E2]. pose proof PI2_bounds as [P1 P2].
  pose proof (cos_gt_0 (epsRadR T / 2) ltac:(lra) ltac:(lra)). lra.
Qed.

(** The declination never exceeds the obliquity of the ecliptic. *)
Lemma declR_le_obliquity : Rabs (declR T) <= epsRadR T.
Proof.
  pose proof epsRadR_century_bounds as [E1 E2]. pose proof PI2_bounds as [P1 P2].
  unfold declR.
  set (s := sin (epsRadR T)). set (l := sin (lambdaRadR T)).
  pose proof (SIN_bound (lambdaRadR T)) as [L1 L2]. fold l in L1, L2.
  assert (Hs : 0 <= s <= 1).
  { split; [apply sin_ge_0; lra | apply SIN_bound]. }
  assert (Hp : - s <= s * l <= s) by (split; nra).
  assert (Hr : -1 <= s * l <= 1) by lra.
  pose proof (asin_bound (s * l)) as [B1 B2].
  apply Rabs_le. split.
  - apply Ropp_le_cancel. rewrite Ropp_involutive.
    apply sin_incr_0; try lra.
    rewrite sin_neg, (sin_asin _ Hr). fold s. lra.
  - apply sin_incr_0; try lra.
    rewrite (sin_asin _ Hr). fold s. lra.
Qed.

Lemma declR_century_bounds : Rabs (declR T) <= 23.5 * PI / 180.
Proof.
  pose proof declR_le_obliquity. pose proof epsRadR_century_bounds as [E1 E2].
  pose proof PI_bounds as [P1 P2]. lra.
Qed.

(** Away from the polar circles the sun crosses every depression up to
    [66.5 - |lat|] degrees. *)
Lemma cosHR_mid_latitude (latR a : R) :
  0 <= a -> Rabs latR + a <= 66.5 ->
  0 < cos (latR * PI / 180) * cos (declR T)
  /\ -1 <= cosHR T latR (- a) <= 1.
Proof.
  intros Ha Hsum.
  pose proof declR_century_bounds as HD. pose proof PI_bounds as [P1 P2].
  set (p := latR * PI / 180). set (d := declR T) in *. set (A := a * PI / 180).
  assert (HA : 0 <= A) by (unfold A; nra).
  assert (Hp : Rabs p + A <= 66.5 * PI / 180).
  { unfold p, A. replace (latR * PI / 180) with (latR * (PI / 180)) by lra.
    rewrite Rabs_mult, (Rabs_pos_eq (PI / 180)) by lra. nra. }
  assert (Hsumr : Rabs p + Rabs d + A <= PI / 2) by lra.
  pose proof (Rabs_pos p) as Hp0. pose proof (Rabs_pos d) as Hd0.
  pose proof (Rle_abs p) as Hp1. pose proof (Rle_abs d) as Hd1.
  pose proof (Rle_abs (- p)) as Hp2. pose proof (Rle_abs (- d)) as Hd2.
  rewrite Rabs_Ropp in Hp2, Hd2.
  assert (Hcp : 0 < cos p) by (apply cos_gt_0; lra).
  assert (Hcd : 0 < cos d) by (apply cos_gt_0; lra).
  assert (Hden : 0 < cos p * cos d) by nra.
  split; [exact Hden|].
  unfold cosHR. fold p d.
  replace (- a * PI / 180) with (- A) by (unfold A; lra). rewrite sin_neg.
  apply ratio_in_unit_range; [exact Hden|].
  assert (HsA : 0 <= sin A) by (apply sin_ge_0; lra).
  split.
  - (* sin A <= cos (p + d) *)
    assert (H : sin A <= cos (p + d)).
    { destruct (Rle_dec 0 (p + d)) as [Hpos|Hneg].
      - rewrite <- (sin_shift (p + d)). apply sin_incr_1; lra.
      - replace (cos (p + d)) with (sin (PI / 2 - (- (p + d))))
          by (rewrite sin_shift; apply cos_neg).
        apply sin_incr_1; lra. }
    rewrite cos_plus in H. lra.
  - (* - sin A <= cos (p - d) *)
    assert (H : 0 <= cos (p - d)) by (apply cos_ge_0; lra).
    rewrite cos_minus in H. lra.
Qed.
End TwoCenturies.

Lemma Rabs_between (x y : R) : Rabs x <= y -> - y <= x <= y.
Proof. unfold Rabs. destruct (Rcase_abs x); lra. Qed.

Lemma century_range (j : R) :
  Rabs (j - 2451545) <= 36525 -> -1 <= centuryR j <= 1.
Proof.
  intros H. apply Rabs_between in H. unfold centuryR. lra.
Qed.

Lemma jdnZ_two_centuries (y m0 dd : Z) :
  (1900 <= y <= 2099)%Z -> (0 <= m0 <= 11)%Z -> (1 <= dd <= 31)%Z ->
  (2415021 <= jdnZ y (m0 + 1) dd <= 2488069)%Z.
Proof.
  intros Hy Hm Hd. unfold jdnZ. Z.to_euclidean_division_equations. lia.
Qed.

Lemma jdn_two_centuries (y m0 dd : Z) :
  (1900 <= y <= 2099)%Z -> (0 <= m0 <= 11)%Z -> (1 <= dd <= 31)%Z ->
  exists j, jdn (utcNoon (MkDate y m0 dd)) = Fin j /\ -1 <= centuryR j <= 1.
Proof.
  intros Hy Hm Hd. exists (IZR (jdnZ y (m0 + 1) dd)).
  split.
  - unfold utcNoon.
    destruct (Z.leb_spec 0 y); destruct (Z.leb_spec y 99); try lia;
      cbn [andb]; cbv zeta; now rewrite inTimeRange_years by lia.
  - apply century_range.
    pose proof (jdnZ_two_centuries y m0 dd Hy Hm Hd) as [H1 H2].
    apply IZR_le in H1, H2. apply Rabs_le. lra.
Qed.

(** X6. Within a century of J2000 the ephemeris is finite and the solar
    declination stays within 23.5 degrees of the equator. *)
Theorem solar_two_centuries (j : R) :
  Rabs (j - 2451545) <= 36525 ->
  exists d e,
    declRad (solar (Fin j)) = Fin d /\ eqtHours (solar (Fin j)) = Fin e
    /\ Rabs d <= 23.5 * PI / 180.
Proof.
  intros H. apply century_range in H.
  destruct (solar_fin j) as [Hd He].
  exists (declR (centuryR j)), (eqtHoursR (centuryR j)).
  split; [exact Hd|]. split.
  - apply He. now apply cos_half_epsRadR_century.
  - now apply declR_century_bounds.
Qed.

Lemma solar_two_centuries_witness :
  exists d e,
    declRad (solar (Fin 2451545)) = Fin d /\ eqtHours (solar (Fin 2451545)) = Fin e
    /\ Rabs d <= 23.5 * PI / 180.
Proof.
  apply solar_two_centuries.
  replace (2451545 - 2451545) with 0 by lra. rewrite Rabs_R0. lra.
Defined.

(** X7. No polar gap at moderate latitudes: for a date of the years 1900 to
    2099, a longitude of at most 180 degrees and a UTC offset of at most 24
    hours in magnitude, and a depression angle [a >= 0] with
    [|lat| + a <= 66.5] degrees, both predictions are finite. *)
Theorem predict_finite_mid_latitude (y m0 dd : Z) (latR lngR tzR a : R) :
  (1900 <= y <= 2099)%Z -> (0 <= m0 <= 11)%Z -> (1 <= dd <= 31)%Z ->
  Rabs lngR <= 180 -> Rabs tzR <= 24 ->
  0 <= a -> Rabs latR + a <= 66.5 ->
  exists f i,
    predictFajr (MkDate y m0 dd) (Fin latR) (Fin lngR) (Fin tzR) (Fin a) = Fin f
    /\ predictIsha (MkDate y m0 dd) (Fin latR) (Fin lngR) (Fin tzR) (Fin a) = Fin i.
Proof.
  intros Hy Hm Hd _ _ Ha Hsum.
  destruct (jdn_two_centuries y m0 dd Hy Hm Hd) as (j & Hj & HT).
  destruct (cosHR_mid_latitude _ HT latR a Ha Hsum) as [Hden Hc].
  destruct (predict_fin (MkDate y m0 dd) j latR lngR tzR a Hj) as [Hf Hi].
  - now apply cos_half_epsRadR_century.
  - lra.
  - exact Hc.
  - eexists _, _. split; [exact Hf | exact Hi].
Qed.

Lemma predict_finite_mid_latitude_witness :
  exists f i,
    predictFajr (MkDate 2024 5 21) (Fin 40.7128) (Fin (-74.006)) (Fin (-4)) (Fin 18) = Fin f
    /\ predictIsha (MkDate 2024 5 21) (Fin 40.7128) (Fin (-74.006)) (Fin (-4)) (Fin 18) = Fin i.
Proof.
  apply predict_finite_mid_latitude; try lia; try lra;
    try (apply Rabs_le; lra).
  rewrite Rabs_pos_eq; lra.
Defined.

(* ------------------------------------------------------------------ *)
(** ** The range of the equation of time *)

Lemma prod_unit_bound (u a : R) : 0 <= u -> -1 <= a <= 1 -> - u <= u * a <= u.
Proof. intros Hu Ha. split; nra. Qed.

Section EquationOfTime.
Variable T : R.
Hypothesis HT : -1 <= T <= 1.

Lemma tan_half_obliquity : 0 <= tan (epsRadR T / 2) <= 0.2093.
Proof.
  pose proof (epsRadR_century_bounds T HT) as [E1 E2].
  set (h := epsRadR T / 2). assert (Hh : 0.2043 <= h <= 0.2048) by (unfold h; lra).
  pose proof PI2_bounds as [P1 P2].
  assert (Hc : 0.979 <= cos h).
  { pose proof (cos_ge 0.2048 h ltac:(lra) ltac:(lra) ltac:(lra)) as C. lra. }
  assert (Hs : 0 <= sin h <= 0.2048).
  { split; [apply sin_ge_0; lra|].
    pose proof (sin_lt_x h ltac:(lra)). lra. }
  unfold tan. split.
  - apply Rmult_le_pos; [lra|]. left. apply Rinv_0_lt_compat. lra.
  - apply Rmult_le_reg_r with (cos h); [lra|].
    replace (sin h / cos h * cos h) with (sin h) by (field; lra). nra.
Qed.

(** The terms of the equation of time that carry the factor [y]. *)
Lemma eqt_small_terms (y sL sM cL s4 : R) :
  0 <= y <= 0.0439 ->
  -1 <= sL <= 1 -> -1 <= sM <= 1 -> -1 <= cL <= 1 -> -1 <= s4 <= 1 ->
  Rabs (y * sL + 4 * sM * y * cL - 0.5 * y * y * s4) <= 0.2205.
Proof.
  intros Hy HsL HsM HcL Hs4.
  pose proof (prod_unit_bound y sL ltac:(lra) HsL) as B1.
  pose proof (prod_unit_bound y cL ltac:(lra) HcL) as B2.
  assert (B3 : - y <= sM * (y * cL) <= y) by (split; nra).
  assert (Hyy : 0 <= y * y <= 0.002) by (split; nra).
  pose proof (prod_unit_bound (y * y) s4 ltac:(lra) Hs4) as B4.
  apply Rabs_le.
  replace (y * sL + 4 * sM * y * cL - 0.5 * y * y * s4)
    with (y * sL + 4 * (sM * (y * cL)) - 0.5 * (y * y * s4)) by ring.
  lra.
Qed.

Lemma eqtHoursR_form :
  eqtHoursR T
  = 12 / (PI * PI)
    * (let y := tan (epsRadR T / 2) * tan (epsRadR T / 2) in
       let L0rad := L0R T * PI / 180 in
       y * sin (2 * L0rad) - 2 * sin (MradR T)
       + 4 * sin (MradR T) * y * cos (2 * L0rad)
       - 0.5 * y * y * sin (4 * L0rad) - 1.25 * sin (2 * MradR T)).
Proof.
  unfold eqtHoursR. cbv zeta. pose proof PI_bounds. field. lra.
Qed.

Lemma eqtHoursR_range :
  Rabs (eqtHoursR T) <= 4.3
  /\ (0.95 <= sin (MradR T) -> eqtHoursR T <= -1).
Proof.
  rewrite eqtHoursR_form. cbv zeta.
  pose proof tan_half_obliquity as [T1 T2].
  set (y := tan (epsRadR T / 2) * tan (epsRadR T / 2)).
  assert (Hy : 0 <= y <= 0.0439) by (unfold y; split; nra).
  set (sL := sin (2 * (L0R T * PI / 180))).
  set (cL := cos (2 * (L0R T * PI / 180))).
  set (s4 := sin (4 * (L0R T * PI / 180))).
  set (sM := sin (MradR T)). set (s2M := sin (2 * MradR T)).
  pose proof (SIN_bound (2 * (L0R T * PI / 180))) as HsL. fold sL in HsL.
  pose proof (COS_bound (2 * (L0R T * PI / 180))) as HcL. fold cL in HcL.
  pose proof (SIN_bound (4 * (L0R T * PI / 180))) as Hs4. fold s4 in Hs4.
  pose proof (SIN_bound (MradR T)) as HsM. fold sM in HsM.
  pose proof (SIN_bound (2 * MradR T)) as Hs2M. fold s2M in Hs2M.
  pose proof (eqt_small_terms y sL sM cL s4 Hy HsL HsM HcL Hs4) as HB.
  apply Rabs_between in HB.
  set (small := y * sL + 4 * sM * y * cL - 0.5 * y * y * s4) in *.
  replace (y * sL - 2 * sM + 4 * sM * y * cL - 0.5 * y * y * s4 - 1.25 * s2M)
    with (small - 2 * sM - 1.25 * s2M) by (unfold small; ring).
  set (E := small - 2 * sM - 1.25 * s2M).
  pose proof PI_bounds as [P1 P2].
  assert (HPP : 9.869 <= PI * PI <= 9.8735) by (split; nra).
  assert (Hk : 1.2153 <= 12 / (PI * PI) <= 1.216).
  { split.
    - apply Rmult_le_reg_r with (PI * PI); [lra|].
      replace (12 / (PI * PI) * (PI * PI)) with 12 by (field; lra). nra.
    - apply Rmult_le_reg_r with (PI * PI); [lra|].
      replace (12 / (PI * PI) * (PI * PI)) with 12 by (field; lra). nra. }
  split.
  - assert (HE : -3.4705 <= E <= 3.4705) by (unfold E; lra).
    apply Rabs_le. split; nra.
  - intros Hs.
    assert (Hc : Rabs (cos (MradR T)) <= 0.3123).
    { pose proof (sin2_cos2 (MradR T)) as H. unfold Rsqr in H. fold sM in H.
      apply Rabs_le. split; nra. }
    assert (H2 : Rabs s2M <= 0.6246).
    { unfold s2M. rewrite sin_2a. fold sM.
      replace (2 * sM * cos (MradR T)) with (2 * (sM * cos (MradR T))) by ring.
      rewrite Rabs_mult, (Rabs_pos_eq 2) by lra.
      rewrite Rabs_mult, (Rabs_pos_eq sM) by lra.
      pose proof (Rabs_pos (cos (MradR T))). nra. }
    apply Rabs_between in H2.
    assert (HE : E <= -0.89) by (unfold E; lra).
    nra.
Qed.
End EquationOfTime.

Lemma Rtrunc_one (x : R) : 1 <= x < 2 -> Rtrunc x = 1.
Proof.
  intros [H0 H1]. unfold Rtrunc. rewrite Rleb_of_le by lra.
  rewrite <- (Int_part_spec x 1%Z); [reflexivity|]. simpl. lra.
Qed.

(** The mean anomaly on 4 April 2000 (JD 2451639) is close to 90 degrees. *)
Lemma april_mean_anomaly : 0.95 <= sin (MradR (centuryR 2451639)).
Proof.
  set (T := centuryR 2451639).
  assert (HT : 0.0025735 <= T <= 0.0025736) by (unfold T, centuryR; lra).
  set (x := 357.52911 + T * (35999.05029 - T * 0.0001537)).
  assert (Hx : 450.17 <= x <= 450.18) by (unfold x; split; nra).
  assert (HM : MR T = x - 360).
  { unfold MR. cbv zeta. fold x. rewrite (Rtrunc_one (x / 360)) by lra. ring. }
  unfold MradR. rewrite HM.
  pose proof PI_bounds as [P1 P2].
  replace ((x - 360) * PI / 180) with (PI / 2 - (- ((x - 450) * PI / 180))) by field.
  rewrite sin_shift, cos_neg.
  pose proof (cos_ge 0.0032 ((x - 450) * PI / 180) ltac:(nra) ltac:(nra) ltac:(lra)).
  lra.
Qed.

(** X20. Within a century of J2000 the equation of time of [solar] is at
    most 4.3 hours in magnitude, and it is below -1 hour whenever the sine of
    the mean anomaly is at least 0.95, as it is in the first days of April. *)
Theorem solar_equation_of_time_range (j : R) :
  Rabs (j - 2451545) <= 36525 ->
  exists e,
    eqtHours (solar (Fin j)) = Fin e
    /\ Rabs e <= 4.3
    /\ (0.95 <= sin (MradR (centuryR j)) -> e <= -1).
Proof.
  intros H. apply century_range in H.
  destruct (solar_fin j) as [_ He].
  exists (eqtHoursR (centuryR j)). split.
  - apply He. now apply cos_half_epsRadR_century.
  - now apply eqtHoursR_range.
Qed.

Lemma solar_equation_of_time_range_witness :
  exists e,
    eqtHours (solar (Fin 2451639)) = Fin e /\ Rabs e <= 4.3 /\ e <= -1.
Proof.
  destruct (solar_equation_of_time_range 2451639) as (e & He & Hb & Hl).
  { apply Rabs_le. lra. }
  exists e. split; [exact He|]. split; [exact Hb|].
  apply Hl. exact april_mean_anomaly.
Defined.

(* ------------------------------------------------------------------ *)
(** ** Residuals in the temperate zone *)


Lemma cos_abs_ge (q x : R) :
  Rabs x <= q -> q <= 1.57 -> 1 - q^2/2 + q^4/24 - q^6/720 <= cos x.
Proof.
  intros Hx Hq. pose proof (Rabs_pos x) as H0.
  unfold Rabs in *. destruct (Rcase_abs x) as [Hn|Hp].
  - rewrite <- cos_neg. apply cos_ge; lra.
  - apply cos_ge; lra.
Qed.


Section TemperateZone.
Variable T : R.
Hypothesis HT : -1 <= T <= 1.
Variable latR : R.
Hypothesis Hlat : Rabs latR <= 41.




End TemperateZone.

(* ------------------------------------------------------------------ *)
(** ** Recovery in the temperate zone *)

Lemma temperate_predR (o : Observation) :
  temperate o ->
  exists T latR n,
    -1 <= T <= 1 /\ Rabs latR <= 41 /\ lat o = Fin latR
    /\ forall a, 0 <= a <= 22 ->
         predictFajr (date o) (lat o) (lng o) (tz o) (Fin a)
         = Fin (n - hourAngleHours (cosHR T latR (- a)))
         /\ predictIsha (date o) (lat o) (lng o) (tz o) (Fin a)
            = Fin (n + hourAngleHours (cosHR T latR (- a))).
Proof.
  intros (y & m0 & dd & latR & lngR & tzR & w & Hdate & Hy & Hm & Hd
          & Hlat & Hrange & Hlng & _ & Htz & _).
  destruct (jdn_two_centuries y m0 dd Hy Hm Hd) as (j & Hj & HT).
  exists (centuryR j), latR, (noonR (centuryR j) lngR tzR).
  split; [exact HT|]. split; [exact Hrange|]. split; [exact Hlat|].
  intros a Ha. rewrite Hdate, Hlat, Hlng, Htz.
  destruct (cosHR_mid_latitude _ HT latR a) as [Hden Hc]; try lra.
  apply (predict_fin (MkDate y m0 dd) j latR lngR tzR a Hj).
  - now apply cos_half_epsRadR_century.
  - lra.
  - exact Hc.
Qed.

Lemma temperate_weight (o : Observation) :
  temperate o -> exists w, orDefault (weight o) (Fin 1) = Fin w /\ 0 < w.
Proof.
  intros (y & m0 & dd & latR & lngR & tzR & w & _ & _ & _ & _
          & _ & _ & _ & _ & _ & _ & Hw & Hpos).
  exists w. split; [exact Hw | lra].
Qed.

Lemma generatedTemperate_dawn (theta lo hi : R) (o : Observation) :
  0 <= lo -> hi <= 22 ->
  generatedTemperate predictFajr fajr theta o ->
  generatedAt predictFajr fajr lo hi theta o.
Proof.
  intros Hlo Hhi [Ht Hobs].
  destruct (temperate_predR o Ht) as (T & latR & n & HT & Hrange & Hlat & HP).
  split; [exists latR; split; [exact Hlat | apply Rabs_between in Hrange; lra]|].
  split; [exact Hobs|].
  split; [|now apply temperate_weight].
  intros a Ha. destruct (HP a ltac:(lra)) as [-> _]. reflexivity.
Qed.

Lemma generatedTemperate_dusk (theta lo hi : R) (o : Observation) :
  0 <= lo -> hi <= 22 ->
  generatedTemperate predictIsha isha theta o ->
  generatedAt predictIsha isha lo hi theta o.
Proof.
  intros Hlo Hhi [Ht Hobs].
  destruct (temperate_predR o Ht) as (T & latR & n & HT & Hrange & Hlat & HP).
  split; [exists latR; split; [exact Hlat | apply Rabs_between in Hrange; lra]|].
  split; [exact Hobs|].
  split; [|now apply temperate_weight].
  intros a Ha. destruct (HP a ltac:(lra)) as [_ ->]. reflexivity.
Qed.



Lemma INR_60 : INR 60 = 60.
Proof. rewrite INR_IZR_INZ. reflexivity. Qed.

Lemma phiR_pow_60 : phiR ^ 60 * 22 <= 1e-9.
Proof.
  pose proof phiR_tight as [P1 P2].
  assert (H2 : 0 <= phiR ^ 2 <= 0.4) by (simpl; split; nra).
  assert (H4 : 0 <= phiR ^ 4 <= 0.16).
  { replace (phiR ^ 4) with (phiR ^ 2 * phiR ^ 2) by (simpl; ring). split; nra. }
  assert (H8 : 0 <= phiR ^ 8 <= 0.03).
  { replace (phiR ^ 8) with (phiR ^ 4 * phiR ^ 4) by (simpl; ring). split; nra. }
  assert (H16 : 0 <= phiR ^ 16 <= 1 / 1000).
  { replace (phiR ^ 16) with (phiR ^ 8 * phiR ^ 8) by (simpl; ring). split; nra. }
  assert (H48 : 0 <= (phiR ^ 16) ^ 3 <= (1 / 1000) ^ 3).
  { split; [apply pow_le; lra | apply pow_incr; lra]. }
  assert (H12 : 0 <= phiR ^ 12 <= 0.0048).
  { replace (phiR ^ 12) with (phiR ^ 8 * phiR ^ 4) by (simpl; ring). split; nra. }
  replace 60%nat with (16 * 3 + 12)%nat by reflexivity.
  rewrite pow_add, pow_mult.
  assert (E : (1 / 1000) ^ 3 = 1e-9) by (simpl; lra).
  nra.
Qed.

Section OneFit.
Variable predict : Date -> num -> num -> num -> num -> num.
Variable observed : Observation -> option num.
Variable sgn : R.
Hypothesis Hsgn : sgn * sgn = 1.
Hypothesis Hmono :
  forall date lng tz latR a1 a2 p1 p2,
    -90 < latR < 90 -> -90 <= a1 -> a1 < a2 -> a2 <= 90 ->
    predict date (Fin latR) lng tz (Fin a1) = Fin p1 ->
    predict date (Fin latR) lng tz (Fin a2) = Fin p2 ->
    sgn * p2 < sgn * p1.
Variables min max tol maxIter guess : num.
Variables lo hi t : R.
Hypothesis Hset : fitSettings min max tol maxIter lo hi t.

Lemma fitSettings_width : phiR ^ 60 * (hi - lo) <= t.
Proof.
  destruct Hset as (_ & _ & _ & H0 & Hle & H22 & Ht & _).
  pose proof phiR_pow_60 as H. pose proof phiR_bounds as HP.
  pose proof (pow_le phiR 60 ltac:(lra)) as Hp. nra.
Qed.


(** And the fit over a subset generated at [theta] is within half the
    tolerance of [theta]. *)
Lemma fittedOrGuess_settings_recovers (subset : list Observation) (theta : R)
    (fuel : nat) (v : num) :
  lo <= theta <= hi ->
  (2 <= length subset)%nat ->
  Forall (generatedAt predict observed lo hi theta) subset ->
  fittedOrGuess (lossOf predict observed subset) subset min max tol maxIter guess fuel
  = Some v ->
  exists a, v = Fin a /\ Rabs (a - theta) <= t / 2 /\ lo <= a <= hi.
Proof.
  intros Hth Hlen Hall Hv. pose proof fitSettings_width as Hw.
  destruct Hset as (-> & -> & -> & H0 & Hle & H22 & Ht & Hb).
  destruct (fit_recovers predict observed sgn subset lo hi theta t maxIter guess v
              60 fuel Hsgn Hmono) as (a & -> & Ha); try assumption; try lra.
  { now rewrite INR_60. }
  { rewrite INR_60. lra. }
  exists a. split; [reflexivity|]. split; [exact Ha|].
  destruct (fittedOrGuess_in_bracket _ _ _ _ _ _ _ _ _ Hlen Hle Hv) as (a' & E & Hin).
  now injection E as <-.
Qed.
End OneFit.

Lemma predictFajr_mono :
  forall date lng tz latR a1 a2 p1 p2,
    -90 < latR < 90 -> -90 <= a1 -> a1 < a2 -> a2 <= 90 ->
    predictFajr date (Fin latR) lng tz (Fin a1) = Fin p1 ->
    predictFajr date (Fin latR) lng tz (Fin a2) = Fin p2 ->
    1 * p2 < 1 * p1.
Proof.
  intros date lng tz latR a1 a2 p1 p2 Hlat H1 H12 H2 E1 E2.
  pose proof (predictFajr_decreasing date lng tz latR a1 a2 p1 p2
                Hlat H1 H12 H2 E1 E2). lra.
Qed.

Lemma predictIsha_mono :
  forall date lng tz latR a1 a2 p1 p2,
    -90 < latR < 90 -> -90 <= a1 -> a1 < a2 -> a2 <= 90 ->
    predictIsha date (Fin latR) lng tz (Fin a1) = Fin p1 ->
    predictIsha date (Fin latR) lng tz (Fin a2) = Fin p2 ->
    -1 * p2 < -1 * p1.
Proof.
  intros date lng tz latR a1 a2 p1 p2 Hlat H1 H12 H2 E1 E2.
  pose proof (predictIsha_increasing date lng tz latR a1 a2 p1 p2
                Hlat H1 H12 H2 E1 E2). lra.
Qed.

(** The dawn fit of a subset generated in the temperate zone. *)
Lemma fajrFit_recovers (fuel : nat) (observations : list Observation)
    (options : CalibrationOptions) (lo hi t theta : R) (v : num) :
  dawnSettings options lo hi t -> lo <= theta <= hi ->
  (2 <= length (fajrSubset observations))%nat ->
  Forall (generatedTemperate predictFajr fajr theta) (fajrSubset observations) ->
  fajrFit fuel observations options = Some v ->
  exists a, v = Fin a /\ Rabs (a - theta) <= t / 2 /\ lo <= a <= hi.
Proof.
  intros Hset Hth Hlen Hall Hv. unfold fajrFit in Hv. rewrite fajrLoss_lossOf in Hv.
  pose proof Hset as (_ & _ & _ & H0 & _ & H22 & _).
  assert (Hsgn : 1 * 1 = 1) by lra.
  eapply (fittedOrGuess_settings_recovers predictFajr fajr 1 Hsgn predictFajr_mono);
    [exact Hset | exact Hth | exact Hlen | | exact Hv].
  eapply Forall_impl; [|exact Hall].
  intros o. now apply generatedTemperate_dawn.
Qed.

Lemma ishaFit_recovers (fuel : nat) (observations : list Observation)
    (options : CalibrationOptions) (lo hi t theta : R) (v : num) :
  duskSettings options lo hi t -> lo <= theta <= hi ->
  (2 <= length (ishaSubset observations))%nat ->
  Forall (generatedTemperate predictIsha isha theta) (ishaSubset observations) ->
  ishaFit fuel observations options = Some v ->
  exists a, v = Fin a /\ Rabs (a - theta) <= t / 2 /\ lo <= a <= hi.
Proof.
  intros Hset Hth Hlen Hall Hv. unfold ishaFit in Hv. rewrite ishaLoss_lossOf in Hv.
  pose proof Hset as (_ & _ & _ & H0 & _ & H22 & _).
  assert (Hsgn : -1 * -1 = 1) by lra.
  eapply (fittedOrGuess_settings_recovers predictIsha isha (-1) Hsgn predictIsha_mono);
    [exact Hset | exact Hth | exact Hlen | | exact Hv].
  eapply Forall_impl; [|exact Hall].
  intros o. now apply generatedTemperate_dusk.
Qed.

Lemma Rabs_half_le (x t : R) : Rabs x <= t / 2 -> 0 <= t -> Rabs x <= t.
Proof. intros H Ht. lra. Qed.


Lemma newYork_temperate (d : Date) (f i : option num) :
  In d [MkDate 2024 0 15; MkDate 2024 3 15; MkDate 2024 6 15; MkDate 2024 9 15;
        MkDate 2024 11 15] ->
  temperate (nyObservation d f i None).
Proof.
  intros Hd. unfold temperate, nyObservation.
  cbn [date lat lng tz weight orDefault].
  assert (E : exists y m0 dd, d = MkDate y m0 dd
              /\ (1900 <= y <= 2099)%Z /\ (0 <= m0 <= 11)%Z /\ (1 <= dd <= 31)%Z).
  { destruct Hd as [<-|[<-|[<-|[<-|[<-|[]]]]]]; do 3 eexists;
      (split; [reflexivity|]); lia. }
  destruct E as (y & m0 & dd & -> & Hy & Hm & Hdd).
  exists y, m0, dd, 40.7128, (-74.006), (-4), 1.
  split; [reflexivity|]. split; [exact Hy|]. split; [exact Hm|]. split; [exact Hdd|].
  split; [reflexivity|]. split; [rewrite Rabs_pos_eq; lra|].
  split; [reflexivity|]. split; [apply Rabs_le; lra|].
  split; [reflexivity|]. split; [apply Rabs_le; lra|].
  split; [reflexivity|]. split; [|lra].
  apply Rle_trans with 1e-99; [|lra].
  apply Rlt_le. apply Rmult_lt_reg_r with 1e100; lra.
Qed.

Lemma default_settings :
  dawnSettings noOptions 10 22 1e-5 /\ duskSettings noOptions 10 22 1e-5.
Proof.
  assert (H : leb (Fin 60) (Fin 200) = true) by (cbn; apply Rleb_of_le; lra).
  split; repeat split; try reflexivity; try lra; exact H.
Qed.



(* ------------------------------------------------------------------ *)
(** ** Insufficient data, and a search without end *)

(** With the budget [Infinity] and a negative tolerance the loop of the
    solver never ends: its counter stays below the budget and the width of
    the bracket above the tolerance. *)
Lemma goldenLoop_endless (f : num -> num) (t : R) (fuel : nat) :
  forall (k : nat) (a b x1 x2 : R) (f1 f2 : num),
    t < 0 -> golden_pos a b x1 x2 ->
    goldenLoop f (Fin t) PInf fuel (Fin (INR k)) (Fin a) (Fin b) (Fin x1) (Fin x2) f1 f2
    = None.
Proof.
  induction fuel as [|fuel IH]; intros k a b x1 x2 f1 f2 Ht Hpos; [reflexivity|].
  rewrite goldenLoop_step.
  assert (Hc : ltb (Fin (INR k)) PInf && gtb (sub (Fin b) (Fin a)) (Fin t) = true).
  { destruct Hpos as (Hab & _). unfold gtb. cbn. apply Rltb_of_lt. lra. }
  rewrite Hc. destruct (counter_nat k) as [k' ->].
  destruct (ltb f1 f2).
  - rewrite golden_step_left. apply IH; [exact Ht | exact (golden_pos_left _ _ _ _ Hpos)].
  - rewrite golden_step_right. apply IH; [exact Ht | exact (golden_pos_right _ _ _ _ Hpos)].
Qed.

Lemma fittedOrGuess_endless (loss : num -> num) (subset : list Observation)
    (lo hi t : R) (guess : num) (fuel : nat) :
  (2 <= length subset)%nat -> lo <= hi -> t < 0 ->
  fittedOrGuess loss subset (Fin lo) (Fin hi) (Fin t) PInf guess fuel = None.
Proof.
  intros Hlen Hle Ht. unfold fittedOrGuess, goldenSection.
  apply Nat.leb_le in Hlen. rewrite Hlen.
  rewrite golden_step_left, golden_step_right.
  apply (goldenLoop_endless _ t fuel 0); [exact Ht|].
  repeat split; lra.
Qed.

(** With five dawn observations and the options
    [{ maxIter: Infinity, tol: -1 }], [calibrateAngles] neither throws nor
    returns: the search for the dawn angle has not ended after any number of
    passes. *)
Lemma calibrateAngles_endless_search :
  (2 <= length (fajrSubset dawnHeavyObs))%nat
  /\ forall fuel, calibrateAngles fuel dawnHeavyObs endlessOptions = None.
Proof.
  split; [cbn; lia|].
  intros fuel. rewrite calibrateAngles_unfold.
  assert (E : fajrFit fuel dawnHeavyObs endlessOptions = None).
  { unfold fajrFit. cbn [endlessOptions opt_fajrMin opt_fajrMax opt_tol opt_maxIter
                         opt_fajrAngle0 orDefault].
    apply fittedOrGuess_endless; [cbn; lia | lra | lra]. }
  rewrite E. reflexivity.
Qed.

(** C2 (amended). [calibrateAngles] throws the insufficient-data error if
    and only if both the dawn subset and the dusk subset have fewer than 2
    members.  When one of them has 2 members and [maxIter] is a budget the
    loop counter reaches (it is not [Infinity], nor above 2^53), the call
    returns.  In the result an angle whose subset has fewer than 2 members
    is the initial guess, unchanged; an angle whose subset has 2 members is
    fitted: for observations of the temperate zone that carry the
    predictor's times at an angle [theta] of the configured interval, the
    fitted angle is finite and within the tolerance of [theta] (for an
    interval within [0, 22], a tolerance of at least 1e-9 and a budget of
    60 passes). *)
Theorem calibrateAngles_insufficient_data (observations : list Observation)
    (options : CalibrationOptions) :
  (forall fuel,
      (exists e, calibrateAngles fuel observations options = Some (Throws e))
      <-> (length (fajrSubset observations) < 2
           /\ length (ishaSubset observations) < 2)%nat)
  /\ ((2 <= length (fajrSubset observations)
       \/ 2 <= length (ishaSubset observations))%nat ->
      finiteBudget (orDefault (opt_maxIter options) (Fin 200)) ->
      exists fuel r, calibrateAngles fuel observations options = Some (Returns r))
  /\ (forall fuel r,
        calibrateAngles fuel observations options = Some (Returns r) ->
        ((length (fajrSubset observations) < 2)%nat ->
         fajrAngle (angles r) = orDefault (opt_fajrAngle0 options) (Fin 15))
        /\ ((length (ishaSubset observations) < 2)%nat ->
            ishaAngle (angles r) = orDefault (opt_ishaAngle0 options) (Fin 15))
        /\ (forall lo hi t theta : R,
              (2 <= length (fajrSubset observations))%nat ->
              dawnSettings options lo hi t -> lo <= theta <= hi ->
              Forall (generatedTemperate predictFajr fajr theta)
                     (fajrSubset observations) ->
              exists a, fajrAngle (angles r) = Fin a /\ Rabs (a - theta) <= t)
        /\ (forall lo hi t theta : R,
              (2 <= length (ishaSubset observations))%nat ->
              duskSettings options lo hi t -> lo <= theta <= hi ->
              Forall (generatedTemperate predictIsha isha theta)
                     (ishaSubset observations) ->
              exists a, ishaAngle (angles r) = Fin a /\ Rabs (a - theta) <= t)).
Proof.
  split; [|split].
  - intros fuel. apply calibrateAngles_throws_iff.
  - apply calibrateAngles_returns_of_budget.
  - intros fuel r Hr.
    apply calibrateAngles_returns in Hr as (Hf & Hi & _).
    split; [|split; [|split]].
    + intros H2. unfold fajrFit in Hf.
      exact (fittedOrGuess_guess _ _ _ _ _ _ _ _ _ H2 Hf).
    + intros H2. unfold ishaFit in Hi.
      exact (fittedOrGuess_guess _ _ _ _ _ _ _ _ _ H2 Hi).
    + intros lo hi t theta H2 Hset Hth Hall.
      destruct (fajrFit_recovers fuel observations options lo hi t theta _
                  Hset Hth H2 Hall Hf) as (a & E & Ha & _).
      exists a. split; [exact E|].
      apply Rabs_half_le; [exact Ha|].
      destruct Hset as (_ & _ & _ & _ & _ & _ & Ht & _). lra.
    + intros lo hi t theta H2 Hset Hth Hall.
      destruct (ishaFit_recovers fuel observations options lo hi t theta _
                  Hset Hth H2 Hall Hi) as (a & E & Ha & _).
      exists a. split; [exact E|].
      apply Rabs_half_le; [exact Ha|].
      destruct Hset as (_ & _ & _ & _ & _ & _ & Ht & _). lra.
Qed.

Lemma dawnHeavySynthetic_subsets (theta : R) :
  fajrSubset (dawnHeavySynthetic theta) = dawnHeavySynthetic theta
  /\ length (ishaSubset (dawnHeavySynthetic theta)) = 1%nat
  /\ Forall (generatedTemperate predictFajr fajr theta) (dawnHeavySynthetic theta).
Proof.
  split; [reflexivity|]. split; [reflexivity|].
  unfold dawnHeavySynthetic. cbn [map app].
  repeat (apply Forall_cons || apply Forall_nil);
    (split; [apply newYork_temperate; cbn; tauto | reflexivity]).
Qed.

(** Four dawn-only observations and one dual observation, generated at 18
    degrees, with the default options: the call returns, the dawn angle is
    within 1e-5 of 18 and the dusk angle is the default guess, 15. *)
Lemma calibrateAngles_insufficient_data_witness :
  exists fuel r a,
    calibrateAngles fuel (dawnHeavySynthetic 18) noOptions = Some (Returns r)
    /\ fajrAngle (angles r) = Fin a /\ Rabs (a - 18) <= 1e-5
    /\ ishaAngle (angles r) = Fin 15.
Proof.
  destruct (dawnHeavySynthetic_subsets 18) as (Ef & Ei & Hall).
  destruct (calibrateAngles_insufficient_data (dawnHeavySynthetic 18) noOptions)
    as (_ & Hret & Hfit).
  destruct Hret as (fuel & r & Hr);
    [left; rewrite Ef; cbn; lia | exact default_budget_finite |].
  destruct (Hfit fuel r Hr) as (_ & Hguess & Hdawn & _).
  destruct (Hdawn 10 22 1e-5 18) as (a & Ea & Ha);
    [rewrite Ef; cbn; lia | exact (proj1 default_settings) | lra
    | rewrite Ef; exact Hall |].
  exists fuel, r, a. split; [exact Hr|]. split; [exact Ea|]. split; [exact Ha|].
  apply Hguess. rewrite Ei. lia.
Defined.

(* ------------------------------------------------------------------ *)
(** ** The calibrator at its edges *)

Lemma goldenLoop_no_iteration (f : num -> num) (tol maxIter : num) (fuel : nat)
    (i a b x1 x2 f1 f2 v : num) :
  gtb (sub b a) tol = false \/ ltb i maxIter = false ->
  goldenLoop f tol maxIter fuel i a b x1 x2 f1 f2 = Some v ->
  v = div (add a b) (Fin 2).
Proof.
  intros H. destruct fuel; [discriminate|]. rewrite goldenLoop_step.
  assert (E : ltb i maxIter && gtb (sub b a) tol = false).
  { destruct H as [-> | ->]; [apply andb_false_r | reflexivity]. }
  rewrite E. now intros H'; injection H'.
Qed.

Lemma fittedOrGuess_midpoint (loss : num -> num) (subset : list Observation)
    (lo hi : R) (tol maxIter guess v : num) (fuel : nat) :
  (2 <= length subset)%nat -> noIteration tol maxIter lo hi ->
  fittedOrGuess loss subset (Fin lo) (Fin hi) tol maxIter guess fuel = Some v ->
  v = Fin ((lo + hi) / 2).
Proof.
  intros Hlen Hno. unfold fittedOrGuess.
  apply Nat.leb_le in Hlen. rewrite Hlen. unfold goldenSection.
  intros H. apply goldenLoop_no_iteration in H; [now rewrite midpoint_fin in H|].
  destruct Hno as [(t & -> & Hw) | [-> | ->]].
  - left. unfold gtb. cbn. apply Rltb_of_ge. lra.
  - left. reflexivity.
  - right. cbn. apply Rltb_of_ge. lra.
Qed.

(** X9. Without an iteration the solver returns the midpoint of its
    interval: when the interval is no wider than the tolerance (as it is
    when min > max and the tolerance is not negative), when the tolerance is
    [NaN], or when [maxIter] is 0, a fitted angle is [(min + max) / 2]
    whatever the observations. *)
Theorem calibrateAngles_midpoint_without_iteration (fuel : nat)
    (observations : list Observation)
    (options : CalibrationOptions) (r : CalibrationResult) :
  calibrateAngles fuel observations options = Some (Returns r) ->
  (forall lo hi : R,
      orDefault (opt_fajrMin options) (Fin 10) = Fin lo ->
      orDefault (opt_fajrMax options) (Fin 22) = Fin hi ->
      (2 <= length (fajrSubset observations))%nat ->
      noIteration (orDefault (opt_tol options) (Fin 1e-5))
                  (orDefault (opt_maxIter options) (Fin 200)) lo hi ->
      fajrAngle (angles r) = Fin ((lo + hi) / 2))
  /\ (forall lo hi : R,
        orDefault (opt_ishaMin options) (Fin 10) = Fin lo ->
        orDefault (opt_ishaMax options) (Fin 22) = Fin hi ->
        (2 <= length (ishaSubset observations))%nat ->
        noIteration (orDefault (opt_tol options) (Fin 1e-5))
                    (orDefault (opt_maxIter options) (Fin 200)) lo hi ->
        ishaAngle (angles r) = Fin ((lo + hi) / 2)).
Proof.
  intros Hr.
  destruct (calibrateAngles_returns _ _ _ _ Hr) as (Hf & Hi & _).
  split.
  - intros lo hi Elo Ehi Hlen Hno. unfold fajrFit in Hf.
    rewrite Elo, Ehi in Hf. exact (fittedOrGuess_midpoint _ _ _ _ _ _ _ _ _ Hlen Hno Hf).
  - intros lo hi Elo Ehi Hlen Hno. unfold ishaFit in Hi.
    rewrite Elo, Ehi in Hi. exact (fittedOrGuess_midpoint _ _ _ _ _ _ _ _ _ Hlen Hno Hi).
Qed.

Lemma calibrateAngles_midpoint_without_iteration_witness :
  exists fuel r, calibrateAngles fuel dawnHeavyObs invertedDawn = Some (Returns r)
    /\ fajrAngle (angles r) = Fin ((20 + 12) / 2).
Proof.
  destruct (calibrateAngles_returns_of_budget dawnHeavyObs invertedDawn)
    as (fuel & r & Hr); [left; cbn; lia | cbn; lra |].
  exists fuel, r. split; [exact Hr|].
  apply (proj1 (calibrateAngles_midpoint_without_iteration _ _ _ _ Hr) 20 12);
    [reflexivity | reflexivity | cbn; lia |].
  left. exists 1e-5. split; [reflexivity | lra].
Defined.

Section FlatLoss.
Variable f : num -> num.
Variable t : R.
Variable maxIter : num.
Hypothesis Hflat : forall x y, ltb (f x) (f y) = false.

(** A loss that never compares smaller sends every step to the right. *)
Lemma goldenLoop_flat (fuel : nat) :
  forall (d k : nat) (a b x1 x2 : R) (v : num),
    golden_pos a b x1 x2 ->
    phiR ^ d * (b - a) <= t ->
    leb (Fin (INR (k + d))) maxIter = true ->
    INR (k + d) <= 9007199254740992 ->
    goldenLoop f (Fin t) maxIter fuel (Fin (INR k)) (Fin a) (Fin b) (Fin x1) (Fin x2)
               (f (Fin x1)) (f (Fin x2)) = Some v ->
    exists r, v = Fin r /\ b - t / 2 <= r <= b.
Proof.
  induction fuel as [|fuel IH]; intros d k a b x1 x2 v Hpos Hw Hb Hlim; [discriminate|].
  rewrite goldenLoop_step.
  change (gtb (sub (Fin b) (Fin a)) (Fin t)) with (Rltb t (b - a)).
  destruct (Rlt_dec t (b - a)) as [Hgt|Hle].
  - destruct d as [|d]; [simpl in Hw; lra|].
    assert (Hk : ltb (Fin (INR k)) maxIter = true).
    { apply (ltb_of_lt_leb _ (INR (k + S d))); [|exact Hb].
      apply lt_INR. lia. }
    assert (Hk' : INR k < 9007199254740992).
    { apply Rlt_le_trans with (INR (k + S d)); [apply lt_INR; lia | exact Hlim]. }
    rewrite Hk, (Rltb_of_lt _ _ Hgt), Hflat. cbn [andb].
    rewrite (counter_succ k Hk'), golden_step_right.
    rewrite <- Nat.add_succ_comm in Hb, Hlim. intros H.
    apply (IH d (S k) _ _ _ _ v (golden_pos_right _ _ _ _ Hpos)) in H;
      [exact H | | exact Hb | exact Hlim].
    pose proof phiR_bounds as HP. pose proof (pow_le phiR d ltac:(lra)) as Hpow.
    destruct Hpos as (_ & E1 & _). rewrite E1. simpl in Hw. nra.
  - rewrite (Rltb_of_ge t (b - a)) by lra. rewrite andb_false_r.
    rewrite midpoint_fin. intros H; injection H as <-.
    eexists; split; [reflexivity|].
    destruct Hpos as (Hab & _). lra.
Qed.

Lemma goldenSection_flat (lo hi : R) (d fuel : nat) (v : num) :
  lo <= hi -> phiR ^ d * (hi - lo) <= t ->
  leb (Fin (INR d)) maxIter = true ->
  INR d <= 9007199254740992 ->
  goldenSection f (Fin lo) (Fin hi) (Fin t) maxIter fuel = Some v ->
  exists r, v = Fin r /\ hi - t / 2 <= r <= hi.
Proof.
  intros Hle Hw Hb Hlim. unfold goldenSection.
  rewrite golden_step_left, golden_step_right.
  change (Fin 0) with (Fin (INR 0)).
  apply (goldenLoop_flat fuel d 0);
    [repeat split; lra | exact Hw | exact Hb | exact Hlim].
Qed.
End FlatLoss.

Lemma lossOf_unusable (predict : Date -> num -> num -> num -> num -> num)
    (observed : Observation -> option num) (subset : list Observation) (x : num) :
  Forall (fun o => forall a,
            isFinite (predict (date o) (lat o) (lng o) (tz o) a) = false) subset ->
  lossOf predict observed subset x = Fin 0.
Proof.
  intros H. unfold lossOf. generalize (Fin 0).
  induction H as [|o l Ho _ IH]; intros acc; [reflexivity|].
  cbn [fold_left]. rewrite (Ho x). cbn [negb]. apply IH.
Qed.

Lemma fittedOrGuess_unusable (predict : Date -> num -> num -> num -> num -> num)
    (observed : Observation -> option num) (subset : list Observation)
    (min max tol maxIter guess v : num) (lo hi t : R) (fuel : nat) :
  Forall (fun o => forall a,
            isFinite (predict (date o) (lat o) (lng o) (tz o) a) = false) subset ->
  (2 <= length subset)%nat ->
  fitSettings min max tol maxIter lo hi t ->
  fittedOrGuess (lossOf predict observed subset) subset min max tol maxIter guess fuel
  = Some v ->
  exists a, v = Fin a /\ hi - t / 2 <= a <= hi.
Proof.
  intros Hall Hlen Hset. pose proof (fitSettings_width _ _ _ _ _ _ _ Hset) as Hw.
  destruct Hset as (-> & -> & -> & H0 & Hle & H22 & Ht & Hb).
  unfold fittedOrGuess.
  apply Nat.leb_le in Hlen. rewrite Hlen.
  apply (goldenSection_flat (lossOf predict observed subset) t maxIter) with (d := 60%nat).
  - intros x y. rewrite !lossOf_unusable by exact Hall. apply ltb_irrefl.
  - exact Hle.
  - exact Hw.
  - now rewrite INR_60.
  - rewrite INR_60. lra.
Qed.

Lemma prayerResidual_unusable (predict : Date -> num -> num -> num -> num -> num)
    (observed : Observation -> option num) (l : list Observation) (x : num) :
  Forall (fun o => forall a,
            isFinite (predict (date o) (lat o) (lng o) (tz o) a) = false)
         (filter (fun o => isSome (observed o)) l) ->
  Forall (fun o => prayerResidual (predict (date o) (lat o) (lng o) (tz o) x)
                     (observed o) = None) l.
Proof.
  induction l as [|o l IH]; intros H; [constructor|].
  cbn [filter] in H. unfold prayerResidual at 1.
  destruct (observed o) eqn:E; cbn [isSome] in H.
  - inversion H; subst. constructor; [|now apply IH].
    rewrite E. now rewrite H2.
  - constructor; [|now apply IH]. now rewrite E.
Qed.

(** X10. Observations that cannot be used do not make [calibrateAngles]
    fail: when no observation has a finite prediction at any angle, a call
    that returns reports an RMS of 0 and no residual, and each fitted angle
    (found without any data) lies within the tolerance of the upper bound of
    its interval, under the settings of C1 (an interval within [0, 22], a
    tolerance of at least 1e-9, a budget of at least 60 passes). *)
Theorem calibrateAngles_unusable_observations (fuel : nat)
    (observations : list Observation)
    (options : CalibrationOptions) (r : CalibrationResult) :
  calibrateAngles fuel observations options = Some (Returns r) ->
  Forall (fun o => forall a,
            isFinite (predictFajr (date o) (lat o) (lng o) (tz o) a) = false)
         (fajrSubset observations) ->
  Forall (fun o => forall a,
            isFinite (predictIsha (date o) (lat o) (lng o) (tz o) a) = false)
         (ishaSubset observations) ->
  rmsMinutes r = Fin 0
  /\ residuals r = map (fun _ => mkResidual None None) observations
  /\ (forall lo hi t : R,
        dawnSettings options lo hi t ->
        (2 <= length (fajrSubset observations))%nat ->
        exists a, fajrAngle (angles r) = Fin a /\ hi - t <= a <= hi)
  /\ (forall lo hi t : R,
        duskSettings options lo hi t ->
        (2 <= length (ishaSubset observations))%nat ->
        exists a, ishaAngle (angles r) = Fin a /\ hi - t <= a <= hi).
Proof.
  intros Hr Uf Ui.
  destruct (calibrateAngles_returns _ _ _ _ Hr) as (Hf & Hi & Hres & _).
  set (fa := fajrAngle (angles r)) in *. set (ia := ishaAngle (angles r)) in *.
  assert (Hnone : Forall (fun o => residualOf fa ia o = mkResidual None None)
                    observations).
  { pose proof (prayerResidual_unusable predictFajr fajr observations fa Uf) as Pf.
    pose proof (prayerResidual_unusable predictIsha isha observations ia Ui) as Pi.
    rewrite Forall_forall in *. intros o Ho. unfold residualOf.
    now rewrite (Pf o Ho), (Pi o Ho). }
  split; [|split; [|split]].
  - rewrite Hres, (proj1 (proj2 (proj2 (resultAt_fields observations _ _)))).
    cbv zeta.
    rewrite (mapAccum_snd_skip _ _ observations
               (fun s o H => residualStep_no_residual _ _ s o H) Hnone).
    cbn [fst snd]. now rewrite gtb_zero_zero.
  - rewrite (calibrateAngles_residuals _ _ _ _ Hr). fold fa ia.
    apply map_ext_in. intros o Ho. rewrite Forall_forall in Hnone. now apply Hnone.
  - intros lo hi t Hset Hlen. unfold fajrFit in Hf. rewrite fajrLoss_lossOf in Hf.
    destruct (fittedOrGuess_unusable _ _ _ _ _ _ _ _ _ _ _ _ _ Uf Hlen Hset Hf)
      as (a & Ha & Hb).
    pose proof Hset as (_ & _ & _ & _ & _ & _ & Ht & _).
    exists a. split; [exact Ha | lra].
  - intros lo hi t Hset Hlen. unfold ishaFit in Hi. rewrite ishaLoss_lossOf in Hi.
    destruct (fittedOrGuess_unusable _ _ _ _ _ _ _ _ _ _ _ _ _ Ui Hlen Hset Hi)
      as (a & Ha & Hb).
    pose proof Hset as (_ & _ & _ & _ & _ & _ & Ht & _).
    exists a. split; [exact Ha | lra].
Qed.

Lemma calibrateAngles_unusable_observations_witness :
  exists fuel r a,
    calibrateAngles fuel noResidualObs noOptions = Some (Returns r)
    /\ rmsMinutes r = Fin 0
    /\ fajrAngle (angles r) = Fin a /\ 22 - 1e-5 <= a <= 22.
Proof.
  destruct (calibrateAngles_returns_of_budget noResidualObs noOptions)
    as (fuel & r & Hr); [left; cbn; lia | exact default_budget_finite |].
  destruct (calibrateAngles_unusable_observations fuel noResidualObs noOptions r Hr)
    as (Hrms & _ & Hfa & _).
  { repeat constructor; intros a; cbn [date]; now rewrite predictFajr_invalid_date. }
  { repeat constructor; intros a; cbn [date]; now rewrite predictIsha_invalid_date. }
  destruct (Hfa 10 22 1e-5 (proj1 default_settings)) as (a & Ha & Hb).
  { cbn. lia. }
  exists fuel, r, a. repeat split; try assumption; lra.
Defined.

(* ------------------------------------------------------------------ *)
(** ** The observation count *)

Lemma filter_length_le {A : Type} (p : A -> bool) (l : list A) :
  (length (filter p l) <= length l)%nat.
Proof.
  induction l as [|x l IH]; cbn; [lia|]. destruct (p x); cbn; lia.
Qed.

(** X11. [observationCount] is half the number of observed times: a dual
    observation counts 1 and a single-prayer one 0.5, whether or not its
    prediction was finite.  It is at least 1 and at most the number of
    observations. *)
Theorem calibrateAngles_observationCount (fuel : nat)
    (observations : list Observation)
    (options : CalibrationOptions) (r : CalibrationResult) :
  calibrateAngles fuel observations options = Some (Returns r) ->
  exists c,
    observationCount r = Fin c
    /\ 2 * c = INR (length (fajrSubset observations))
               + INR (length (ishaSubset observations))
    /\ 1 <= c <= INR (length observations).
Proof.
  intros Hr.
  destruct (calibrateAngles_returns _ _ _ _ Hr) as (_ & _ & E & Hlen).
  rewrite E, (proj2 (proj2 (proj2 (resultAt_fields observations _ _)))).
  set (nf := length (fajrSubset observations)) in *.
  set (ni := length (ishaSubset observations)) in *.
  exists ((INR nf + INR ni) / 2).
  split; [cbn [add]; apply div_fin; lra|].
  split; [field|].
  assert (Hf : (nf <= length observations)%nat) by apply filter_length_le.
  assert (Hi : (ni <= length observations)%nat) by apply filter_length_le.
  apply le_INR in Hf, Hi.
  pose proof (pos_INR nf). pose proof (pos_INR ni).
  assert (H2 : 2 <= INR nf \/ 2 <= INR ni).
  { destruct Hlen as [Hl|Hl]; apply le_INR in Hl; simpl in Hl; [left|right]; lra. }
  split; lra.
Qed.

Lemma calibrateAngles_observationCount_witness :
  exists fuel r, calibrateAngles fuel dawnHeavyObs noOptions = Some (Returns r)
    /\ observationCount r = Fin 3.
Proof.
  destruct (calibrateAngles_returns_of_budget dawnHeavyObs noOptions)
    as (fuel & r & Hr); [left; cbn; lia | exact default_budget_finite |].
  destruct (calibrateAngles_observationCount _ _ _ _ Hr) as (c & Hc & H2 & _).
  exists fuel, r. split; [exact Hr|]. rewrite Hc. f_equal.
  cbn in H2. lra.
Defined.

(* ------------------------------------------------------------------ *)
(** ** The two fits are independent *)

Lemma goldenLoop_ext (f g : num -> num) (tol maxIter : num) (fuel : nat) :
  (forall x, f x = g x) ->
  forall i a b x1 x2 f1 f2,
    goldenLoop f tol maxIter fuel i a b x1 x2 f1 f2
    = goldenLoop g tol maxIter fuel i a b x1 x2 f1 f2.
Proof.
  intros Hfg. induction fuel as [|fuel IH]; intros i a b x1 x2 f1 f2; [reflexivity|].
  rewrite !goldenLoop_step. rewrite !Hfg, !IH. reflexivity.
Qed.

Lemma goldenSection_ext (f g : num -> num) (a b tol maxIter : num) (fuel : nat) :
  (forall x, f x = g x) ->
  goldenSection f a b tol maxIter fuel = goldenSection g a b tol maxIter fuel.
Proof.
  intros Hfg. unfold goldenSection. rewrite !Hfg. now apply goldenLoop_ext.
Qed.

(** Two runs of one search that end return the same point, whatever their
    fuel. *)
Lemma goldenSection_fuel (f : num -> num) (a b tol maxIter : num)
    (fuel fuel' : nat) (v v' : num) :
  goldenSection f a b tol maxIter fuel = Some v ->
  goldenSection f a b tol maxIter fuel' = Some v' ->
  v = v'.
Proof.
  unfold goldenSection. intros H H'.
  destruct (Nat.le_ge_cases fuel fuel') as [Hle|Hle].
  - apply (goldenLoop_more_fuel _ _ _ _ _ _ _ _ _ _ _ _ _ Hle) in H. congruence.
  - apply (goldenLoop_more_fuel _ _ _ _ _ _ _ _ _ _ _ _ _ Hle) in H'. congruence.
Qed.

Section OnePrayer.
Variable predict : Date -> num -> num -> num -> num -> num.
Variable observed : Observation -> option num.

Lemma filter_same (l l' : list Observation) :
  Forall2 (sameFitData observed) l l' ->
  Forall2 (sameFitData observed) (filter (fun o => isSome (observed o)) l)
               (filter (fun o => isSome (observed o)) l').
Proof.
  induction 1 as [|o o' l l' Ho _ IH]; [constructor|].
  cbn [filter]. destruct Ho as (Hd & Hl & Hg & Ht & Hobs & Hw).
  rewrite <- Hobs. destruct (isSome (observed o)); [|exact IH].
  constructor; [|exact IH]. repeat split; assumption.
Qed.

Lemma lossOf_same (l l' : list Observation) (x : num) :
  Forall2 (sameFitData observed) l l' ->
  lossOf predict observed l x = lossOf predict observed l' x.
Proof.
  intros H. unfold lossOf. generalize (Fin 0).
  induction H as [|o o' l l' Ho _ IH]; intros acc; [reflexivity|].
  cbn [fold_left]. destruct Ho as (Hd & Hl & Hg & Ht & Hobs & Hw).
  rewrite <- Hd, <- Hl, <- Hg, <- Ht, <- Hobs, <- Hw. apply IH.
Qed.

Lemma fittedOrGuess_same (l l' : list Observation) (lo hi tol maxIter guess : num)
    (fuel fuel' : nat) (v v' : num) :
  Forall2 (sameFitData observed) l l' ->
  fittedOrGuess (lossOf predict observed l) l lo hi tol maxIter guess fuel = Some v ->
  fittedOrGuess (lossOf predict observed l') l' lo hi tol maxIter guess fuel' = Some v' ->
  v = v'.
Proof.
  intros H. unfold fittedOrGuess.
  rewrite (Forall2_length H).
  destruct (2 <=? length l')%nat; [|congruence].
  rewrite (goldenSection_ext _ (lossOf predict observed l'))
    by (intros x; now apply lossOf_same).
  apply goldenSection_fuel.
Qed.
End OnePrayer.

(** X12. The two fits are decoupled: the fitted dawn angle depends on the
    observations only through their dates, places, weights and dawn times,
    and on the options only through the dawn settings, the tolerance and the
    iteration budget; likewise for the dusk angle. *)
Theorem calibrateAngles_decoupled (fuel fuel' : nat)
    (observations observations' : list Observation)
    (options options' : CalibrationOptions) (r r' : CalibrationResult) :
  calibrateAngles fuel observations options = Some (Returns r) ->
  calibrateAngles fuel' observations' options' = Some (Returns r') ->
  (Forall2 (sameFitData fajr) observations observations' ->
   sameDawnOptions options options' ->
   fajrAngle (angles r) = fajrAngle (angles r'))
  /\ (Forall2 (sameFitData isha) observations observations' ->
      sameDuskOptions options options' ->
      ishaAngle (angles r) = ishaAngle (angles r')).
Proof.
  intros Hr Hr'.
  destruct (calibrateAngles_returns _ _ _ _ Hr) as (Hf & Hi & _).
  destruct (calibrateAngles_returns _ _ _ _ Hr') as (Hf' & Hi' & _).
  split.
  - intros Hobs (E0 & Emin & Emax & Eit & Etol).
    unfold fajrFit in Hf, Hf'.
    rewrite E0, Emin, Emax, Eit, Etol, fajrLoss_lossOf in Hf.
    rewrite fajrLoss_lossOf in Hf'.
    exact (fittedOrGuess_same predictFajr fajr _ _ _ _ _ _ _ _ _ _ _
             (filter_same fajr _ _ Hobs) Hf Hf').
  - intros Hobs (E0 & Emin & Emax & Eit & Etol).
    unfold ishaFit in Hi, Hi'.
    rewrite E0, Emin, Emax, Eit, Etol, ishaLoss_lossOf in Hi.
    rewrite ishaLoss_lossOf in Hi'.
    exact (fittedOrGuess_same predictIsha isha _ _ _ _ _ _ _ _ _ _ _
             (filter_same isha _ _ Hobs) Hi Hi').
Qed.

Lemma calibrateAngles_decoupled_witness :
  exists fuel fuel' r r',
    calibrateAngles fuel dawnHeavyObs noOptions = Some (Returns r)
    /\ calibrateAngles fuel' (map dawnOnly dawnHeavyObs) narrowDusk = Some (Returns r')
    /\ fajrAngle (angles r) = fajrAngle (angles r').
Proof.
  destruct (calibrateAngles_returns_of_budget dawnHeavyObs noOptions)
    as (fuel & r & Hr); [left; cbn; lia | exact default_budget_finite |].
  destruct (calibrateAngles_returns_of_budget (map dawnOnly dawnHeavyObs) narrowDusk)
    as (fuel' & r' & Hr'); [left; cbn; lia | cbn; lra |].
  exists fuel, fuel', r, r'. split; [exact Hr|]. split; [exact Hr'|].
  apply (proj1 (calibrateAngles_decoupled _ _ _ _ _ _ _ _ Hr Hr')).
  - repeat constructor.
  - repeat split.
Defined.

(* ------------------------------------------------------------------ *)
(** ** The scorer and the calibrator agree *)

Lemma scoreStep_sums (fa ia : num) (s : ScoreAcc) (o : Observation) :
  sumsOf (snd (scoreStep fa ia s o)) = snd (residualStep fa ia (sumsOf s) o).
Proof.
  unfold scoreStep, residualStep, scoreFajr, scoreIsha, sumsOf.
  destruct (fajr o), (isha o); cbv zeta; split_finite; reflexivity.
Qed.

Lemma scorePass_sums (fa ia : num) (l : list Observation) :
  forall s, sumsOf (snd (mapAccum (scoreStep fa ia) l s))
            = snd (mapAccum (residualStep fa ia) l (sumsOf s)).
Proof.
  induction l as [|o l IH]; intros s; [reflexivity|].
  rewrite !mapAccum_cons. cbn [snd]. rewrite IH, scoreStep_sums. reflexivity.
Qed.

(** X13. Scoring the calibrated angles reproduces the calibration: on the
    same observations [scoreAngles] at the fitted angles reports the RMS and
    the residuals of the [calibrateAngles] result. *)
Theorem scoreAngles_of_calibrated (fuel : nat) (observations : list Observation)
    (options : CalibrationOptions) (r : CalibrationResult) :
  calibrateAngles fuel observations options = Some (Returns r) ->
  let s := scoreAngles observations (fajrAngle (angles r)) (ishaAngle (angles r)) in
  score_rmsMinutes s = rmsMinutes r /\ score_residuals s = residuals r.
Proof.
  intros Hr s. subst s.
  destruct (calibrateAngles_returns _ _ _ _ Hr) as (_ & _ & E & _).
  split.
  - rewrite scoreAngles_fields. cbn [score_rmsMinutes].
    replace (rmsMinutes r)
      with (rmsMinutes (resultAt observations (fajrAngle (angles r))
                          (ishaAngle (angles r)))) by (now rewrite <- E).
    rewrite (proj1 (proj2 (proj2 (resultAt_fields observations _ _)))). cbv zeta.
    pose proof (scorePass_sums (fajrAngle (angles r)) (ishaAngle (angles r))
                  observations scoreAcc0) as H.
    change (sumsOf scoreAcc0) with (Fin 0, Fin 0) in H.
    rewrite <- H. reflexivity.
  - rewrite scoreAngles_residuals. symmetry.
    exact (calibrateAngles_residuals _ _ _ _ Hr).
Qed.

Lemma scoreAngles_of_calibrated_witness :
  exists fuel r, calibrateAngles fuel dawnHeavyObs noOptions = Some (Returns r)
    /\ score_rmsMinutes
         (scoreAngles dawnHeavyObs (fajrAngle (angles r)) (ishaAngle (angles r)))
       = rmsMinutes r.
Proof.
  destruct (calibrateAngles_returns_of_budget dawnHeavyObs noOptions)
    as (fuel & r & Hr); [left; cbn; lia | exact default_budget_finite |].
  exists fuel, r. split; [exact Hr|].
  apply (scoreAngles_of_calibrated _ _ _ _ Hr).
Defined.

(* ------------------------------------------------------------------ *)
(** ** The aggregates of the scorer *)

Lemma weighted_term_bound (w m eps : R) :
  0 < w -> Rabs m <= eps -> Rabs (w * m) <= eps * w.
Proof.
  intros Hw Hm. rewrite Rabs_mult, (Rabs_pos_eq w) by lra.
  pose proof (Rabs_pos m). nra.
Qed.

Section ScorePass.
Variable eps : R.
Variables fa ia : num.

Lemma scoreFajr_within (w : R) (s : ScoreAcc) (o : Observation) :
  0 < w -> accWithin eps s ->
  residualBounded eps (fajrMin (residualOf fa ia o)) ->
  accWithin eps (snd (scoreFajr fa (Fin w) s o)).
Proof.
  intros Hw (SS & W & FB & FW & IB & IW & -> & HW & HSS & HFW & HFB & HIW & HIB).
  unfold residualOf, prayerResidual, scoreFajr. cbn [fajrMin].
  destruct (fajr o) as [t|]; [|intros _; now exists SS, W, FB, FW, IB, IW].
  destruct (isFinite _); [|intros _; now exists SS, W, FB, FW, IB, IW].
  cbv zeta.
  destruct (mul (sub _ t) (Fin 60)) as [m| | |]; cbn [residualBounded];
    try contradiction.
  intros Hm. cbn [snd sa_totalWeightedSS sa_totalWeight sa_fajrWeightedBias
                  sa_fajrWeightCount sa_ishaWeightedBias sa_ishaWeightCount add mul].
  exists (SS + w * m * m), (W + w), (FB + w * m), (FW + w), IB, IW.
  split; [reflexivity|].
  pose proof (sq_le_bound w m eps Hw Hm).
  pose proof (weighted_term_bound w m eps Hw Hm).
  pose proof (Rabs_triang FB (w * m)).
  repeat split; try lra.
Qed.

Lemma scoreIsha_within (w : R) (s : ScoreAcc) (o : Observation) :
  0 < w -> accWithin eps s ->
  residualBounded eps (ishaMin (residualOf fa ia o)) ->
  accWithin eps (snd (scoreIsha ia (Fin w) s o)).
Proof.
  intros Hw (SS & W & FB & FW & IB & IW & -> & HW & HSS & HFW & HFB & HIW & HIB).
  unfold residualOf, prayerResidual, scoreIsha. cbn [ishaMin].
  destruct (isha o) as [t|]; [|intros _; now exists SS, W, FB, FW, IB, IW].
  destruct (isFinite _); [|intros _; now exists SS, W, FB, FW, IB, IW].
  cbv zeta.
  destruct (mul (sub _ t) (Fin 60)) as [m| | |]; cbn [residualBounded];
    try contradiction.
  intros Hm. cbn [snd sa_totalWeightedSS sa_totalWeight sa_fajrWeightedBias
                  sa_fajrWeightCount sa_ishaWeightedBias sa_ishaWeightCount add mul].
  exists (SS + w * m * m), (W + w), FB, FW, (IB + w * m), (IW + w).
  split; [reflexivity|].
  pose proof (sq_le_bound w m eps Hw Hm).
  pose proof (weighted_term_bound w m eps Hw Hm).
  pose proof (Rabs_triang IB (w * m)).
  repeat split; try lra.
Qed.

Lemma scoreStep_within (s : ScoreAcc) (o : Observation) :
  accWithin eps s -> scoredWithin eps fa ia o ->
  accWithin eps (snd (scoreStep fa ia s o)).
Proof.
  intros Hs ((w & Hw & Hpos) & Hf & Hi). unfold scoreStep. rewrite Hw.
  pose proof (scoreFajr_within w s o Hpos Hs Hf) as H1.
  destruct (scoreFajr fa (Fin w) s o) as [f s1]. cbn [snd] in H1.
  pose proof (scoreIsha_within w s1 o Hpos H1 Hi) as H2.
  destruct (scoreIsha ia (Fin w) s1 o) as [i s2]. exact H2.
Qed.

Lemma scorePass_within (l : list Observation) :
  Forall (scoredWithin eps fa ia) l ->
  forall s, accWithin eps s -> accWithin eps (snd (mapAccum (scoreStep fa ia) l s)).
Proof.
  induction 1 as [|o l Ho _ IH]; intros s Hs; [exact Hs|].
  rewrite mapAccum_cons. cbn [snd]. apply IH. now apply scoreStep_within.
Qed.

Lemma bias_bound (B W : R) :
  0 <= eps -> 0 <= W -> Rabs B <= eps * W ->
  exists b,
    (if gtb (Fin W) (Fin 0) then div (Fin B) (Fin W) else Fin 0) = Fin b
    /\ Rabs b <= eps.
Proof.
  intros He HW HB. unfold gtb. cbn [ltb].
  destruct (Rlt_dec 0 W) as [Hpos|Hz].
  - rewrite (Rltb_of_lt _ _ Hpos), div_fin by lra.
    exists (B / W). split; [reflexivity|].
    unfold Rdiv. rewrite Rabs_mult, (Rabs_pos_eq (/ W)).
    2:{ left. now apply Rinv_0_lt_compat. }
    apply Rmult_le_reg_r with W; [exact Hpos|].
    rewrite Rmult_assoc, Rinv_l by lra. lra.
  - rewrite Rltb_of_ge by lra. exists 0. split; [reflexivity|].
    rewrite Rabs_R0. exact He.
Qed.
End ScorePass.

Lemma rms_bound_nonneg (eps S W : R) :
  0 <= eps -> 0 <= W -> 0 <= S <= eps * eps * W ->
  exists rho,
    (if gtb (Fin W) (Fin 0) then Math.sqrt (div (Fin S) (Fin W)) else Fin 0) = Fin rho
    /\ 0 <= rho <= eps.
Proof.
  intros He HW HS. destruct (Rlt_dec 0 W) as [Hpos|Hz].
  - now apply rms_bound.
  - unfold gtb. cbn [ltb]. rewrite Rltb_of_ge by lra.
    exists 0. split; [reflexivity | lra].
Qed.

Lemma prayerResidual_generated (p : num) :
  residualBounded 0 (prayerResidual p (Some p)).
Proof.
  unfold prayerResidual. destruct p as [x| | |]; cbn; try exact I.
  replace ((x + - x) * 60) with 0 by ring. rewrite Rabs_R0. lra.
Qed.

Lemma generatedBy_scoredWithin (fa ia : num) (o : Observation) :
  generatedBy fa ia o -> scoredWithin 0 fa ia o.
Proof.
  intros (Hw & Hf & Hi). split; [exact Hw|]. unfold residualOf. cbn [fajrMin ishaMin].
  split.
  - destruct Hf as [-> | ->]; [exact I | apply prayerResidual_generated].
  - destruct Hi as [-> | ->]; [exact I | apply prayerResidual_generated].
Qed.

(** X14. The aggregates of [scoreAngles] are averages: when every residual
    is finite and at most [eps] in magnitude, the RMS and the magnitude of
    both biases are at most [eps], up to one part in 100000 (which leaves
    room for the rounding of the sums); for weights between 1e-100 and
    1e100 and [eps] between 1e-50 and 1e50, where no sum overflows or
    underflows. *)
Theorem scoreAngles_bounded_by_residuals (observations : list Observation)
    (fa ia : num) (eps : R) :
  1e-50 <= eps <= 1e50 ->
  Forall ordinaryWeight observations ->
  Forall (scoredWithin eps fa ia) observations ->
  exists rho bf bi,
    score_rmsMinutes (scoreAngles observations fa ia) = Fin rho
    /\ score_fajrBiasMinutes (scoreAngles observations fa ia) = Fin bf
    /\ score_ishaBiasMinutes (scoreAngles observations fa ia) = Fin bi
    /\ 0 <= rho <= 1.00001 * eps
    /\ Rabs bf <= 1.00001 * eps /\ Rabs bi <= 1.00001 * eps.
Proof.
  intros [He0 _] _ Hall.
  assert (He : 0 <= eps).
  { apply Rle_trans with 1e-50; [|exact He0].
    apply Rlt_le. apply Rmult_lt_reg_r with 1e50; lra. }
  rewrite scoreAngles_fields. cbv zeta.
  cbn [score_rmsMinutes score_fajrBiasMinutes score_ishaBiasMinutes].
  destruct (scorePass_within eps fa ia observations Hall scoreAcc0)
    as (SS & W & FB & FW & IB & IW & E & HW & HSS & HFW & HFB & HIW & HIB).
  { exists 0, 0, 0, 0, 0, 0. split; [reflexivity|].
    rewrite Rabs_R0. repeat split; lra. }
  unfold scoreAccOf. rewrite E.
  cbn [sa_totalWeightedSS sa_totalWeight sa_fajrWeightedBias
       sa_fajrWeightCount sa_ishaWeightedBias sa_ishaWeightCount].
  destruct (rms_bound_nonneg eps SS W He HW HSS) as (rho & -> & Hrho).
  destruct (bias_bound eps FB FW He HFW HFB) as (bf & -> & Hbf).
  destruct (bias_bound eps IB IW He HIW HIB) as (bi & -> & Hbi).
  exists rho, bf, bi. repeat split; try reflexivity; try lra.
Qed.

Lemma equatorLate_scoredWithin :
  Forall (scoredWithin 1 (Fin 15) (Fin 15)) equatorLate.
Proof.
  assert (H : forall d, In d [MkDate 2000 0 1; MkDate 2000 0 2] ->
            scoredWithin 1 (Fin 15) (Fin 15) (oneMinuteLate d)).
  { intros d Hd. destruct (equator_finite d 15 Hd ltac:(lra)) as [Hf Hi].
    apply isFinite_true in Hf as [f Hf]. apply isFinite_true in Hi as [i Hi].
    split; [exists 1; split; [reflexivity | lra]|].
    unfold residualOf, oneMinuteLate.
    cbn [date lat lng tz fajr isha fajrMin ishaMin prayerResidual].
    rewrite Hf, Hi.
    cbn [isFinite toR sub add neg mul residualBounded].
    split; apply Rabs_le; lra. }
  unfold equatorLate.
  apply Forall_cons; [apply H; now left|].
  apply Forall_cons; [apply H; right; now left | apply Forall_nil].
Qed.

Lemma equatorLate_ordinaryWeight : Forall ordinaryWeight equatorLate.
Proof.
  assert (H : 1e-100 <= 1 <= 1e100).
  { split; [|lra]. apply Rlt_le. apply Rmult_lt_reg_r with 1e100; lra. }
  unfold equatorLate.
  repeat (apply Forall_cons || apply Forall_nil);
    (exists 1; split; [reflexivity | exact H]).
Qed.

Lemma scoreAngles_bounded_by_residuals_witness :
  exists rho bf bi,
    score_rmsMinutes (scoreAngles equatorLate (Fin 15) (Fin 15)) = Fin rho
    /\ score_fajrBiasMinutes (scoreAngles equatorLate (Fin 15) (Fin 15)) = Fin bf
    /\ score_ishaBiasMinutes (scoreAngles equatorLate (Fin 15) (Fin 15)) = Fin bi
    /\ 0 <= rho <= 1.00001 * 1
    /\ Rabs bf <= 1.00001 * 1 /\ Rabs bi <= 1.00001 * 1.
Proof.
  apply scoreAngles_bounded_by_residuals;
    [ | exact equatorLate_ordinaryWeight | exact equatorLate_scoredWithin].
  split; [|lra]. apply Rlt_le. apply Rmult_lt_reg_r with 1e50; lra.
Defined.

(** X15. Scoring data at the angles that generated it gives zero: when the
    observed times are the predictor's own at the scored angles and the
    weights are positive, the RMS and both biases are 0. *)
Theorem scoreAngles_round_trip (observations : list Observation) (fa ia : num) :
  Forall (generatedBy fa ia) observations ->
  scoreAggregates (scoreAngles observations fa ia) = (Fin 0, Fin 0, Fin 0).
Proof.
  intros Hall.
  assert (H0 : Forall (scoredWithin 0 fa ia) observations).
  { eapply Forall_impl; [|exact Hall]. apply generatedBy_scoredWithin. }
  rewrite scoreAngles_fields. cbv zeta. unfold scoreAggregates.
  cbn [score_rmsMinutes score_fajrBiasMinutes score_ishaBiasMinutes].
  destruct (scorePass_within 0 fa ia observations H0 scoreAcc0)
    as (SS & W & FB & FW & IB & IW & E & HW & HSS & HFW & HFB & HIW & HIB).
  { exists 0, 0, 0, 0, 0, 0. split; [reflexivity|].
    rewrite Rabs_R0. repeat split; lra. }
  unfold scoreAccOf. rewrite E.
  cbn [sa_totalWeightedSS sa_totalWeight sa_fajrWeightedBias
       sa_fajrWeightCount sa_ishaWeightedBias sa_ishaWeightCount].
  destruct (rms_bound_nonneg 0 SS W (Rle_refl 0) HW HSS) as (rho & -> & Hrho).
  destruct (bias_bound 0 FB FW (Rle_refl 0) HFW HFB) as (bf & -> & Hbf).
  destruct (bias_bound 0 IB IW (Rle_refl 0) HIW HIB) as (bi & -> & Hbi).
  apply Rabs_between in Hbf, Hbi.
  repeat f_equal; lra.
Qed.

Lemma scoreAngles_round_trip_witness :
  scoreAggregates (scoreAngles (nySynthetic 15) (Fin 15) (Fin 15))
  = (Fin 0, Fin 0, Fin 0).
Proof.
  apply scoreAngles_round_trip.
  unfold nySynthetic. apply Forall_map.
  repeat (apply Forall_cons || apply Forall_nil);
    (split; [exists 1; split; [reflexivity | lra]|]);
    split; right; reflexivity.
Defined.

(* ------------------------------------------------------------------ *)
(** ** The solver *)

Lemma phiR_pow_60_200 : phiR ^ 60 * 200 <= 1e-9.
Proof.
  pose proof phiR_tight as [P1 P2].
  assert (H2 : 0 <= phiR ^ 2 <= 0.4) by (simpl; split; nra).
  assert (H4 : 0 <= phiR ^ 4 <= 0.16).
  { replace (phiR ^ 4) with (phiR ^ 2 * phiR ^ 2) by (simpl; ring). split; nra. }
  assert (H8 : 0 <= phiR ^ 8 <= 0.03).
  { replace (phiR ^ 8) with (phiR ^ 4 * phiR ^ 4) by (simpl; ring). split; nra. }
  assert (H16 : 0 <= phiR ^ 16 <= 1 / 1000).
  { replace (phiR ^ 16) with (phiR ^ 8 * phiR ^ 8) by (simpl; ring). split; nra. }
  assert (H48 : 0 <= (phiR ^ 16) ^ 3 <= (1 / 1000) ^ 3).
  { split; [apply pow_le; lra | apply pow_incr; lra]. }
  assert (H12 : 0 <= phiR ^ 12 <= 0.0048).
  { replace (phiR ^ 12) with (phiR ^ 8 * phiR ^ 4) by (simpl; ring). split; nra. }
  replace 60%nat with (16 * 3 + 12)%nat by reflexivity.
  rewrite pow_add, pow_mult.
  assert (E : (1 / 1000) ^ 3 = 1e-9) by (simpl; lra).
  nra.
Qed.

(** X16. Golden-section search finds the minimum of a unimodal function:
    when [f] strictly decreases up to [theta] and strictly increases from
    it on [lo, hi], an interval within [-100, 100], the search ends for a
    tolerance [t] of at least 1e-9 and a budget of at least 60 passes, and
    its result lies in [lo, hi], within [t] of [theta]. *)
Theorem goldenSection_finds_minimum (f : num -> num) (lo hi theta t : R)
    (maxIter : num) :
  unimodalAt f lo hi theta ->
  -100 <= lo -> lo <= theta <= hi -> hi <= 100 ->
  1e-9 <= t -> leb (Fin 60) maxIter = true ->
  exists fuel r,
    goldenSection f (Fin lo) (Fin hi) (Fin t) maxIter fuel = Some (Fin r)
    /\ lo <= r <= hi
    /\ Rabs (r - theta) <= t.
Proof.
  intros Hf Hlo Hth Hhi Ht Hb.
  assert (Hw : phiR ^ 60 * (hi - lo) <= t).
  { pose proof phiR_pow_60_200 as H. pose proof phiR_bounds as HP.
    pose proof (pow_le phiR 60 ltac:(lra)) as Hp. nra. }
  destruct (goldenSection_ends lo hi t maxIter f 60 61) as [v Hv];
    [lra | exact Hw | lia |].
  destruct (goldenSection_converges f lo hi theta t Hf maxIter 60 61 v Hth Hw)
    as (r & -> & Hr); [now rewrite INR_60 | rewrite INR_60; lra | exact Hv |].
  destruct (goldenSection_in_bracket f lo hi (Fin t) maxIter 61 (Fin r)) as (r' & E & Hin);
    [lra | exact Hv |].
  injection E as <-.
  exists 61%nat, r. repeat split; try assumption; lra.
Qed.

Lemma parabola_unimodal : unimodalAt parabola 0 10 3.
Proof.
  split; intros x y H1 H2 H3; unfold parabola; cbn; apply Rltb_of_lt; nra.
Qed.

Lemma goldenSection_finds_minimum_witness :
  exists fuel r,
    goldenSection parabola (Fin 0) (Fin 10) (Fin 1e-3) (Fin 200) fuel = Some (Fin r)
    /\ 0 <= r <= 10 /\ Rabs (r - 3) <= 1e-3.
Proof.
  apply (goldenSection_finds_minimum parabola 0 10 3 1e-3 (Fin 200) parabola_unimodal);
    try lra.
  cbn. apply Rleb_of_le. lra.
Defined.

Section InsideOnly.
Variables f g : num -> num.
Variables lo hi : R.
Hypothesis Hfg : forall x, lo <= x <= hi -> f (Fin x) = g (Fin x).

Lemma goldenLoop_inside (tol maxIter : num) (fuel : nat) :
  forall (i : num) (a b x1 x2 : R) (f1 f2 : num),
    golden_pos a b x1 x2 -> lo <= a -> b <= hi ->
    goldenLoop f tol maxIter fuel i (Fin a) (Fin b) (Fin x1) (Fin x2) f1 f2
    = goldenLoop g tol maxIter fuel i (Fin a) (Fin b) (Fin x1) (Fin x2) f1 f2.
Proof.
  induction fuel as [|fuel IH]; intros i a b x1 x2 f1 f2 Hpos Ha Hb; [reflexivity|].
  rewrite !goldenLoop_step.
  pose proof (golden_pos_order _ _ _ _ Hpos) as (H1 & H12 & H2).
  destruct (_ && _); [|reflexivity].
  destruct (ltb f1 f2).
  - rewrite !golden_step_left.
    pose proof (golden_pos_left _ _ _ _ Hpos) as Hpos'.
    pose proof (golden_pos_order _ _ _ _ Hpos') as (H1' & H12' & H2').
    rewrite Hfg by lra. apply IH; [exact Hpos' | lra | lra].
  - rewrite !golden_step_right.
    pose proof (golden_pos_right _ _ _ _ Hpos) as Hpos'.
    pose proof (golden_pos_order _ _ _ _ Hpos') as (H1' & H12' & H2').
    rewrite Hfg by lra. apply IH; [exact Hpos' | lra | lra].
Qed.
End InsideOnly.

(** X17. The solver never evaluates the loss outside its interval: two
    losses that agree on [lo, hi] give the same run and the same result, for
    bounds of at most 1e300 in magnitude (whose difference does not
    overflow). *)
Theorem goldenSection_evaluates_inside (f g : num -> num) (lo hi : R)
    (tol maxIter : num) (fuel : nat) :
  lo <= hi -> Rabs lo <= 1e300 -> Rabs hi <= 1e300 ->
  (forall x, lo <= x <= hi -> f (Fin x) = g (Fin x)) ->
  goldenSection f (Fin lo) (Fin hi) tol maxIter fuel
  = goldenSection g (Fin lo) (Fin hi) tol maxIter fuel.
Proof.
  intros Hle _ _ Hfg. unfold goldenSection.
  rewrite !golden_step_left, !golden_step_right.
  assert (Hpos : golden_pos lo hi (hi - phiR * (hi - lo)) (lo + phiR * (hi - lo))).
  { repeat split; lra. }
  pose proof (golden_pos_order _ _ _ _ Hpos) as (H1 & H12 & H2).
  rewrite !Hfg by lra.
  apply (goldenLoop_inside f g lo hi Hfg); [exact Hpos | lra | lra].
Qed.

Lemma goldenSection_evaluates_inside_witness :
  goldenSection parabolaInside (Fin 0) (Fin 10) (Fin 1e-3) (Fin 200) 300
  = goldenSection parabola (Fin 0) (Fin 10) (Fin 1e-3) (Fin 200) 300.
Proof.
  apply goldenSection_evaluates_inside; [lra | | |].
  - rewrite Rabs_R0. lra.
  - rewrite Rabs_pos_eq; lra.
  - intros x Hx. unfold parabolaInside. cbn [leb].
    now rewrite !Rleb_of_le by lra.
Defined.

(* ------------------------------------------------------------------ *)
(** ** Monotonicity in the angle, and the order of dawn and dusk *)

Lemma cos_lipschitz (x y : R) : Rabs (cos y - cos x) <= Rabs (y - x).
Proof.
  destruct (MVT_abs cos (fun c => - sin c) x y) as (c & Hc & _).
  { intros c _. apply derivable_pt_lim_cos. }
  rewrite Hc.
  pose proof (SIN_bound c) as [C1 C2].
  assert (Rabs (- sin c) <= 1) by (apply Rabs_le; lra).
  pose proof (Rabs_pos (y - x)). nra.
Qed.

(** The arc cosine moves at least as fast as its argument. *)
Lemma acos_expansive (x y : R) :
  -1 <= x -> x <= y -> y <= 1 -> y - x <= acos x - acos y.
Proof.
  intros Hx Hxy Hy.
  destruct (Req_dec x y) as [->|Hne]; [lra|].
  pose proof (acos_decreasing x y Hx ltac:(lra) Hy) as Hd.
  pose proof (cos_lipschitz (acos x) (acos y)) as H.
  rewrite !cos_acos in H by lra.
  rewrite (Rabs_pos_eq (y - x)) in H by lra.
  rewrite (Rabs_left (acos y - acos x)) in H by lra.
  lra.
Qed.

(** Within 60 degrees of zero the sine moves at least 0.49 times as fast
    as its argument. *)
Lemma sin_gap (x y : R) :
  - (PI / 3) <= y -> y <= x -> x <= PI / 3 -> 0.49 * (x - y) <= sin x - sin y.
Proof.
  intros Hy Hyx Hx.
  destruct (Req_dec y x) as [->|Hne]; [lra|].
  assert (Hlt : y < x) by lra.
  destruct (MVT_cor2 sin cos y x Hlt) as (c & Hc & Hin).
  { intros c _. apply derivable_pt_lim_sin. }
  rewrite Hc.
  pose proof PI_bounds as [P1 P2].
  pose proof (cos_abs_ge 1.0474 c ltac:(apply Rabs_le; lra) ltac:(lra)) as Hcos.
  assert (Hc49 : 0.49 <= cos c) by lra.
  nra.
Qed.

(** On one day and at one place strictly between the poles, between two
    depression angles of at most 60 degrees in magnitude the hour angle
    grows by at least a minute per degree. *)
Lemma Crossing_gap (jd lng tz : num) (latR a1 a2 : R)
    (latR1 altR1 d1 n1 c1 latR2 altR2 d2 n2 c2 : R) :
  -90 < latR < 90 -> -60 <= a1 -> a1 <= a2 -> a2 <= 60 ->
  Crossing jd (Fin latR) lng tz (neg (Fin a1)) latR1 altR1 d1 n1 c1 ->
  Crossing jd (Fin latR) lng tz (neg (Fin a2)) latR2 altR2 d2 n2 c2 ->
  n1 = n2 /\ hourAngleHours c1 + (a2 - a1) / 60 <= hourAngleHours c2.
Proof.
  intros Hlat Ha1 Ha12 Ha2 C1 C2.
  destruct (Crossing_same_day _ _ _ _ _ _ _ _ _ _ _ _ _ _ _ _ C1 C2)
    as (<- & <- & <-).
  split; [reflexivity|].
  pose proof (crossing_lat _ _ _ _ _ _ _ _ _ _ C1) as Hl.
  injection Hl as Hl; subst latR1.
  pose proof (Crossing_den_pos _ _ _ _ _ _ _ _ _ _ C1 Hlat) as Hden.
  pose proof (crossing_alt _ _ _ _ _ _ _ _ _ _ C1) as E1.
  pose proof (crossing_alt _ _ _ _ _ _ _ _ _ _ C2) as E2.
  cbn [neg] in E1, E2. injection E1 as E1. injection E2 as E2. subst altR1 altR2.
  pose proof (crossing_range _ _ _ _ _ _ _ _ _ _ C1) as R1.
  pose proof (crossing_range _ _ _ _ _ _ _ _ _ _ C2) as R2.
  pose proof (crossing_cosH _ _ _ _ _ _ _ _ _ _ C1) as V1.
  pose proof (crossing_cosH _ _ _ _ _ _ _ _ _ _ C2) as V2.
  pose proof PI_pos as Hpi.
  set (den := cos (latR * PI / 180) * cos d1) in *.
  assert (Hden1 : den <= 1).
  { unfold den. pose proof (COS_bound (latR * PI / 180)). pose proof (COS_bound d1).
    nra. }
  assert (Hsin : 0.49 * ((a2 - a1) * PI / 180)
                 <= sin (- a1 * PI / 180) - sin (- a2 * PI / 180)).
  { replace ((a2 - a1) * PI / 180) with (- a1 * PI / 180 - - a2 * PI / 180) by field.
    apply sin_gap; nra. }
  assert (Hc : 0.49 * ((a2 - a1) * PI / 180) <= c1 - c2).
  { rewrite V1, V2.
    replace ((sin (- a1 * PI / 180) - sin (latR * PI / 180) * sin d1) / den
             - (sin (- a2 * PI / 180) - sin (latR * PI / 180) * sin d1) / den)
      with ((sin (- a1 * PI / 180) - sin (- a2 * PI / 180)) / den) by (field; lra).
    apply Rle_trans with (sin (- a1 * PI / 180) - sin (- a2 * PI / 180)); [exact Hsin|].
    apply Rmult_le_reg_r with den; [exact Hden|].
    replace ((sin (- a1 * PI / 180) - sin (- a2 * PI / 180)) / den * den)
      with (sin (- a1 * PI / 180) - sin (- a2 * PI / 180)) by (field; lra).
    assert (0 <= (a2 - a1) * PI / 180) by nra. nra. }
  assert (Hpos : 0 <= (a2 - a1) * PI / 180) by nra.
  pose proof (acos_expansive c2 c1 ltac:(lra) ltac:(lra) ltac:(lra)) as Ha.
  unfold hourAngleHours.
  assert (E : forall u, u * 180 / PI / 15 = u * (12 / PI)) by (intros u; field; lra).
  rewrite !E.
  assert (Hk : 0 < 12 / PI) by (apply Rdiv_lt_0_compat; lra).
  assert (Hg : 0.49 * ((a2 - a1) * PI / 180) * (12 / PI) <= (acos c2 - acos c1) * (12 / PI)).
  { apply Rmult_le_compat_r; lra. }
  replace (0.49 * ((a2 - a1) * PI / 180) * (12 / PI)) with (0.49 * (a2 - a1) / 15) in Hg
    by (field; lra).
  lra.
Qed.

Lemma predictFajr_gap (date : Date) (lng tz : num) (latR a1 a2 f1 f2 : R) :
  -90 < latR < 90 -> -60 <= a1 -> a1 <= a2 -> a2 <= 60 ->
  predictFajr date (Fin latR) lng tz (Fin a1) = Fin f1 ->
  predictFajr date (Fin latR) lng tz (Fin a2) = Fin f2 ->
  f2 + (a2 - a1) / 60 <= f1.
Proof.
  intros Hlat Ha1 Ha12 Ha2 H1 H2. unfold predictFajr in H1, H2.
  destruct (crossing_of_finite _ _ _ _ _ f1 (or_introl H1))
    as (l1 & x1 & d1 & n1 & c1 & C1).
  destruct (crossing_of_finite _ _ _ _ _ f2 (or_introl H2))
    as (l2 & x2 & d2 & n2 & c2 & C2).
  destruct (Crossing_gap _ _ _ _ _ _ _ _ _ _ _ _ _ _ _ _
              Hlat Ha1 Ha12 Ha2 C1 C2) as (<- & Hlt).
  rewrite (crossing_value _ _ _ _ _ _ _ _ _ _ C1) in H1.
  rewrite (crossing_value _ _ _ _ _ _ _ _ _ _ C2) in H2.
  cbn [fst] in H1, H2. injection H1 as <-. injection H2 as <-.
  unfold hourAngleHours in Hlt. lra.
Qed.

Lemma predictIsha_gap (date : Date) (lng tz : num) (latR a1 a2 i1 i2 : R) :
  -90 < latR < 90 -> -60 <= a1 -> a1 <= a2 -> a2 <= 60 ->
  predictIsha date (Fin latR) lng tz (Fin a1) = Fin i1 ->
  predictIsha date (Fin latR) lng tz (Fin a2) = Fin i2 ->
  i1 + (a2 - a1) / 60 <= i2.
Proof.
  intros Hlat Ha1 Ha12 Ha2 H1 H2. unfold predictIsha in H1, H2.
  destruct (crossing_of_finite _ _ _ _ _ i1 (or_intror H1))
    as (l1 & x1 & d1 & n1 & c1 & C1).
  destruct (crossing_of_finite _ _ _ _ _ i2 (or_intror H2))
    as (l2 & x2 & d2 & n2 & c2 & C2).
  destruct (Crossing_gap _ _ _ _ _ _ _ _ _ _ _ _ _ _ _ _
              Hlat Ha1 Ha12 Ha2 C1 C2) as (<- & Hlt).
  rewrite (crossing_value _ _ _ _ _ _ _ _ _ _ C1) in H1.
  rewrite (crossing_value _ _ _ _ _ _ _ _ _ _ C2) in H2.
  cbn [snd] in H1, H2. injection H1 as <-. injection H2 as <-.
  unfold hourAngleHours in Hlt. lra.
Qed.

(** On IEEE doubles the depression angles 15.000000000000002 and
    15.000000000000004, two neighbouring doubles, have the same altitude in
    radians, [(-angle * Math.PI) / 180]: whatever the engine's [Math]
    functions, the predictions of New York on 15 June 2024 at the larger
    angle equal those at the smaller one. *)
Lemma predictions_equal_at_neighbouring_angles :
  PrimFloat.ltb Double.angleBelow Double.angleAbove = true
  /\ forall M : Double.Engine,
       Double.predictFajr M (MkDate 2024 5 15) Double.newYorkLat Double.newYorkLng
         Double.newYorkTz Double.angleAbove
       = Double.predictFajr M (MkDate 2024 5 15) Double.newYorkLat Double.newYorkLng
           Double.newYorkTz Double.angleBelow
       /\ Double.predictIsha M (MkDate 2024 5 15) Double.newYorkLat Double.newYorkLng
            Double.newYorkTz Double.angleAbove
          = Double.predictIsha M (MkDate 2024 5 15) Double.newYorkLat Double.newYorkLng
              Double.newYorkTz Double.angleBelow.
Proof.
  split; [reflexivity|].
  intros M. split; vm_compute; reflexivity.
Qed.

(** C4 (amended). On an ordinary day and place (a date of the years 1900 to
    2099, a longitude of at most 180 degrees and a UTC offset of at most 24
    hours in magnitude), at a latitude strictly between the poles, take two
    depression angles between -60 and 60 degrees that differ by at least
    1e-9 degrees and at which the crossing exists (the prediction is
    finite).  The larger angle gives a strictly earlier dawn and a strictly
    later dusk, by at least one minute per degree. *)
Theorem predict_monotone_in_angle (date : Date) (lat lng tz : num)
    (latR a1 a2 : R) :
  ordinaryInput date lng tz ->
  lat = Fin latR -> -90 < latR < 90 ->
  -60 <= a1 -> a1 + 1e-9 <= a2 -> a2 <= 60 ->
  (forall f1 f2 : R,
      predictFajr date lat lng tz (Fin a1) = Fin f1 ->
      predictFajr date lat lng tz (Fin a2) = Fin f2 ->
      f2 < f1 /\ (a2 - a1) / 60 <= f1 - f2)
  /\ (forall i1 i2 : R,
        predictIsha date lat lng tz (Fin a1) = Fin i1 ->
        predictIsha date lat lng tz (Fin a2) = Fin i2 ->
        i1 < i2 /\ (a2 - a1) / 60 <= i2 - i1).
Proof.
  intros _ -> Hlat Ha1 Ha12 Ha2.
  assert (Hpos : 0 < 1e-9) by lra.
  split.
  - intros f1 f2 H1 H2.
    pose proof (predictFajr_gap date lng tz latR a1 a2 f1 f2
                  Hlat Ha1 ltac:(lra) Ha2 H1 H2).
    split; lra.
  - intros i1 i2 H1 H2.
    pose proof (predictIsha_gap date lng tz latR a1 a2 i1 i2
                  Hlat Ha1 ltac:(lra) Ha2 H1 H2).
    split; lra.
Qed.

Lemma equator_ordinary : ordinaryInput (MkDate 2000 0 1) (Fin 0) (Fin 0).
Proof.
  split; [|split].
  - exists 2000%Z, 0%Z, 1%Z. repeat split; lia.
  - exists 0. split; [reflexivity|]. rewrite Rabs_R0. lra.
  - exists 0. split; [reflexivity|]. rewrite Rabs_R0. lra.
Qed.

Lemma predict_monotone_in_angle_witness :
  exists f15 f18 i15 i18,
    predictFajr (MkDate 2000 0 1) (Fin 0) (Fin 0) (Fin 0) (Fin 15) = Fin f15
    /\ predictFajr (MkDate 2000 0 1) (Fin 0) (Fin 0) (Fin 0) (Fin 18) = Fin f18
    /\ predictIsha (MkDate 2000 0 1) (Fin 0) (Fin 0) (Fin 0) (Fin 15) = Fin i15
    /\ predictIsha (MkDate 2000 0 1) (Fin 0) (Fin 0) (Fin 0) (Fin 18) = Fin i18
    /\ f18 < f15 /\ i15 < i18.
Proof.
  destruct (equator_predictions 15) as (f15 & i15 & Hf15 & Hi15); [lra|].
  destruct (equator_predictions 18) as (f18 & i18 & Hf18 & Hi18); [lra|].
  exists f15, f18, i15, i18.
  destruct (predict_monotone_in_angle (MkDate 2000 0 1) (Fin 0) (Fin 0) (Fin 0)
              0 15 18 equator_ordinary) as [Hf Hi]; try reflexivity; try lra.
  repeat split; auto.
  - exact (proj1 (Hf f15 f18 Hf15 Hf18)).
  - exact (proj1 (Hi i15 i18 Hi15 Hi18)).
Defined.

Lemma acos_099 (c : R) : -1 <= c -> c <= 0.99 -> 0.14 <= acos c.
Proof.
  intros H1 H2.
  pose proof PI_bounds as [P1 P2].
  pose proof (cos_taylor_lower 0.14 ltac:(lra)) as Hcos.
  assert (Hc : 0.99 <= cos 0.14) by lra.
  pose proof (COS_bound 0.14) as [_ Hub].
  rewrite <- (acos_cos 0.14) by lra.
  destruct (Req_dec c (cos 0.14)) as [->|Hne]; [lra|].
  left. apply acos_decreasing; lra.
Qed.

(** X4. A finite dawn comes with a finite dusk at the same angle, with
    solar noon [12 - eqtHours - lng/15 + tz] between them; on an ordinary
    day and place they are at least an hour apart when [cos(H)] is at most
    0.99. *)
Theorem predictions_around_noon (date : Date) (lat lng tz angle : num) (f : R) :
  predictFajr date lat lng tz angle = Fin f ->
  exists i n,
    predictIsha date lat lng tz angle = Fin i
    /\ solarNoon (jdn (utcNoon date)) lng tz = Fin n
    /\ f <= n <= i
    /\ (ordinaryInput date lng tz ->
        forall c, cosHourAngle (jdn (utcNoon date)) lat (neg angle) = Fin c ->
                  c <= 0.99 -> f + 1 <= i).
Proof.
  unfold predictFajr, predictIsha. intros Hf.
  destruct (horizonCrossing_cases (jdn (utcNoon date)) lat lng tz (neg angle))
    as [E | (c & Hc & Hcos & E)]; rewrite E in *; cbn [fst snd] in *; [discriminate|].
  apply sub_fin_inv in Hf as (n & h & Hn & Hh & ->). injection Hh as <-.
  rewrite Hn. exists (n + hourAngleHours c), n.
  split; [reflexivity|]. split; [reflexivity|].
  pose proof (hourAngleHours_nonneg c) as H0.
  split; [lra|].
  intros _ c' Hc' Hle. rewrite Hcos in Hc'. injection Hc' as <-.
  pose proof (acos_099 c ltac:(lra) Hle) as Ha.
  pose proof PI_bounds as [P1 P2].
  unfold hourAngleHours in *.
  assert (E' : acos c * 180 / PI / 15 = acos c * (12 / PI)) by (field; lra).
  rewrite E' in *.
  assert (Hk : 3.8 <= 12 / PI).
  { apply Rmult_le_reg_r with PI; [lra|].
    replace (12 / PI * PI) with 12 by (field; lra). lra. }
  nra.
Qed.

Lemma predictions_around_noon_witness :
  exists f i,
    predictFajr (MkDate 2000 0 1) (Fin 0) (Fin 0) (Fin 0) (Fin 15) = Fin f
    /\ predictIsha (MkDate 2000 0 1) (Fin 0) (Fin 0) (Fin 0) (Fin 15) = Fin i
    /\ f + 1 <= i.
Proof.
  destruct (equator_predictions 15) as (f & i0 & Hf & _); [lra|].
  destruct (predictions_around_noon _ _ _ _ _ _ Hf) as (i & n & Hi & _ & _ & Hgap).
  exists f, i. split; [exact Hf|]. split; [exact Hi|].
  apply (Hgap equator_ordinary (cosHR (centuryR 2451545) 0 (- (15)))).
  - rewrite jdn_J2000. cbn [neg].
    apply cosHourAngle_fin. apply equator_den, J2000_in_range.
  - pose proof (equator_cosHR _ J2000_in_range 15 ltac:(lra)). lra.
Defined.
